(** * Album indexing and link reconciliation of gphotos-sync

    A shallow embedding of [gphotos_sync/GoogleAlbumsSync.py]: the album
    catalogue indexer ([index_album_media], [index_albums_type],
    [fetch_album_contents]), the folder namer ([album_folder_name]) and the
    link reconciler ([create_album_content_links],
    [_clean_up_stale_links]).

    The remote API is a sequence of paged responses, the local store is a
    table of album rows together with the chronological trace of the calls
    made on it, and the file system is a finite map from absolute paths to
    nodes. *)

From stdpp Require Import base option list strings gmap sorting pretty.
From Stdlib Require Import ZArith Lia Ascii.

Local Open Scope string_scope.
Local Open Scope list_scope.
Local Open Scope Z_scope.

(** ** Dates *)

(** [datetime] values are compared chronologically, that is
    lexicographically on (year, month, day, time of day). *)
Record datetime := mk_datetime {
  dt_year : Z;
  dt_month : Z;
  dt_day : Z;
  dt_time : Z
}.

Definition dt_ltb (a b : datetime) : bool :=
  if dt_year a <? dt_year b then true
  else if dt_year b <? dt_year a then false
  else if dt_month a <? dt_month b then true
  else if dt_month b <? dt_month a then false
  else if dt_day a <? dt_day b then true
  else if dt_day b <? dt_day a then false
  else dt_time a <? dt_time b.

Definition dt_leb (a b : datetime) : bool := negb (dt_ltb b a).

(** Python's two-argument [max(a, b)] and [min(a, b)]: the first argument
    is kept unless the second is strictly better. *)
Definition py_max (a b : datetime) : datetime := if dt_ltb a b then b else a.
Definition py_min (a b : datetime) : datetime := if dt_ltb b a then b else a.

(** The module [Utils] is not part of the sources at hand: its two date
    sentinels and its date parser are parameters of the model. *)
Record Utils := {
  maximum_date : datetime;            (* Utils.maximum_date() *)
  MINIMUM_DATE : datetime;            (* Utils.MINIMUM_DATE *)
  string_to_date : string -> datetime (* Utils.string_to_date *)
}.

(** ** Strings and paths *)

(** [s.split("/")] *)
Fixpoint split_slash (s : string) : list string :=
  match s with
  | EmptyString => [EmptyString]
  | String c rest =>
    if Ascii.eqb c "/"%char then EmptyString :: split_slash rest
    else match split_slash rest with
         | [] => [String c EmptyString]
         | x :: xs => String c x :: xs
         end
  end.

Definition starts_with_slash (s : string) : bool :=
  match s with
  | String c _ => Ascii.eqb c "/"%char
  | EmptyString => false
  end.

(** The components pathlib keeps of a path string: empty components and
    ["."] are dropped, [".."] is kept. *)
Definition path_parts (s : string) : list string :=
  List.filter (fun x => negb (String.eqb x "") && negb (String.eqb x "."))
    (split_slash s).

(** A pathlib path: whether it starts at the root, and its components. *)
Record PurePath := mk_path {
  anchored : bool;
  parts : list string
}.

(** [Path(s)] *)
Definition Path (s : string) : PurePath :=
  {| anchored := starts_with_slash s; parts := path_parts s |}.

(** [a / b]: an absolute right operand replaces the left one. *)
Definition joinpath (a b : PurePath) : PurePath :=
  if anchored b then b
  else {| anchored := anchored a; parts := parts a ++ parts b |}.

Notation "a // s" := (joinpath a (Path s)) (at level 40, left associativity).

(** [str(p)] *)
Definition str (p : PurePath) : string :=
  if anchored p then "/" +:+ String.concat "/" (parts p)
  else match parts p with
       | [] => "."
       | _ => String.concat "/" (parts p)
       end.

(** [os.path.normpath] on components: [".."] cancels the component before
    it, and stays at the root when there is none. *)
Definition normpath (l : list string) : list string :=
  foldl (fun acc x => if String.eqb x ".." then removelast acc else acc ++ [x])
    [] l.

Fixpoint strip_common (a b : list string) : list string * list string :=
  match a, b with
  | x :: a', y :: b' =>
    if String.eqb x y then strip_common a' b' else (a, b)
  | _, _ => (a, b)
  end.

(** [os.path.relpath(path, start)], both taken from the root. *)
Definition relpath (path start : PurePath) : string :=
  let '(s, p) := strip_common (normpath (parts start)) (normpath (parts path)) in
  match (replicate (length s) ".." ++ p)%list with
  | [] => "."
  | rel_list => String.concat "/" rel_list
  end.

(** [s[:n]] with Python's reading of a negative bound. A string is a
    sequence of bytes here: the bound counts bytes where Python counts
    characters, which is the same thing for ASCII names. *)
Definition slice_to (s : string) (n : Z) : string :=
  if 0 <=? n then String.substring 0 (Z.to_nat n) s
  else String.substring 0 (Z.to_nat (Z.of_nat (String.length s) + n)) s.

(** Decimal digits of [n], padded with zeros on the left to [width]. *)
Definition zero_pad (width : nat) (n : N) : string :=
  let digits := pretty n in
  String.concat "" (replicate (width - String.length digits) "0") +:+ digits.

(** Modelled from the spec: [datetime.strftime] as [Utils.safe_str_time]
    applies it, for the directives the album folders use: [%Y] the
    four-digit year, [%m] and [%d] the two-digit month and day. Any other
    directive is left as written. *)
Fixpoint strftime (d : datetime) (fmt : string) : string :=
  match fmt with
  | EmptyString => EmptyString
  | String c rest =>
    if Ascii.eqb c "%"%char then
      match rest with
      | String k rest' =>
        (if Ascii.eqb k "Y"%char then zero_pad 4 (Z.to_N (dt_year d))
         else if Ascii.eqb k "m"%char then zero_pad 2 (Z.to_N (dt_month d))
         else if Ascii.eqb k "d"%char then zero_pad 2 (Z.to_N (dt_day d))
         else if Ascii.eqb k "%"%char then "%"
         else String c (String k EmptyString))
        +:+ strftime d rest'
      | EmptyString => String c EmptyString
      end
    else String c (strftime d rest)
  end.

Definition safe_str_time (d : datetime) (date_format : string) : string :=
  strftime d date_format.

Definition digit_of (c : ascii) : option nat :=
  let n := Ascii.nat_of_ascii c in
  if (48 <=? n)%nat && (n <=? 57)%nat then Some (n - 48)%nat else None.

(** [fmt.format(args...)] for templates whose replacement fields are [{N}]
    with a one-digit index, and the escapes [{{] and [}}]; [None] stands
    for the exception Python raises on a bad index or a stray brace. Other
    forms of replacement field are outside the model and also give
    [None]. *)
Fixpoint format (fmt : string) (args : list string) : option string :=
  match fmt with
  | EmptyString => Some EmptyString
  | String c rest =>
    if Ascii.eqb c "{"%char then
      match rest with
      | String k rest1 =>
        if Ascii.eqb k "{"%char then
          r ← format rest1 args; Some (String "{"%char r)
        else
          match rest1 with
          | String e rest' =>
            if Ascii.eqb e "}"%char then
              i ← digit_of k; a ← args !! i; r ← format rest' args;
              Some (a +:+ r)
            else None
          | EmptyString => None
          end
      | EmptyString => None
      end
    else if Ascii.eqb c "}"%char then
      match rest with
      | String k rest' =>
        if Ascii.eqb k "}"%char then r ← format rest' args; Some (String "}"%char r)
        else None
      | EmptyString => None
      end
    else r ← format rest args; Some (String c r)
  end.

(** [x or default] on strings that may be [None] or empty. *)
Definition str_or (x : option string) (default : string) : string :=
  match x with
  | Some s => if String.eqb s "" then default else s
  | None => default
  end.

(** The values [get_check()] provides, and whether [os.utime] is in
    [os.supports_follow_symlinks]. The module [Checks] is not part of the
    sources at hand. *)
Record Checks := {
  max_path : Z;
  max_filename : Z;
  valid_file_name : string -> string;
  utime_supports_follow_symlinks : bool
}.

(** ** Remote objects *)

(** A media item as [GooglePhotosMedia] exposes it. *)
Module GooglePhotosMedia.
Record t := mk {
  id : string;
  filename : string;
  create_date : datetime;
  is_video : bool
}.
End GooglePhotosMedia.

(** An album as [GoogleAlbumMedia] exposes it. *)
Module GoogleAlbumMedia.
Record t := mk {
  id : string;
  orig_name : string;
  filename : string;
  size : Z;
  description : string
}.
End GoogleAlbumMedia.

(** The summary row written for an indexed album
    ([GoogleAlbumsRow.from_parm]). *)
Module GoogleAlbumsRow.
Record t := from_parm {
  RemoteId : string;
  AlbumName : string;
  Size : Z;
  StartDate : datetime;
  EndDate : datetime;
  Shared : option bool
}.
End GoogleAlbumsRow.

(** A page token is used when it is truthy: present and not empty. *)
Definition truthy_token (t : option string) : bool :=
  match t with
  | Some s => negb (String.eqb s "")
  | None => false
  end.

(** One response of [mediaItems.search]; [media_ok] is the truth value of
    the response object. *)
Record media_response := {
  media_ok : bool;
  mediaItems : list GooglePhotosMedia.t;
  media_nextPageToken : option string
}.

(** One response of [albums.list] or [sharedAlbums.list]; [album_items]
    is the list found under the listing's [item_key]. *)
Record album_response := {
  album_ok : bool;
  album_items : list GoogleAlbumMedia.t;
  album_nextPageToken : option string
}.

(** The REST client: for every endpoint the responses it gives to the
    successive calls. When the responses run out the next one is falsy. *)
Record RestClient := {
  sharedAlbums_list : list album_response;
  albums_list : list album_response;
  mediaItems_search : string -> list media_response
}.

(** ** The synchroniser object *)

(** The options of [Settings] the constructor reads. A path option is the
    string the path was built from. *)
Record Settings := {
  photos_path : string;
  albums_path : string;
  shared_albums_path : string;
  s_album : string;
  s_album_regex : option (string -> bool);
  s_shared_albums : bool;
  s_album_index : bool;
  s_use_start_date : bool;
  favourites_only : bool;
  s_include_video : bool;
  use_flat_path : bool;
  omit_album_date : bool;
  album_invert : bool;
  use_hardlinks : bool;
  ntfs_override : bool;
  s_month_format : option string;
  s_path_format : option string;
  no_album_sorting : bool;
  preserve_album_links : bool;
  s_progress : bool
}.

(** The attributes of a [GoogleAlbumsSync] object. *)
Record GoogleAlbumsSync := {
  _photos_folder : PurePath;
  _albums_folder : PurePath;
  _shared_albums_folder : PurePath;
  _root_folder : PurePath;
  _albums_root : PurePath;
  _shared_albums_root : PurePath;
  _photos_root : PurePath;
  flush : bool;
  album : string;
  (** [album_regex]: [None] when no regular expression is configured,
      otherwise the predicate [re.search(album_regex, _, re.I)]. *)
  album_regex : option (string -> bool);
  shared_albums : bool;
  album_index : bool;
  use_start_date : bool;
  favourites : bool;
  include_video : bool;
  _use_flat_path : bool;
  _omit_album_date : bool;
  _album_invert : bool;
  _use_hardlinks : bool;
  _ntfs_override : bool;
  month_format : option string;
  path_format : option string;
  _no_album_sorting : bool;
  _preserve_album_links : bool;
  progress : bool              (* self.settings.progress *)
}.

Definition __init__ (root_folder : PurePath) (flush : bool)
    (settings : Settings) : GoogleAlbumsSync :=
  let photos_folder := Path (photos_path settings) in
  let albums_folder := Path (albums_path settings) in
  let shared_albums_folder := Path (shared_albums_path settings) in
  {| _photos_folder := photos_folder;
     _albums_folder := albums_folder;
     _shared_albums_folder := shared_albums_folder;
     _root_folder := root_folder;
     _albums_root :=
       if negb (anchored albums_folder)
       then joinpath root_folder albums_folder else albums_folder;
     _shared_albums_root :=
       if negb (anchored shared_albums_folder)
       then joinpath root_folder shared_albums_folder
       else shared_albums_folder;
     _photos_root := joinpath root_folder photos_folder;
     flush := flush;
     album := s_album settings;
     album_regex := s_album_regex settings;
     shared_albums := s_shared_albums settings;
     album_index := s_album_index settings;
     use_start_date := s_use_start_date settings;
     favourites := favourites_only settings;
     include_video := s_include_video settings;
     _use_flat_path := use_flat_path settings;
     _omit_album_date := omit_album_date settings;
     _album_invert := album_invert settings;
     _use_hardlinks := use_hardlinks settings;
     _ntfs_override := ntfs_override settings;
     month_format := s_month_format settings;
     path_format := s_path_format settings;
     _no_album_sorting := no_album_sorting settings;
     _preserve_album_links := preserve_album_links settings;
     progress := s_progress settings |}.

(** ** The local store *)

Inductive skip_reason :=
| NoAlbumMatch       (* does not match --album *)
| NoRegexMatch       (* does not match --album-regex *)
| NoTitle            (* no-title album *)
| AlreadyIndexed.

(** What the indexer does to the outside, in the order it does it. *)
Inductive event :=
| LogIndexing (description : string)
| LogSkipping (why : skip_reason) (album_id : string)
| LogIndexingAlbum (album_id : string)
| FetchAlbumContents (album_id : string) (add_media_items : bool)
| LogEmptyPage
| LogSkipVideo (media_id : string)
| PutAlbumFile (album_id media_id : string) (position : Z)
| PutMediaRow (media_id : string)
| PutAlbumRow (row : GoogleAlbumsRow.t) (update : bool)
| LogListed (count : nat) (description : string)
| LogIndexed (count : nat) (description : string).

(** Modelled from the spec: the [LocalData] store of album rows, read by
    [get_album] and written by [put_row] with upsert semantics, keyed by
    the album's remote identifier. *)
Record LocalData := {
  albums : gmap string GoogleAlbumsRow.t;
  trace : list event
}.

Definition emit (e : event) (db : LocalData) : LocalData :=
  {| albums := albums db; trace := trace db ++ [e] |}.

Definition get_album (db : LocalData) (album_id : string)
  : option GoogleAlbumsRow.t := albums db !! album_id.

Definition put_album_row (gar : GoogleAlbumsRow.t) (update : bool)
    (db : LocalData) : LocalData :=
  {| albums := <[GoogleAlbumsRow.RemoteId gar := gar]> (albums db);
     trace := trace db ++ [PutAlbumRow gar update] |}.

(** ** [fetch_album_contents] *)

(** The variables of the fetch loop. *)
Record fetch_state := {
  position : Z;
  first_date : datetime;
  last_date : datetime;
  fetch_db : LocalData
}.

(** The body of [for media_item_json in media_json]. *)
Definition fetch_item (self : GoogleAlbumsSync) (album_id : string)
    (add_media_items : bool) (st : fetch_state) (m : GooglePhotosMedia.t)
  : fetch_state :=
  let position := position st + 1 in
  if negb (include_video self) && GooglePhotosMedia.is_video m then
    {| position := position;
       first_date := first_date st;
       last_date := last_date st;
       fetch_db := emit (LogSkipVideo (GooglePhotosMedia.id m)) (fetch_db st) |}
  else
    let db := emit (PutAlbumFile album_id (GooglePhotosMedia.id m) position)
                (fetch_db st) in
    let last_date := py_max (GooglePhotosMedia.create_date m) (last_date st) in
    let first_date := py_min (GooglePhotosMedia.create_date m) (first_date st) in
    let db := if add_media_items
              then emit (PutMediaRow (GooglePhotosMedia.id m)) db else db in
    {| position := position;
       first_date := first_date;
       last_date := last_date;
       fetch_db := db |}.

(** The [while response] loop over the responses of the remote. *)
Fixpoint fetch_pages (self : GoogleAlbumsSync) (album_id : string)
    (add_media_items : bool) (responses : list media_response)
    (st : fetch_state) : fetch_state :=
  match responses with
  | [] => st
  | response :: rest =>
    if negb (media_ok response) then st
    else
      let next := truthy_token (media_nextPageToken response) in
      match mediaItems response with
      | [] =>
        if negb next then st
        else
          let st := {| position := position st;
                       first_date := first_date st;
                       last_date := last_date st;
                       fetch_db := emit LogEmptyPage (fetch_db st) |} in
          fetch_pages self album_id add_media_items rest st
      | media_json =>
        let st := foldl (fetch_item self album_id add_media_items) st media_json in
        if next then fetch_pages self album_id add_media_items rest st
        else st
      end
  end.

Definition fetch_album_contents (utils : Utils) (self : GoogleAlbumsSync)
    (api : RestClient) (album_id : string) (add_media_items : bool)
    (db : LocalData) : (datetime * datetime) * LocalData :=
  let st := {| position := -1;
               first_date := maximum_date utils;
               last_date := MINIMUM_DATE utils;
               fetch_db := emit (FetchAlbumContents album_id add_media_items) db |} in
  let st := fetch_pages self album_id add_media_items
              (mediaItems_search api album_id) st in
  ((first_date st, last_date st), fetch_db st).

(** ** [index_albums_type] and [index_album_media] *)

(** [{"albums": False, "sharedAlbums": True}.get(item_key)] *)
Definition shared_of_key (item_key : string) : option bool :=
  if String.eqb item_key "albums" then Some false
  else if String.eqb item_key "sharedAlbums" then Some true
  else None.

Definition is_Some_b {A} (o : option A) : bool :=
  match o with Some _ => true | None => false end.

(** The body of [for album_json in results.get(item_key, [])]; the state
    is the running [count] and the store. *)
Definition index_album (utils : Utils) (self : GoogleAlbumsSync)
    (api : RestClient) (item_key description : string)
    (allow_null_title add_media_items : bool)
    (st : nat * LocalData) (album_media : GoogleAlbumMedia.t) : nat * LocalData :=
  let '(count, db) := st in
  let count := S count in
  let indexed_album := get_album db (GoogleAlbumMedia.id album_media) in
  let already_indexed :=
    match indexed_album with
    | Some row => GoogleAlbumsRow.Size row =? GoogleAlbumMedia.size album_media
    | None => false
    end in
  let db :=
    if negb (String.eqb (album self) "")
       && negb (String.eqb (album self) (GoogleAlbumMedia.orig_name album_media))
    then emit (LogSkipping NoAlbumMatch (GoogleAlbumMedia.id album_media)) db
    else if match album_regex self with
            | Some re_search => negb (re_search (GoogleAlbumMedia.orig_name album_media))
            | None => false
            end
    then emit (LogSkipping NoRegexMatch (GoogleAlbumMedia.id album_media)) db
    else if negb allow_null_title
            && String.eqb (GoogleAlbumMedia.description album_media) "none"
    then emit (LogSkipping NoTitle (GoogleAlbumMedia.id album_media)) db
    else if already_indexed && negb (flush self)
    then emit (LogSkipping AlreadyIndexed (GoogleAlbumMedia.id album_media)) db
    else
      let db := emit (LogIndexingAlbum (GoogleAlbumMedia.id album_media)) db in
      let '((first_date, last_date), db) :=
        fetch_album_contents utils self api (GoogleAlbumMedia.id album_media)
          add_media_items db in
      let gar := GoogleAlbumsRow.from_parm
                   (GoogleAlbumMedia.id album_media)
                   (GoogleAlbumMedia.filename album_media)
                   (GoogleAlbumMedia.size album_media)
                   first_date last_date
                   (shared_of_key item_key) in
      put_album_row gar (is_Some_b indexed_album) db in
  let db := if progress self && (Nat.modulo count 10 =? 0)%nat
            then emit (LogListed count description) db else db in
  (count, db).

(** The [while response] loop over the album listing. *)
Fixpoint index_pages (utils : Utils) (self : GoogleAlbumsSync)
    (api : RestClient) (item_key description : string)
    (allow_null_title add_media_items : bool)
    (responses : list album_response) (st : nat * LocalData)
  : nat * LocalData :=
  match responses with
  | [] => st
  | response :: rest =>
    if negb (album_ok response) then st
    else
      let st := foldl (index_album utils self api item_key description
                         allow_null_title add_media_items)
                  st (album_items response) in
      if truthy_token (album_nextPageToken response)
      then index_pages utils self api item_key description
             allow_null_title add_media_items rest st
      else st
  end.

Definition index_albums_type (utils : Utils) (self : GoogleAlbumsSync)
    (api : RestClient) (api_function : list album_response)
    (item_key description : string)
    (allow_null_title add_media_items : bool) (db : LocalData) : LocalData :=
  let db := emit (LogIndexing description) db in
  (* when only looking for favourites do not download album contents *)
  let add_media_items := if favourites self then false else add_media_items in
  let '(count, db) :=
    index_pages utils self api item_key description allow_null_title
      add_media_items api_function (0%nat, db) in
  emit (LogIndexed count description) db.

Definition index_album_media (utils : Utils) (self : GoogleAlbumsSync)
    (api : RestClient) (db : LocalData) : LocalData :=
  let db :=
    if shared_albums self
    then index_albums_type utils self api (sharedAlbums_list api)
           "sharedAlbums" "Shared (titled) Albums" false true db
    else db in
  index_albums_type utils self api (albums_list api)
    "albums" "Albums" true (album_index self) db.

(** ** [album_folder_name] *)

Definition album_folder_name (checks : Checks) (self : GoogleAlbumsSync)
    (album_name : string) (start_date end_date : datetime) (shared : bool)
  : option PurePath :=
  let album_name := valid_file_name checks album_name in
  rel_path ←
    (if _omit_album_date self then Some album_name
     else
       let d := if use_start_date self then start_date else end_date in
       let year := safe_str_time d "%Y" in
       let month := safe_str_time d (str_or (month_format self) "%m%d") in
       if _use_flat_path self then
         let fmt := str_or (path_format self) "{0}-{1} {2}" in
         format fmt [year; month; album_name]
       else
         let fmt := str_or (path_format self) "{0} {1}" in
         leaf ← format fmt [month; album_name];
         Some (str (Path year // leaf)));
  let link_folder :=
    if shared then _shared_albums_root self // rel_path
    else _albums_root self // rel_path in
  Some link_folder.

(** ** The file system *)

(** What a path holds. A regular file is known by its inode: two paths
    holding [File i] are hard links to the same file. *)
Inductive node :=
| Dir
| File (ino : nat)
| Symlink (target : string).

#[global] Instance node_eq_dec : EqDecision node.
Proof. solve_decision. Defined.

(** The exceptions the reconciler can meet. [FormatError] stands for what
    [str.format] raises; the others are [OSError] and subclasses of it. *)
Inductive exn :=
| FileExistsError
| FileNotFoundError
| NotADirectoryError
| IsADirectoryError
| PermissionError
| OSError
| FormatError.

Definition is_OSError (e : exn) : bool :=
  match e with FormatError => false | _ => true end.

Definition is_FileExistsError (e : exn) : bool :=
  match e with FileExistsError => true | _ => false end.

(** A file system maps the components of an absolute path to what the
    path holds; a relative path is read from the root. Directory
    components are real directories: a symbolic link is followed only as
    the last component of a path. *)
Abbreviation filesystem := (gmap (list string) node).

(** Where the target of the symbolic link at [link] points. The target
    is read from the path the link is written with, and [".."] cancels
    the component before it: this is what the kernel does when the
    directories on the way to the link are real directories, see
    [real_dirs]. *)
Definition resolve_target (link : list string) (target : string)
  : list string :=
  normpath ((if starts_with_slash target then [] else removelast link)
            ++ path_parts target).

(** [os.stat]: follows symbolic links, at most [n] of them in a row. The
    result is the path reached and the node found there. *)
Fixpoint stat_fuel (n : nat) (fs : filesystem) (p : list string)
  : option (list string * node) :=
  match fs !! p with
  | Some (Symlink t) =>
    match n with
    | O => None
    | S n' => stat_fuel n' fs (resolve_target p t)
    end
  | Some nd => Some (p, nd)
  | None => None
  end.

(** The kernel gives up after 40 links. *)
Definition stat (fs : filesystem) (p : list string)
  : option (list string * node) := stat_fuel 40 fs p.

Definition fs_exists (fs : filesystem) (p : list string) : bool :=
  is_Some_b (stat fs p).

Definition fs_is_dir (fs : filesystem) (p : list string) : bool :=
  match stat fs p with Some (_, Dir) => true | _ => false end.

Definition fs_is_symlink (fs : filesystem) (p : list string) : bool :=
  match fs !! p with Some (Symlink _) => true | _ => false end.

(** [os.readlink]; [None] stands for the [OSError] on a path that is not
    a symbolic link. *)
Definition fs_readlink (fs : filesystem) (p : list string) : option string :=
  match fs !! p with Some (Symlink t) => Some t | _ => None end.

(** [p.stat().st_ino]: a regular file has its inode, a directory is
    known by the path it is reached at. *)
Definition st_ino (fs : filesystem) (p : list string)
  : option (list string + nat) :=
  match stat fs p with
  | Some (q, Dir) => Some (inl q)
  | Some (_, File i) => Some (inr i)
  | _ => None
  end.

(** The entry must be new and sit in a real directory. *)
Definition check_new_entry (fs : filesystem) (p : list string) : option exn :=
  match fs !! p with
  | Some _ => Some FileExistsError
  | None =>
    match fs !! removelast p with
    | None => Some FileNotFoundError
    | Some Dir => None
    | Some _ => Some NotADirectoryError
    end
  end.

(** [os.mkdir] *)
Definition os_mkdir (fs : filesystem) (p : list string) : exn + filesystem :=
  match check_new_entry fs p with
  | Some e => inl e
  | None => inr (<[p := Dir]> fs)
  end.

(** [Path.mkdir(parents=False, exist_ok=...)] *)
Definition mkdir_here (exist_ok : bool) (fs : filesystem) (p : list string)
  : exn + filesystem :=
  match os_mkdir fs p with
  | inr fs' => inr fs'
  | inl FileNotFoundError => inl FileNotFoundError
  | inl e => if negb exist_ok || negb (fs_is_dir fs p) then inl e else inr fs
  end.

(** [Path.mkdir(parents=True, exist_ok=...)]: when the parent is missing
    it is made first, with [parents=True, exist_ok=True]. [n] bounds the
    depth of that recursion; the length of the path is enough. *)
Fixpoint mkdir_parents (n : nat) (exist_ok : bool) (fs : filesystem)
    (p : list string) : exn + filesystem :=
  match os_mkdir fs p with
  | inr fs' => inr fs'
  | inl FileNotFoundError =>
    match p, n with
    | [], _ | _, O => inl FileNotFoundError
    | _, S n' =>
      match mkdir_parents n' true fs (removelast p) with
      | inl e => inl e
      | inr fs1 => mkdir_here exist_ok fs1 p
      end
    end
  | inl e => if negb exist_ok || negb (fs_is_dir fs p) then inl e else inr fs
  end.

Definition fs_mkdir (parents exist_ok : bool) (fs : filesystem)
    (p : list string) : exn + filesystem :=
  if parents then mkdir_parents (length p) exist_ok fs p
  else mkdir_here exist_ok fs p.

(** [Path.unlink]: removes the entry itself, never what a link points
    to. An entry that exists and is not a directory is always removed: a
    failure for lack of permission is outside the model. *)
Definition fs_unlink (fs : filesystem) (p : list string) : exn + filesystem :=
  match fs !! p with
  | None => inl FileNotFoundError
  | Some Dir => inl IsADirectoryError
  | Some _ => inr (delete p fs)
  end.

(** [os.link(src, dst)]: the new entry holds what the source entry holds. *)
Definition fs_link (fs : filesystem) (src dst : list string)
  : exn + filesystem :=
  match fs !! src with
  | None => inl FileNotFoundError
  | Some Dir => inl PermissionError
  | Some nd =>
    match check_new_entry fs dst with
    | Some e => inl e
    | None => inr (<[dst := nd]> fs)
    end
  end.

(** [os.symlink(target, dst)] and [dst.symlink_to(target)] *)
Definition fs_symlink (fs : filesystem) (target : string) (dst : list string)
  : exn + filesystem :=
  match check_new_entry fs dst with
  | Some e => inl e
  | None => inr (<[dst := Symlink target]> fs)
  end.

Definition under (root p : list string) : Prop := root `prefix_of` p.
Definition strictly_under (root p : list string) : Prop :=
  root `prefix_of` p ∧ p ≠ root.

(** [shutil.rmtree]: the directory goes with everything below it; the
    call refuses a symbolic link and anything else that is not a
    directory. *)
Definition fs_rmtree (fs : filesystem) (p : list string) : exn + filesystem :=
  match fs !! p with
  | None => inl FileNotFoundError
  | Some Dir => inr (filter (fun kv => ¬ under p kv.1) fs)
  | Some (Symlink _) => inl OSError
  | Some (File _) => inl NotADirectoryError
  end.

(** The entries directly inside the directory at [p]. *)
Definition is_child (p k : list string) : Prop := k ≠ [] ∧ removelast k = p.

Definition children (fs : filesystem) (p : list string) : list (list string) :=
  filter (is_child p) (elements (dom fs)).

(** [any(p.iterdir())], for a path [p] that is a directory. *)
Definition any_iterdir (fs : filesystem) (p : list string) : bool :=
  match stat fs p with
  | Some (q, Dir) => match children fs q with [] => false | _ => true end
  | _ => false
  end.

(** [Path.rmdir] *)
Definition fs_rmdir (fs : filesystem) (p : list string) : exn + filesystem :=
  match fs !! p with
  | None => inl FileNotFoundError
  | Some Dir =>
    match children fs p with
    | [] => inr (delete p fs)
    | _ => inl OSError
    end
  | Some _ => inl NotADirectoryError
  end.

(** [root_dir.glob('**/*')]: every path below [root_dir]. *)
Definition fs_glob (fs : filesystem) (root_dir : list string)
  : list (list string) :=
  filter (strictly_under root_dir) (elements (dom fs)).

(** ** The reconciler's world *)

Inductive message :=
| RemovingTree (p : PurePath)
| NewAlbumFolder (p : PurePath)
| NotALink (link_file : PurePath)     (* Could not update link: not a link *)
| SkipNotDownloaded (file_name : string)
| DuplicateLink (full_file_name : PurePath)
| RemovingStaleLink (p : PurePath)
| ErrorRemovingStaleLink (p : PurePath)
| RemovingEmptyDirectory (p : PurePath)
| ErrorRemovingEmptyDirectory (p : PurePath)
| CreatedOrUpdated (count removed_count : nat)
| CreatedNew (count : nat).

(** What the reconciler does to the outside, in the order it does it: the
    changes it made to the file system, its calls on the store and its
    log. *)
Inductive effect :=
| Rmtree (p : PurePath)
| Mkdir (p : PurePath)
| Unlink (p : PurePath) (was : node)
| Link (src dst : PurePath)
| SymlinkTo (target : string) (dst : PurePath)
| Utime (p : PurePath) (t : datetime)
| Rmdir (p : PurePath)
| GetAlbumFiles (album_invert download_again : bool)
| PutAlbumDownloaded (rid : string)
| Log (m : message).

Record World := {
  fs : filesystem;
  effects : list effect
}.

(** A computation either returns or raises, and leaves a world behind in
    both cases. *)
Inductive result (A : Type) :=
| Ok (a : A) (w : World)
| Raise (e : exn) (w : World).
Arguments Ok {A} a w.
Arguments Raise {A} e w.

Definition world_of {A} (r : result A) : World :=
  match r with Ok _ w => w | Raise _ w => w end.

Definition M (A : Type) : Type := World -> result A.

#[global] Instance M_ret : MRet M := fun A a w => Ok a w.
#[global] Instance M_bind : MBind M := fun A B f m w =>
  match m w with
  | Ok a w' => f a w'
  | Raise e w' => Raise e w'
  end.

Definition raise {A} (e : exn) : M A := fun w => Raise e w.

(** [try: body except ...: handler]; [handler e] is [None] when no
    clause catches [e]. *)
Definition try_except {A} (body : M A) (handler : exn -> option (M A)) : M A :=
  fun w =>
    match body w with
    | Ok a w' => Ok a w'
    | Raise e w' =>
      match handler e with
      | Some h => h w'
      | None => Raise e w'
      end
    end.

Definition tell (e : effect) : M unit :=
  fun w => Ok tt {| fs := fs w; effects := effects w ++ [e] |}.

Definition log (m : message) : M unit := tell (Log m).

(** A query of the file system. *)
Definition ask {A} (q : filesystem -> A) : M A := fun w => Ok (q (fs w)) w.

(** A change of the file system; a change that went through is recorded. *)
Definition change (op : filesystem -> exn + filesystem) (e : effect) : M unit :=
  fun w =>
    match op (fs w) with
    | inl err => Raise err w
    | inr fs' => Ok tt {| fs := fs'; effects := effects w ++ [e] |}
    end.

Definition path_exists (p : PurePath) : M bool :=
  ask (fun fs => fs_exists fs (parts p)).
Definition is_dir (p : PurePath) : M bool :=
  ask (fun fs => fs_is_dir fs (parts p)).
Definition is_symlink (p : PurePath) : M bool :=
  ask (fun fs => fs_is_symlink fs (parts p)).
Definition rmtree (p : PurePath) : M unit :=
  change (fun fs => fs_rmtree fs (parts p)) (Rmtree p).
Definition mkdir (p : PurePath) (parents exist_ok : bool) : M unit :=
  change (fun fs => fs_mkdir parents exist_ok fs (parts p)) (Mkdir p).
(** The effect of an [unlink] that went through tells what was removed. *)
Definition unlink (p : PurePath) : M unit :=
  fun w =>
    match fs w !! parts p with
    | Some was => change (fun fs => fs_unlink fs (parts p)) (Unlink p was) w
    | None => Raise FileNotFoundError w
    end.
Definition link (src dst : PurePath) : M unit :=
  change (fun fs => fs_link fs (parts src) (parts dst)) (Link src dst).
Definition symlink_to (dst : PurePath) (target : string) : M unit :=
  change (fun fs => fs_symlink fs target (parts dst)) (SymlinkTo target dst).
Definition os_symlink (target : string) (dst : PurePath) : M unit :=
  symlink_to dst target.
Definition rmdir (p : PurePath) : M unit :=
  change (fun fs => fs_rmdir fs (parts p)) (Rmdir p).
(** [os.utime(p, (t, t), follow_symlinks=False)] on an entry that exists. *)
Definition utime (p : PurePath) (t : datetime) : M unit := tell (Utime p t).

(** One tuple of [get_album_files]. *)
Module AlbumFile.
Record t := mk {
  path : string;
  file_name : string;
  album_name : string;
  start_date_str : string;
  end_date_str : string;
  rid : string;
  created : string;
  sharedAlbum : bool
}.
End AlbumFile.

(** The store as the reconciler sees it: the answer of [get_album_files]
    for each [album_invert] and [download_again]. *)
Record AlbumFiles := {
  album_files : bool -> bool -> list AlbumFile.t
}.

Definition get_album_files (db : AlbumFiles) (album_invert download_again : bool)
  : M (list AlbumFile.t) :=
  _ ← tell (GetAlbumFiles album_invert download_again);
  mret (album_files db album_invert download_again).

Definition put_album_downloaded (rid : string) : M unit :=
  tell (PutAlbumDownloaded rid).

(** ** [create_album_content_links] *)

(** A [for] loop whose body threads the loop variables [s]. *)
Fixpoint for_each {A S : Type} (body : S -> A -> M S) (l : list A) (s : S)
  : M S :=
  match l with
  | [] => mret s
  | x :: l' => s' ← body s x; for_each body l' s'
  end.

(** The variables of the loop over the album files. [valid_links] is the
    set of link paths seen so far; it stays empty when links are not
    preserved, where the source has [None]. *)
Record link_state := {
  count : nat;
  album_item : nat;
  current_rid : string;
  valid_links : gset string
}.

(** Whether the link has to be made; [create_link] of the source. *)
Definition create_link (self : GoogleAlbumsSync) (fs : filesystem)
    (full_file_name link_file : PurePath) (relative_filename : string)
  : bool :=
  if _preserve_album_links self && fs_exists fs (parts link_file) then
    if _use_hardlinks self then
      if fs_exists fs (parts link_file)
         && fs_exists fs (parts full_file_name)
         && bool_decide (st_ino fs (parts link_file)
                         = st_ino fs (parts full_file_name))
      then false else true
    else
      if fs_is_symlink fs (parts link_file)
         && bool_decide (fs_readlink fs (parts link_file)
                         = Some relative_filename)
      then false else true
  else true.

(** Lines 392 to 405: remove what is in the way, then make the link. *)
Definition replace_link (self : GoogleAlbumsSync)
    (full_file_name link_file : PurePath) (relative_filename : string)
  : M unit :=
  e ← path_exists link_file;
  _ ← (if e : bool then
         s ← is_symlink link_file;
         if (s : bool) || _use_hardlinks self then unlink link_file
         else log (NotALink link_file)
       else mret tt);
  if _use_hardlinks self then link full_file_name link_file
  else if _ntfs_override self then os_symlink relative_filename link_file
  else symlink_to link_file relative_filename.

(** Lines 371 to 407: the link is made when the media file is there and
    the link is not already right. *)
Definition make_link (self : GoogleAlbumsSync)
    (full_file_name link_file : PurePath)
    (relative_filename file_name : string) : M unit :=
  e ← path_exists full_file_name;
  if e : bool then
    c ← ask (fun fs => create_link self fs full_file_name link_file
                         relative_filename);
    if c : bool
    then replace_link self full_file_name link_file relative_filename
    else mret tt
  else log (SkipNotDownloaded file_name).

(** Lines 409 to 425: a link that exists is counted and gets the date of
    the media item. *)
Definition touch_link (checks : Checks) (link_file : PurePath)
    (created_date : datetime) (count : nat) : M nat :=
  e ← path_exists link_file;
  if e : bool then
    _ ← (if utime_supports_follow_symlinks checks
         then utime link_file created_date else mret tt);
    mret (S count)
  else mret count.

(** The [try] block of the loop body with its [except] clauses. *)
Definition link_album_file (utils : Utils) (checks : Checks)
    (self : GoogleAlbumsSync) (full_file_name link_folder link_file : PurePath)
    (relative_filename created file_name : string) (count : nat) : M nat :=
  try_except
    (d ← is_dir link_folder;
     _ ← (if negb d then
            _ ← log (NewAlbumFolder link_folder);
            mkdir link_folder true false
          else mret tt);
     let created_date := string_to_date utils created in
     _ ← make_link self full_file_name link_file relative_filename file_name;
     touch_link checks link_file created_date count)
    (fun e => if is_FileExistsError e
              then Some (_ ← log (DuplicateLink full_file_name); mret count)
              else None).

(** The names the loop body computes for one album file. *)
Record link_names := {
  full_file_name : PurePath;
  link_folder : PurePath;
  link_file : PurePath;
  relative_filename : string
}.

Definition names_of (checks : Checks) (utils : Utils)
    (self : GoogleAlbumsSync) (album_item : nat) (r : AlbumFile.t)
  : option link_names :=
  let end_date := string_to_date utils (AlbumFile.end_date_str r) in
  let start_date := string_to_date utils (AlbumFile.start_date_str r) in
  let path :=
    if Z.of_nat (String.length (str (_root_folder self // AlbumFile.path r)))
       >? max_path checks
    then slice_to (AlbumFile.path r)
           (max_path checks
            - Z.of_nat (String.length (str (_root_folder self))))
    else AlbumFile.path r in
  let file_name := slice_to (AlbumFile.file_name r) (max_filename checks) in
  let full_file_name := _root_folder self // path // file_name in
  link_folder ← album_folder_name checks self (AlbumFile.album_name r)
                  start_date end_date (AlbumFile.sharedAlbum r);
  let link_filename :=
    if _no_album_sorting self then file_name
    else zero_pad 4 (N.of_nat album_item) +:+ "_" +:+ file_name in
  let link_filename := slice_to link_filename (max_filename checks) in
  let link_file := link_folder // link_filename in
  Some {| full_file_name := full_file_name;
          link_folder := link_folder;
          link_file := link_file;
          relative_filename := relpath full_file_name link_folder |}.

(** The body of the loop over the album files. *)
Definition link_row (utils : Utils) (checks : Checks)
    (self : GoogleAlbumsSync) (st : link_state) (r : AlbumFile.t)
  : M link_state :=
  album_item ←
    (if String.eqb (current_rid st) (AlbumFile.rid r)
     then mret (S (album_item st))
     else _ ← put_album_downloaded (AlbumFile.rid r); mret 0%nat);
  match names_of checks utils self album_item r with
  | None => raise FormatError
  | Some n =>
    let valid_links :=
      if _preserve_album_links self
      then {[str (link_file n)]} ∪ valid_links st else valid_links st in
    count ← link_album_file utils checks self (full_file_name n)
              (link_folder n) (link_file n) (relative_filename n)
              (AlbumFile.created r)
              (slice_to (AlbumFile.file_name r) (max_filename checks))
              (count st);
    mret {| count := count;
            album_item := album_item;
            current_rid := AlbumFile.rid r;
            valid_links := valid_links |}
  end.

(** ** [_clean_up_stale_links] *)

Definition glob (root_dir : PurePath) : M (list PurePath) :=
  ask (fun fs => mk_path (anchored root_dir) <$> fs_glob fs (parts root_dir)).

(** The body of the first loop: a stale link goes. *)
Definition remove_stale (self : GoogleAlbumsSync) (valid_links : gset string)
    (removed_count : nat) (path : PurePath) : M nat :=
  d ← is_dir path;
  if d : bool then mret removed_count
  else if bool_decide (str path ∉ valid_links) then
    try_except
      (s ← is_symlink path;
       e ← path_exists path;
       if (s : bool) || (_use_hardlinks self && e) then
         _ ← log (RemovingStaleLink path);
         _ ← unlink path;
         mret (S removed_count)
       else mret removed_count)
      (fun e => if is_OSError e
                then Some (_ ← log (ErrorRemovingStaleLink path);
                           mret removed_count)
                else None)
  else mret removed_count.

(** The body of the second loop: an empty directory goes. *)
Definition remove_empty (_ : unit) (path : PurePath) : M unit :=
  d ← is_dir path;
  a ← ask (fun fs => any_iterdir fs (parts path));
  if (d : bool) && negb a then
    try_except
      (_ ← log (RemovingEmptyDirectory path); rmdir path)
      (fun e => if is_OSError e
                then Some (log (ErrorRemovingEmptyDirectory path))
                else None)
  else mret tt.

(** The order of [sorted(..., key=lambda p: len(str(p)), reverse=True)]:
    longer paths first. *)
Definition longer_first (a b : PurePath) : Prop :=
  (String.length (str b) ≤ String.length (str a))%nat.

#[global] Instance longer_first_dec a b : Decision (longer_first a b).
Proof. unfold longer_first. apply _. Defined.

Definition _clean_up_stale_links (self : GoogleAlbumsSync)
    (root_dir : PurePath) (valid_links : gset string) : M nat :=
  paths ← glob root_dir;
  removed_count ← for_each (remove_stale self valid_links) paths 0%nat;
  paths ← glob root_dir;
  _ ← for_each remove_empty (merge_sort longer_first paths) tt;
  mret removed_count.

(** Lines 432 to 440: the pruning that ends a run. *)
Definition prune (self : GoogleAlbumsSync) (valid_links : gset string)
  : M nat :=
  if _preserve_album_links self && negb (bool_decide (valid_links = ∅)) then
    e ← path_exists (_albums_root self);
    n1 ← (if e : bool
          then _clean_up_stale_links self (_albums_root self) valid_links
          else mret 0%nat);
    e ← path_exists (_shared_albums_root self);
    n2 ← (if e : bool
          then _clean_up_stale_links self (_shared_albums_root self) valid_links
          else mret 0%nat);
    mret (n1 + n2)%nat
  else mret 0%nat.

(** Lines 289 to 307: the roots are cleared unless links are preserved,
    made when they are missing, and then [re_download] is computed. *)
Definition prepare_roots (self : GoogleAlbumsSync) : M bool :=
  _ ← (if negb (_preserve_album_links self) then
         e ← path_exists (_albums_root self);
         _ ← (if e : bool then
                _ ← log (RemovingTree (_albums_root self));
                rmtree (_albums_root self)
              else mret tt);
         e ← path_exists (_shared_albums_root self);
         if e : bool then
           _ ← log (RemovingTree (_shared_albums_root self));
           rmtree (_shared_albums_root self)
         else mret tt
       else mret tt);
  e ← path_exists (_albums_root self);
  _ ← (if negb e then mkdir (_albums_root self) true true else mret tt);
  e ← path_exists (_shared_albums_root self);
  _ ← (if negb e then mkdir (_shared_albums_root self) true true else mret tt);
  e ← path_exists (_albums_root self);
  let re_download := negb e in
  mret re_download.

Definition create_album_content_links (utils : Utils) (checks : Checks)
    (self : GoogleAlbumsSync) (db : AlbumFiles) : M unit :=
  re_download ← prepare_roots self;
  rows ← get_album_files db (_album_invert self) re_download;
  st ← for_each (link_row utils checks self) rows
         {| count := 0; album_item := 0; current_rid := "";
            valid_links := ∅ |};
  removed_count ← prune self (valid_links st);
  if _preserve_album_links self
  then log (CreatedOrUpdated (count st) removed_count)
  else log (CreatedNew (count st)).

(** ** Abbreviations used by the statements *)

(** The media items the loop of [fetch_album_contents] goes through, in
    the order of the listing. *)
Fixpoint listed_media (responses : list media_response)
  : list GooglePhotosMedia.t :=
  match responses with
  | [] => []
  | response :: rest =>
    if negb (media_ok response) then []
    else
      let next := truthy_token (media_nextPageToken response) in
      match mediaItems response with
      | [] => if negb next then [] else listed_media rest
      | media_json => media_json ++ (if next then listed_media rest else [])
      end
  end.

(** The albums the loop of [index_albums_type] goes through. *)
Fixpoint listed_albums (responses : list album_response)
  : list GoogleAlbumMedia.t :=
  match responses with
  | [] => []
  | response :: rest =>
    if negb (album_ok response) then []
    else album_items response
         ++ (if truthy_token (album_nextPageToken response)
             then listed_albums rest else [])
  end.

(** An item is recorded unless it is a video and videos are left out. *)
Definition recorded (self : GoogleAlbumsSync) (m : GooglePhotosMedia.t) : bool :=
  negb (negb (include_video self) && GooglePhotosMedia.is_video m).

(** Python's [enumerate], counting from [start]. *)
Fixpoint enumerate {A} (start : Z) (l : list A) : list (Z * A) :=
  match l with
  | [] => []
  | x :: l' => (start, x) :: enumerate (start + 1) l'
  end.

(** The [put_album_file] calls of a trace. *)
Definition put_album_file_calls (tr : list event) : list (string * string * Z) :=
  omap (fun e => match e with
                 | PutAlbumFile a m p => Some (a, m, p)
                 | _ => None
                 end) tr.

(** The calls of [fetch_album_contents] in a trace. *)
Definition fetch_calls (tr : list event) : list (string * bool) :=
  omap (fun e => match e with
                 | FetchAlbumContents a b => Some (a, b)
                 | _ => None
                 end) tr.

(** What the indexer decided for each listed album, in order. *)
Definition decisions (tr : list event) : list event :=
  List.filter (fun e => match e with
                        | LogSkipping _ _ | LogIndexingAlbum _ => true
                        | _ => false
                        end) tr.

Definition passes_filters (self : GoogleAlbumsSync) (a : GoogleAlbumMedia.t)
  : Prop :=
  (album self = "" ∨ album self = GoogleAlbumMedia.orig_name a)
  ∧ (∀ re_search, album_regex self = Some re_search ->
       re_search (GoogleAlbumMedia.orig_name a) = true).

(** [d] is the least of [l]. *)
Definition is_minimum (d : datetime) (l : list datetime) : Prop :=
  d ∈ l ∧ Forall (fun x => dt_leb d x = true) l.

(** [d] is the greatest of [l]. *)
Definition is_maximum (d : datetime) (l : list datetime) : Prop :=
  d ∈ l ∧ Forall (fun x => dt_leb x d = true) l.

(** The creation dates [fetch_album_contents] sees for an album. *)
Definition observed_dates (self : GoogleAlbumsSync) (api : RestClient)
    (album_id : string) : list datetime :=
  GooglePhotosMedia.create_date
    <$> List.filter (recorded self) (listed_media (mediaItems_search api album_id)).

Definition in_range (utils : Utils) (d : datetime) : Prop :=
  dt_leb (MINIMUM_DATE utils) d = true ∧ dt_leb d (maximum_date utils) = true.

(** What one pass of [index_albums_type] may leave in the trace between
    its opening and closing lines, when it fetches with [add_media_items]
    equal to [add]. *)
Definition is_pass_event (add : bool) (e : event) : Prop :=
  match e with
  | FetchAlbumContents _ b => b = add
  | LogIndexing _ | LogIndexed _ _ => False
  | _ => True
  end.

(** The rule that decides the fate of a listed album, in the order of the
    [if] chain of [index_albums_type]. *)
Definition decision_for (self : GoogleAlbumsSync) (allow_null_title : bool)
    (a : GoogleAlbumMedia.t) (d : event) : Prop :=
  if negb (String.eqb (album self) "")
     && negb (String.eqb (album self) (GoogleAlbumMedia.orig_name a))
  then d = LogSkipping NoAlbumMatch (GoogleAlbumMedia.id a)
  else if match album_regex self with
          | Some re_search => negb (re_search (GoogleAlbumMedia.orig_name a))
          | None => false
          end
  then d = LogSkipping NoRegexMatch (GoogleAlbumMedia.id a)
  else if negb allow_null_title
          && String.eqb (GoogleAlbumMedia.description a) "none"
  then d = LogSkipping NoTitle (GoogleAlbumMedia.id a)
  else (d = LogSkipping AlreadyIndexed (GoogleAlbumMedia.id a)
        ∧ flush self = false)
       ∨ d = LogIndexingAlbum (GoogleAlbumMedia.id a).

(** Effects that remove nothing by [unlink] and query nothing. *)
Definition benign (e : effect) : Prop :=
  match e with
  | Unlink _ _ | GetAlbumFiles _ _ => False
  | _ => True
  end.

(** An [unlink] is in order when hardlinks are in use or when what it
    removed was a symbolic link. *)
Definition unlink_in_order (self : GoogleAlbumsSync) (e : effect) : Prop :=
  match e with
  | Unlink _ was => _use_hardlinks self = true ∨ ∃ target, was = Symlink target
  | _ => True
  end.

(** [get_album_files] is asked without [download_again]. *)
Definition query_in_order (e : effect) : Prop :=
  match e with
  | GetAlbumFiles _ download_again => download_again = false
  | _ => True
  end.

(** The link of an album file is already right: in hardlink mode the
    link path and the media file exist and share their inode, in symlink
    mode the link path holds a symbolic link to the relative path just
    computed. *)
Definition already_correct (self : GoogleAlbumsSync) (fs : filesystem)
    (n : link_names) : Prop :=
  if _use_hardlinks self then
    fs_exists fs (parts (link_file n)) = true
    ∧ fs_exists fs (parts (full_file_name n)) = true
    ∧ st_ino fs (parts (link_file n)) = st_ino fs (parts (full_file_name n))
  else fs !! parts (link_file n) = Some (Symlink (relative_filename n)).

(** Effects that neither remove nor make a link. *)
Definition keeps_links (e : effect) : Prop :=
  match e with
  | Unlink _ _ | Link _ _ | SymlinkTo _ _ | Rmtree _ | Rmdir _ => False
  | _ => True
  end.

(** The value of [album_item] for the next album file. *)
Definition next_album_item (st : link_state) (r : AlbumFile.t) : nat :=
  if String.eqb (current_rid st) (AlbumFile.rid r)
  then S (album_item st) else 0%nat.

(** The links of all the album files of [rows] are already right in
    [fs], when the loop reaches them with [rid] as current album and
    [item] as album item. *)
Fixpoint links_correct (checks : Checks) (utils : Utils)
    (self : GoogleAlbumsSync) (fs : filesystem) (rows : list AlbumFile.t)
    (rid : string) (item : nat) : Prop :=
  match rows with
  | [] => True
  | r :: rows' =>
    let item' := if String.eqb rid (AlbumFile.rid r) then S item else 0%nat in
    (∃ n, names_of checks utils self item' r = Some n
          ∧ already_correct self fs n)
    ∧ links_correct checks utils self fs rows' (AlbumFile.rid r) item'
  end.

(** The entries the first loop is there to remove: below the root, not
    recorded as valid, not a directory nor a link to one, and a symbolic
    link or, in hardlink mode, anything at all. *)
Definition stale (self : GoogleAlbumsSync) (valid_links : gset string)
    (root_dir : PurePath) (fs : filesystem) (k : list string) : Prop :=
  strictly_under (parts root_dir) k
  ∧ (str (mk_path (anchored root_dir) k) ∉ valid_links)
  ∧ fs_is_dir fs k = false
  ∧ (fs_is_symlink fs k = true
     ∨ (_use_hardlinks self = true ∧ is_Some (fs !! k))).

#[global] Instance stale_dec (self : GoogleAlbumsSync) (valid_links : gset string)
    (root_dir : PurePath) (fs : filesystem) (k : list string) :
  Decision (stale self valid_links root_dir fs k).
Proof. unfold stale, strictly_under. apply _. Defined.

(** ** Frames of the reconciler *)

(** From [w] to [w']: the effects only grow, by effects that satisfy [P],
    and what a path of [S] holds is still there. *)
Definition frames (P : effect -> Prop) (S : list string -> Prop)
    (w w' : World) : Prop :=
  (∃ l, effects w' = effects w ++ l ∧ Forall P l)
  ∧ (∀ p nd, S p -> fs w !! p = Some nd -> fs w' !! p = Some nd).

(** A computation respects the frame, whether it returns or raises. *)
Definition respects (P : effect -> Prop) (S : list string -> Prop)
    {A} (m : M A) : Prop :=
  ∀ w, frames P S w (world_of (m w)).

(** A change of the file system that leaves the paths of [S] alone. *)
Definition keeps (S : list string -> Prop)
    (op : filesystem -> exn + filesystem) : Prop :=
  ∀ fs fs', op fs = inr fs' ->
    ∀ p nd, S p -> fs !! p = Some nd -> fs' !! p = Some nd.

(** ** Pure readings of the pruning loops *)

(** Whether [stat] ended at a directory. *)
Definition reaches_dir (o : option (list string * node)) : bool :=
  match o with Some (_, Dir) => true | _ => false end.

(** What the body of the first loop of [_clean_up_stale_links] does to
    the file system. *)
Definition stale_step (self : GoogleAlbumsSync) (valid_links : gset string)
    (fs : filesystem) (path : PurePath) : filesystem :=
  if fs_is_dir fs (parts path) then fs
  else if bool_decide (str path ∉ valid_links) then
    if (fs_is_symlink fs (parts path)
        || (_use_hardlinks self && fs_exists fs (parts path)))%bool
    then delete (parts path) fs else fs
  else fs.

(** What the body of its second loop does to the file system. *)
Definition empty_step (fs : filesystem) (path : PurePath) : filesystem :=
  match fs !! parts path with
  | Some Dir =>
    match children fs (parts path) with
    | [] => delete (parts path) fs
    | _ => fs
    end
  | _ => fs
  end.

(** ** Relations used by the proofs *)

Definition is_fetch_event (e : event) : Prop :=
  match e with
  | LogEmptyPage | LogSkipVideo _ | PutAlbumFile _ _ _ | PutMediaRow _ => True
  | _ => False
  end.

(** The calls recorded for [items] when the first one has position
    [start]. *)
Definition calls_for (self : GoogleAlbumsSync) (album_id : string)
    (start : Z) (items : list GooglePhotosMedia.t) : list (string * string * Z) :=
  (fun im => (album_id, GooglePhotosMedia.id im.2, im.1))
    <$> List.filter (fun im => recorded self im.2) (enumerate start items).

Definition dates_of (self : GoogleAlbumsSync) (items : list GooglePhotosMedia.t)
  : list datetime :=
  GooglePhotosMedia.create_date <$> List.filter (recorded self) items.

(** How the loop variables move when the loop goes through [items]. *)
Definition fetched (self : GoogleAlbumsSync) (album_id : string)
    (items : list GooglePhotosMedia.t) (st st' : fetch_state) : Prop :=
  position st' = position st + Z.of_nat (length items)
  ∧ first_date st'
    = foldl (fun acc d => py_min d acc) (first_date st) (dates_of self items)
  ∧ last_date st'
    = foldl (fun acc d => py_max d acc) (last_date st) (dates_of self items)
  ∧ albums (fetch_db st') = albums (fetch_db st)
  ∧ ∃ l, trace (fetch_db st') = trace (fetch_db st) ++ l
         ∧ Forall is_fetch_event l
         ∧ put_album_file_calls l
           = calls_for self album_id (position st + 1) items.

(** How count and store move when the loop goes through [listing]. *)
Definition indexed (self : GoogleAlbumsSync) (allow_null_title add : bool)
    (listing : list GoogleAlbumMedia.t) (st st' : nat * LocalData) : Prop :=
  st'.1 = (st.1 + length listing)%nat
  ∧ ∃ l, trace st'.2 = trace st.2 ++ l
         ∧ Forall (is_pass_event add) l
         ∧ Forall2 (decision_for self allow_null_title) listing (decisions l).

(** ** Sample inputs *)

Definition date (y m d : Z) : datetime := mk_datetime y m d 0.

(** Dates are written [YYYY-MM-DD] in the samples. *)
Definition digits_to_Z (s : string) : Z :=
  fold_left (fun acc c => 10 * acc + (Z.of_nat (nat_of_ascii c) - 48))
    (String.list_ascii_of_string s) 0.

Definition sample_string_to_date (s : string) : datetime :=
  date (digits_to_Z (String.substring 0 4 s))
       (digits_to_Z (String.substring 5 2 s))
       (digits_to_Z (String.substring 8 2 s)).

Definition sample_utils : Utils :=
  {| maximum_date := mk_datetime 9999 12 31 86399999999;
     MINIMUM_DATE := date 1 1 1;
     string_to_date := sample_string_to_date |}.

(** Modelled from the spec: the sanitization of [valid_file_name], of
    which the spec says that it strips the exclamation mark. *)
Fixpoint strip_exclamation (s : string) : string :=
  match s with
  | EmptyString => EmptyString
  | String c rest =>
    if Ascii.eqb c "!"%char then strip_exclamation rest
    else String c (strip_exclamation rest)
  end.

Definition sample_checks : Checks :=
  {| max_path := 4096;
     max_filename := 255;
     valid_file_name := strip_exclamation;
     utime_supports_follow_symlinks := true |}.

(** The settings of the repository's tests, up to the switches the
    samples vary. *)
Definition sample_settings (favourites_only include_video hardlinks preserve : bool)
    (month_format : option string) : Settings :=
  {| photos_path := "photos";
     albums_path := "albums";
     shared_albums_path := "sharedAlbums";
     s_album := "";
     s_album_regex := None;
     s_shared_albums := true;
     s_album_index := true;
     s_use_start_date := false;
     favourites_only := favourites_only;
     s_include_video := include_video;
     use_flat_path := false;
     omit_album_date := false;
     album_invert := false;
     use_hardlinks := hardlinks;
     ntfs_override := false;
     s_month_format := month_format;
     s_path_format := None;
     no_album_sorting := false;
     preserve_album_links := preserve;
     s_progress := false |}.

Definition sample_root : PurePath := Path "/sync".

Definition sample_self (favourites_only include_video hardlinks preserve : bool)
    (month_format : option string) : GoogleAlbumsSync :=
  __init__ sample_root false
    (sample_settings favourites_only include_video hardlinks preserve
       month_format).

Definition empty_store : LocalData := {| albums := ∅; trace := [] |}.

Definition photo (id : string) (d : datetime) : GooglePhotosMedia.t :=
  GooglePhotosMedia.mk id (id +:+ ".jpg") d false.
Definition video (id : string) (d : datetime) : GooglePhotosMedia.t :=
  GooglePhotosMedia.mk id (id +:+ ".mp4") d true.

Definition one_page (items : list GooglePhotosMedia.t) : list media_response :=
  [{| media_ok := true; mediaItems := items; media_nextPageToken := None |}].

Definition album_page (items : list GoogleAlbumMedia.t) : list album_response :=
  [{| album_ok := true; album_items := items; album_nextPageToken := None |}].

(** An album whose listing is a video followed by a photo. *)
Definition video_then_photo : RestClient :=
  {| sharedAlbums_list := [];
     albums_list := [];
     mediaItems_search := fun _ =>
       one_page [video "v" (date 2020 1 1); photo "p" (date 2020 6 15)] |}.

(** An album with three photos, listed out of date order. *)
Definition three_photos : RestClient :=
  {| sharedAlbums_list := [];
     albums_list := [];
     mediaItems_search := fun _ =>
       one_page [photo "b" (date 2020 6 15); photo "c" (date 2020 12 31);
                 photo "a" (date 2020 1 1)] |}.

(** A listing of untitled albums, one shared and one owned. *)
Definition untitled (id : string) : GoogleAlbumMedia.t :=
  GoogleAlbumMedia.mk id "none" "none" 1 "none".

Definition untitled_albums : RestClient :=
  {| sharedAlbums_list := album_page [untitled "s"];
     albums_list := album_page [untitled "o"];
     mediaItems_search := fun _ => one_page [photo "p" (date 2020 6 15)] |}.

(** A listing with one titled shared album and no owned album. *)
Definition one_shared_album : RestClient :=
  {| sharedAlbums_list :=
       album_page [GoogleAlbumMedia.mk "s" "Trip" "Trip" 1 "Trip"];
     albums_list := [];
     mediaItems_search := fun _ => one_page [photo "p" (date 2020 6 15)] |}.

(** A store that holds album ["a"] with size 3, and a remote that lists
    album ["a"] with the given size. *)
Definition store_with_album : LocalData :=
  {| albums := {[ "a" := GoogleAlbumsRow.from_parm "a" "Trip" 3
                          (date 2020 1 1) (date 2020 12 31) (Some false) ]};
     trace := [] |}.

Definition trip_album (size : Z) : GoogleAlbumMedia.t :=
  GoogleAlbumMedia.mk "a" "Trip" "Trip" size "Trip".

(** The tree of the repository's tests before the first run: one photo
    has been downloaded, no album folder exists yet. *)
Definition photo_path : list string := ["sync"; "photos"; "2020"; "test_photo.jpg"].

Definition media_only : filesystem :=
  list_to_map [([], Dir); (["sync"], Dir); (["sync"; "photos"], Dir);
               (["sync"; "photos"; "2020"], Dir); (photo_path, File 7)].

(** The album file of the repository's tests. *)
Definition test_album_file : AlbumFile.t :=
  AlbumFile.mk "photos/2020" "test_photo.jpg" "Test Album"
    "2020-01-01" "2020-12-31" "album1" "2020-06-15" false.

Definition test_album_files : AlbumFiles :=
  {| album_files := fun _ _ => [test_album_file] |}.

Definition no_album_files : AlbumFiles :=
  {| album_files := fun _ _ => [] |}.

Definition start (fs : filesystem) : World := {| fs := fs; effects := [] |}.

(** The link the tests expect, and a stale link next to it. *)
Definition test_link : list string :=
  ["sync"; "albums"; "2020"; "12 Test Album"; "0000_test_photo.jpg"].
Definition stale_link : list string :=
  ["sync"; "albums"; "2020"; "12 Test Album"; "stale_link.jpg"].
Definition test_target : string := "../../../photos/2020/test_photo.jpg".

(** The tree after a first run in symlink mode. *)
Definition linked : filesystem :=
  <[test_link := Symlink test_target]>
    (<[["sync"; "albums"; "2020"; "12 Test Album"] := Dir]>
       (<[["sync"; "albums"; "2020"] := Dir]>
          (<[["sync"; "albums"] := Dir]>
             (<[["sync"; "sharedAlbums"] := Dir]> media_only)))).

(** The same object with the ordering prefix of the link names turned
    off. *)
Definition without_sorting (self : GoogleAlbumsSync) : GoogleAlbumsSync :=
  {| _photos_folder := _photos_folder self;
     _albums_folder := _albums_folder self;
     _shared_albums_folder := _shared_albums_folder self;
     _root_folder := _root_folder self;
     _albums_root := _albums_root self;
     _shared_albums_root := _shared_albums_root self;
     _photos_root := _photos_root self;
     flush := flush self;
     album := album self;
     album_regex := album_regex self;
     shared_albums := shared_albums self;
     album_index := album_index self;
     use_start_date := use_start_date self;
     favourites := favourites self;
     include_video := include_video self;
     _use_flat_path := _use_flat_path self;
     _omit_album_date := _omit_album_date self;
     _album_invert := _album_invert self;
     _use_hardlinks := _use_hardlinks self;
     _ntfs_override := _ntfs_override self;
     month_format := month_format self;
     path_format := path_format self;
     _no_album_sorting := true;
     _preserve_album_links := _preserve_album_links self;
     progress := progress self |}.

(** The loop variables before the first album file. *)
Definition first_link_state : link_state :=
  {| count := 0; album_item := 0; current_rid := ""; valid_links := ∅ |}.

(** The names the loop body computes for the album file of the tests. *)
Definition test_names : link_names :=
  {| full_file_name := mk_path true photo_path;
     link_folder := mk_path true ["sync"; "albums"; "2020"; "12 Test Album"];
     link_file := mk_path true test_link;
     relative_filename := test_target |}.

(** The tree after a first run, with a stale link to the photo and a
    stale link to the folder of the photos next to the good link. *)
Definition stale_dir_link : list string :=
  ["sync"; "albums"; "2020"; "12 Test Album"; "photos_2020"].

Definition linked_with_stale : filesystem :=
  <[stale_dir_link := Symlink "../../../photos/2020"]>
    (<[stale_link := Symlink test_target]> linked).

(** ** Further readings of the indexer's trace *)

(** The media rows written through [put_row], by media identifier. *)
Definition put_media_row_calls (tr : list event) : list string :=
  omap (fun e => match e with
                 | PutMediaRow m => Some m
                 | _ => None
                 end) tr.

(** The album rows written through [put_row]. *)
Definition put_album_row_calls (tr : list event) : list GoogleAlbumsRow.t :=
  omap (fun e => match e with
                 | PutAlbumRow row _ => Some row
                 | _ => None
                 end) tr.

(** Whether the first three branches of the [if] chain of
    [index_albums_type] let an album through: the name filter, the regex
    filter and the title rule. *)
Definition wanted (self : GoogleAlbumsSync) (allow_null_title : bool)
    (a : GoogleAlbumMedia.t) : bool :=
  negb (negb (String.eqb (album self) "")
        && negb (String.eqb (album self) (GoogleAlbumMedia.orig_name a)))
  && negb (match album_regex self with
           | Some re_search => negb (re_search (GoogleAlbumMedia.orig_name a))
           | None => false
           end)
  && negb (negb allow_null_title
           && String.eqb (GoogleAlbumMedia.description a) "none").

(** The row [index_albums_type] writes for an album it indexes: the
    listed identifier, name and size, and the date range of the items
    [fetch_album_contents] records for it. *)
Definition album_row (utils : Utils) (self : GoogleAlbumsSync)
    (api : RestClient) (item_key : string) (a : GoogleAlbumMedia.t)
  : GoogleAlbumsRow.t :=
  GoogleAlbumsRow.from_parm
    (GoogleAlbumMedia.id a) (GoogleAlbumMedia.filename a)
    (GoogleAlbumMedia.size a)
    (foldl (fun acc d => py_min d acc) (maximum_date utils)
       (observed_dates self api (GoogleAlbumMedia.id a)))
    (foldl (fun acc d => py_max d acc) (MINIMUM_DATE utils)
       (observed_dates self api (GoogleAlbumMedia.id a)))
    (shared_of_key item_key).

(** The store holds a row for the album with the listed size. *)
Definition settled (a : GoogleAlbumMedia.t)
    (m : gmap string GoogleAlbumsRow.t) : Prop :=
  ∃ row, m !! GoogleAlbumMedia.id a = Some row
         ∧ GoogleAlbumsRow.Size row = GoogleAlbumMedia.size a.

(** How count, store and trace move when the loop of [index_albums_type]
    goes through [listing]: the albums it fetches are [chosen]. *)
Definition accounted (utils : Utils) (self : GoogleAlbumsSync)
    (api : RestClient) (item_key : string) (allow_null_title add : bool)
    (listing chosen : list GoogleAlbumMedia.t) (st st' : nat * LocalData)
  : Prop :=
  st'.1 = (st.1 + length listing)%nat
  ∧ chosen `sublist_of` List.filter (wanted self allow_null_title) listing
  ∧ (flush self = true ->
     chosen = List.filter (wanted self allow_null_title) listing)
  ∧ ∃ l, trace st'.2 = trace st.2 ++ l
         ∧ fetch_calls l
           = (fun a => (GoogleAlbumMedia.id a, add)) <$> chosen
         ∧ put_album_row_calls l
           = album_row utils self api item_key <$> chosen.

(** What a pass that fetches nothing leaves in the trace between its
    opening and closing lines. *)
Definition is_skip_event (e : event) : Prop :=
  match e with
  | LogSkipping _ _ | LogListed _ _ => True
  | _ => False
  end.

(** What a run of the indexer that fetches nothing leaves in the trace. *)
Definition is_log_event (e : event) : Prop :=
  match e with
  | LogIndexing _ | LogIndexed _ _ | LogSkipping _ _ | LogListed _ _ => True
  | _ => False
  end.

(** ** Further readings of the reconciler's effects *)

(** The making of a directory. *)
Definition is_mkdir (e : effect) : Prop :=
  match e with Mkdir _ => True | _ => False end.

(** What the [try] block of the loop body may do. *)
Definition is_link_effect (e : effect) : Prop :=
  match e with
  | PutAlbumDownloaded _ | GetAlbumFiles _ _ | Rmtree _ | Rmdir _ => False
  | _ => True
  end.

(** The calls of [put_album_downloaded] among the effects. *)
Definition downloaded_calls (l : list effect) : list string :=
  omap (fun e => match e with
                 | PutAlbumDownloaded rid => Some rid
                 | _ => None
                 end) l.

(** The paths removed by [unlink], in order. *)
Definition unlink_calls (l : list effect) : list PurePath :=
  omap (fun e => match e with
                 | Unlink p _ => Some p
                 | _ => None
                 end) l.

(** The albums that begin in [rows]: the identifiers of the rows whose
    album is not that of the row before, [rid] being the album before the
    first row. *)
Fixpoint album_starts (rid : string) (rows : list AlbumFile.t) : list string :=
  match rows with
  | [] => []
  | r :: rows' =>
    (if String.eqb rid (AlbumFile.rid r) then [] else [AlbumFile.rid r])
    ++ album_starts (AlbumFile.rid r) rows'
  end.

(** The link paths of [rows], as strings, when the loop reaches them with
    [rid] as current album and [item] as album item. *)
Fixpoint row_links (checks : Checks) (utils : Utils) (self : GoogleAlbumsSync)
    (rid : string) (item : nat) (rows : list AlbumFile.t) : list string :=
  match rows with
  | [] => []
  | r :: rows' =>
    let item' := if String.eqb rid (AlbumFile.rid r) then S item else 0%nat in
    match names_of checks utils self item' r with
    | Some n =>
      str (link_file n)
      :: row_links checks utils self (AlbumFile.rid r) item' rows'
    | None => []
    end
  end.

(** Every regular file of [fs] is still in [fs'], at the same path and
    with the same inode. *)
Definition files_kept (fs fs' : filesystem) : Prop :=
  ∀ k i, fs !! k = Some (File i) -> fs' !! k = Some (File i).

(** A computation that removes no regular file, whether it returns or
    raises. *)
Definition keeps_files {A : Type} (m : M A) : Prop :=
  ∀ w, files_kept (fs w) (fs (world_of (m w))).

(** ** Plain path components *)

Fixpoint has_slash (s : string) : bool :=
  match s with
  | EmptyString => false
  | String c rest => Ascii.eqb c "/"%char || has_slash rest
  end.

(** A component that names an entry: it is not empty, holds no slash and
    is neither ["."] nor [".."]. *)
Definition plain (x : string) : bool :=
  negb (has_slash x) && negb (String.eqb x "") && negb (String.eqb x ".")
  && negb (String.eqb x "..").

(** A path all of whose components are plain. *)
Definition plain_parts (l : list string) : bool := forallb plain l.

(** ** Further sample inputs *)

(** An empty page that carries a next-page token. *)
Definition gap_page : media_response :=
  {| media_ok := true; mediaItems := [];
     media_nextPageToken := Some "more" |}.

(** A page with one photo and a next-page token. *)
Definition photo_page (id : string) (d : datetime) : media_response :=
  {| media_ok := true; mediaItems := [photo id d];
     media_nextPageToken := Some "more" |}.

(** A remote whose albums all have the given pages of media. *)
Definition with_pages (pages : list media_response) : RestClient :=
  {| sharedAlbums_list := [];
     albums_list := [];
     mediaItems_search := fun _ => pages |}.

(** A listing of two owned albums. *)
Definition two_albums : RestClient :=
  {| sharedAlbums_list := [];
     albums_list :=
       album_page [GoogleAlbumMedia.mk "a" "Trip" "Trip" 1 "Trip";
                   GoogleAlbumMedia.mk "b" "Home" "Home" 1 "Home"];
     mediaItems_search := fun _ => one_page [photo "p" (date 2020 6 15)] |}.

(** The object of the samples when a flush of the index is asked for. *)
Definition flushing_self : GoogleAlbumsSync :=
  __init__ sample_root true (sample_settings false true false false None).

(** The object of the samples when the album trees are rebuilt on every
    run. *)
Definition rebuilding_self : GoogleAlbumsSync :=
  sample_self false true false false (Some "%m").

(** The object of the samples when the links are preserved between
    runs. *)
Definition preserving_self : GoogleAlbumsSync :=
  sample_self false true false true (Some "%m").

(** The tree of the tests when the link of the album file dangles: it
    points to a photo that is not there. *)
Definition dangling : filesystem :=
  <[test_link := Symlink "../../../photos/2019/gone.jpg"]> linked.

(** The tree of the tests when a regular file sits where the folder of the
    albums should be. *)
Definition blocked : filesystem := <[["sync"; "albums"] := File 1]> media_only.

(** Two album files of one album followed by one of another album. *)
Definition three_album_files : list AlbumFile.t :=
  [test_album_file;
   AlbumFile.mk "photos/2020" "other.jpg" "Test Album"
     "2020-01-01" "2020-12-31" "album1" "2020-07-01" false;
   AlbumFile.mk "photos/2020" "test_photo.jpg" "Home"
     "2020-01-01" "2020-12-31" "album2" "2020-06-15" false].

(** The loop over these album files, from the tree of the tests before
    the first run, and the loop variables it ends with. *)
Definition three_links_run : result link_state :=
  for_each (link_row sample_utils sample_checks preserving_self)
    three_album_files first_link_state (start media_only).

Definition three_links_state : link_state :=
  match three_links_run with
  | Ok st _ => st
  | Raise _ _ => first_link_state
  end.

(** ** Readings used by the statements on whole runs *)

(** Effects that are not a query of the album files. *)
Definition no_query (e : effect) : Prop :=
  match e with
  | GetAlbumFiles _ _ => False
  | _ => True
  end.

(** What lines 435 to 440 do with one root, from [w] to [w']: when the
    root exists, [_clean_up_stale_links] is called on it and returns; the
    call only removes entries, every stale entry below the root is gone
    and no directory below the root is left empty. When the root does not
    exist nothing happens. *)
Definition pruned (self : GoogleAlbumsSync) (valid_links : gset string)
    (root_dir : PurePath) (w w' : World) : Prop :=
  if fs_exists (fs w) (parts root_dir) then
    (∃ removed_count,
       _clean_up_stale_links self root_dir valid_links w
       = Ok removed_count w')
    ∧ fs w' ⊆ fs w
    ∧ (∀ k, stale self valid_links root_dir (fs w) k -> fs w' !! k = None)
    ∧ (∀ k, strictly_under (parts root_dir) k ->
            fs w' !! k = Some Dir ->
            ∃ c, is_child k c ∧ is_Some (fs w' !! c))
  else w' = w.

(** Every entry of [fs] that is not a symbolic link, regular file or
    directory, is still in [fs'], at the same path. *)
Definition non_links_kept (fs fs' : filesystem) : Prop :=
  ∀ k nd, fs !! k = Some nd -> (∀ target, nd ≠ Symlink target) ->
          fs' !! k = Some nd.

(** A computation that removes nothing but symbolic links, whether it
    returns or raises. *)
Definition keeps_non_links {A : Type} (m : M A) : Prop :=
  ∀ w, non_links_kept (fs w) (fs (world_of (m w))).

(** Whether the entry [nd] at [k] is a symbolic link that leads to a
    directory. *)
Definition leads_to_dir (fs : filesystem) (k : list string) (nd : node)
  : bool :=
  match nd with
  | Symlink _ => fs_is_dir fs k
  | _ => false
  end.

(** A tree in which no symbolic link leads to a directory: every
    directory on the way to an entry is a real directory, so that the
    entry a path names is the entry the path is written with. *)
Definition physical (fs : filesystem) : Prop :=
  map_Forall (fun k nd => leads_to_dir fs k nd = false) fs.

#[global] Instance physical_dec (fs : filesystem) : Decision (physical fs).
Proof. unfold physical. apply _. Defined.

(** The object of the samples when the folder of the albums is the root
    folder itself, [albums_path] being ["."]; the album tree is rebuilt on
    every run. *)
Definition albums_at_root_self : GoogleAlbumsSync :=
  __init__ sample_root false
    {| photos_path := "photos";
       albums_path := ".";
       shared_albums_path := "sharedAlbums";
       s_album := "";
       s_album_regex := None;
       s_shared_albums := true;
       s_album_index := true;
       s_use_start_date := false;
       favourites_only := false;
       s_include_video := true;
       use_flat_path := false;
       omit_album_date := false;
       album_invert := false;
       use_hardlinks := false;
       ntfs_override := false;
       s_month_format := Some "%m";
       s_path_format := None;
       no_album_sorting := false;
       preserve_album_links := false;
       s_progress := false |}.

(** The tree after a first run, with an empty directory where the link of
    the album file should be. *)
Definition in_the_way : filesystem := <[test_link := Dir]> linked.

(** The names the loop over the album files computes, one for each row,
    when it reaches [rows] with [rid] as current album and [item] as
    album item; the loop stops at a row whose names cannot be computed. *)
Fixpoint row_names (checks : Checks) (utils : Utils) (self : GoogleAlbumsSync)
    (rid : string) (item : nat) (rows : list AlbumFile.t) : list link_names :=
  match rows with
  | [] => []
  | r :: rows' =>
    let item' := if String.eqb rid (AlbumFile.rid r) then S item else 0%nat in
    match names_of checks utils self item' r with
    | Some n =>
      n :: row_names checks utils self (AlbumFile.rid r) item' rows'
    | None => []
    end
  end.

(** An effect that leaves the link at [p] alone: it neither removes nor
    makes an entry at the path of [p], and it is not the removal of a
    tree. *)
Definition spares (p : PurePath) (e : effect) : Prop :=
  match e with
  | Unlink q _ | Link _ q | SymlinkTo _ q => parts q ≠ parts p
  | Rmtree _ => False
  | _ => True
  end.

(** Two album files of two albums with the same title and dates, whose
    media files have the same name in different folders: the loop computes
    the same link path for both. *)
Definition colliding_album_files : AlbumFiles :=
  {| album_files := fun _ _ =>
       [test_album_file;
        AlbumFile.mk "photos/2019" "test_photo.jpg" "Test Album"
          "2020-01-01" "2020-12-31" "album2" "2019-06-15" false] |}.

(** The tree after a first run, with the second photo downloaded. *)
Definition linked_two_photos : filesystem :=
  <[["sync"; "photos"; "2019"; "test_photo.jpg"] := File 8]>
    (<[["sync"; "photos"; "2019"] := Dir]> linked).

(** The album files of three links, as the store answers them. *)
Definition three_album_files_db : AlbumFiles :=
  {| album_files := fun _ _ => three_album_files |}.

(** Every directory on the way to [l], and [l] itself, is a real
    directory of [fs], not a symbolic link to one: a path through [l]
    names the entry the kernel finds. *)
Definition real_dirs (fs : filesystem) (l : list string) : Prop :=
  Forall (fun i => fs !! take i l = Some Dir) (seq 0 (S (length l))).

#[global] Instance real_dirs_dec (fs : filesystem) (l : list string) :
  Decision (real_dirs fs l).
Proof. unfold real_dirs. apply _. Defined.

(** * Properties *)

(** ** The order of dates *)

Lemma dt_ltb_spec a b :
  dt_ltb a b = true <->
  dt_year a < dt_year b
  ∨ (dt_year a = dt_year b
     ∧ (dt_month a < dt_month b
        ∨ (dt_month a = dt_month b
           ∧ (dt_day a < dt_day b
              ∨ (dt_day a = dt_day b ∧ dt_time a < dt_time b))))).
Proof.
  unfold dt_ltb.
  repeat match goal with
         | |- context [?x <? ?y] => destruct (Z.ltb_spec x y)
         end; split; intros; try congruence; lia.
Qed.

Lemma dt_leb_spec a b :
  dt_leb a b = true <-> ¬ (dt_ltb b a = true).
Proof. unfold dt_leb. destruct (dt_ltb b a); simpl; split; congruence. Qed.

Lemma dt_leb_refl a : dt_leb a a = true.
Proof. rewrite dt_leb_spec, dt_ltb_spec. lia. Qed.

Lemma dt_leb_trans a b c :
  dt_leb a b = true -> dt_leb b c = true -> dt_leb a c = true.
Proof. rewrite !dt_leb_spec, !dt_ltb_spec. lia. Qed.

Lemma dt_leb_total a b : dt_leb a b = true ∨ dt_leb b a = true.
Proof. rewrite !dt_leb_spec, !dt_ltb_spec. lia. Qed.

Lemma dt_leb_antisym a b :
  dt_leb a b = true -> dt_leb b a = true -> a = b.
Proof.
  rewrite !dt_leb_spec, !dt_ltb_spec. intros Hab Hba.
  destruct a, b; simpl in *. f_equal; lia.
Qed.

Lemma dt_ltb_leb a b : dt_ltb a b = true -> dt_leb a b = true.
Proof. rewrite dt_leb_spec, !dt_ltb_spec. lia. Qed.

Lemma py_min_cases a b :
  (py_min a b = a ∧ dt_leb a b = true) ∨ (py_min a b = b ∧ dt_leb b a = true).
Proof.
  unfold py_min. destruct (dt_ltb b a) eqn:E.
  - right. split; [done | by apply dt_ltb_leb].
  - left. split; [done |]. unfold dt_leb. by rewrite E.
Qed.

Lemma py_max_cases a b :
  (py_max a b = a ∧ dt_leb b a = true) ∨ (py_max a b = b ∧ dt_leb a b = true).
Proof.
  unfold py_max. destruct (dt_ltb a b) eqn:E.
  - right. split; [done | by apply dt_ltb_leb].
  - left. split; [done |]. unfold dt_leb. by rewrite E.
Qed.

(** The running minimum is below its start and below everything seen,
    and it is the start or one of the dates seen. *)
Lemma running_min_spec l init :
  let r := foldl (fun acc d => py_min d acc) init l in
  dt_leb r init = true ∧ Forall (fun d => dt_leb r d = true) l
  ∧ (r = init ∨ r ∈ l).
Proof.
  revert init. induction l as [|d l IH]; intros init; simpl.
  - split; [apply dt_leb_refl |]. split; [constructor | by left].
  - destruct (IH (py_min d init)) as (Hle & Hall & Hin).
    destruct (py_min_cases d init) as [[E Hd]|[E Hd]]; rewrite E in *.
    + split; [eauto using dt_leb_trans |].
      split; [by constructor |].
      destruct Hin as [->|Hin]; right; [left | by right].
    + split; [done |].
      split; [constructor; eauto using dt_leb_trans |].
      destruct Hin as [->|Hin]; [by left | right; by right].
Qed.

Lemma running_max_spec l init :
  let r := foldl (fun acc d => py_max d acc) init l in
  dt_leb init r = true ∧ Forall (fun d => dt_leb d r = true) l
  ∧ (r = init ∨ r ∈ l).
Proof.
  revert init. induction l as [|d l IH]; intros init; simpl.
  - split; [apply dt_leb_refl |]. split; [constructor | by left].
  - destruct (IH (py_max d init)) as (Hle & Hall & Hin).
    destruct (py_max_cases d init) as [[E Hd]|[E Hd]]; rewrite E in *.
    + split; [eauto using dt_leb_trans |].
      split; [by constructor |].
      destruct Hin as [->|Hin]; right; [left | by right].
    + split; [done |].
      split; [constructor; eauto using dt_leb_trans |].
      destruct Hin as [->|Hin]; [by left | right; by right].
Qed.

Lemma is_minimum_unique d d' l l' :
  l ≡ₚ l' -> is_minimum d l -> is_minimum d' l' -> d = d'.
Proof.
  intros Hp [Hd Hall] [Hd' Hall'].
  rewrite Forall_forall in Hall, Hall'.
  apply dt_leb_antisym.
  - apply Hall. by rewrite Hp.
  - apply Hall'. by rewrite <- Hp.
Qed.

Lemma is_maximum_unique d d' l l' :
  l ≡ₚ l' -> is_maximum d l -> is_maximum d' l' -> d = d'.
Proof.
  intros Hp [Hd Hall] [Hd' Hall'].
  rewrite Forall_forall in Hall, Hall'.
  apply dt_leb_antisym.
  - apply Hall'. by rewrite <- Hp.
  - apply Hall. by rewrite Hp.
Qed.

(** ** What [fetch_album_contents] leaves in the store *)

Lemma enumerate_app {A} (l1 l2 : list A) start :
  enumerate start (l1 ++ l2)
  = enumerate start l1 ++ enumerate (start + Z.of_nat (length l1)) l2.
Proof.
  revert start. induction l1 as [|x l1 IH]; intros start; simpl.
  - f_equal. lia.
  - rewrite IH. do 3 f_equal. lia.
Qed.

Lemma calls_for_app self album_id start l1 l2 :
  calls_for self album_id start (l1 ++ l2)
  = calls_for self album_id start l1
    ++ calls_for self album_id (start + Z.of_nat (length l1)) l2.
Proof.
  unfold calls_for. by rewrite enumerate_app, List.filter_app, fmap_app.
Qed.

Lemma dates_of_app self l1 l2 :
  dates_of self (l1 ++ l2) = dates_of self l1 ++ dates_of self l2.
Proof. unfold dates_of. by rewrite List.filter_app, fmap_app. Qed.

Lemma put_album_file_calls_app l1 l2 :
  put_album_file_calls (l1 ++ l2)
  = put_album_file_calls l1 ++ put_album_file_calls l2.
Proof. apply omap_app. Qed.

Lemma fetched_nil self album_id st : fetched self album_id [] st st.
Proof.
  repeat split; simpl; try done; try lia.
  exists []. by rewrite app_nil_r.
Qed.

Lemma fetched_app self album_id l1 l2 st st1 st2 :
  fetched self album_id l1 st st1 ->
  fetched self album_id l2 st1 st2 ->
  fetched self album_id (l1 ++ l2) st st2.
Proof.
  intros (Hp1 & Hf1 & Hl1 & Ha1 & e1 & Ht1 & He1 & Hc1)
         (Hp2 & Hf2 & Hl2 & Ha2 & e2 & Ht2 & He2 & Hc2).
  repeat split.
  - rewrite Hp2, Hp1, length_app. lia.
  - by rewrite dates_of_app, foldl_app, <- Hf1.
  - by rewrite dates_of_app, foldl_app, <- Hl1.
  - congruence.
  - exists (e1 ++ e2). split; [| split].
    + by rewrite Ht2, Ht1, app_assoc.
    + by apply Forall_app.
    + rewrite put_album_file_calls_app, calls_for_app, Hc1, Hc2.
      do 2 f_equal. rewrite Hp1. lia.
Qed.

Lemma fetched_item self album_id add st m :
  fetched self album_id [m] st (fetch_item self album_id add st m).
Proof.
  unfold fetched, fetch_item, dates_of, calls_for, recorded. simpl.
  destruct (negb (include_video self) && GooglePhotosMedia.is_video m);
    simpl; (split; [lia |]); repeat (split; [done |]).
  - exists [LogSkipVideo (GooglePhotosMedia.id m)].
    split; [done |]. split; [by repeat constructor | done].
  - destruct add; simpl; (split; [done |]).
    + eexists [_; _]. rewrite <- app_assoc. split; [done |].
      split; [by repeat constructor | done].
    + eexists [_]. split; [done |]. split; [by repeat constructor | done].
Qed.

Lemma fetched_items self album_id add items st :
  fetched self album_id items st
    (foldl (fetch_item self album_id add) st items).
Proof.
  revert st. induction items as [|m items IH]; intros st; simpl.
  - apply fetched_nil.
  - change (m :: items) with ([m] ++ items).
    eapply fetched_app; [apply fetched_item | apply IH].
Qed.

Lemma fetched_empty_page self album_id st :
  fetched self album_id [] st
    {| position := position st; first_date := first_date st;
       last_date := last_date st;
       fetch_db := emit LogEmptyPage (fetch_db st) |}.
Proof.
  repeat split; simpl; try done; try lia.
  exists [LogEmptyPage]. split; [done |]. split; [by repeat constructor | done].
Qed.

Lemma fetched_pages self album_id add responses st :
  fetched self album_id (listed_media responses) st
    (fetch_pages self album_id add responses st).
Proof.
  revert st. induction responses as [|r rest IH]; intros st; simpl.
  - apply fetched_nil.
  - destruct (media_ok r); simpl; [| apply fetched_nil].
    destruct (mediaItems r) as [|m items] eqn:Hitems.
    + destruct (truthy_token (media_nextPageToken r)); simpl.
      * change (listed_media rest) with ([] ++ listed_media rest).
        eapply fetched_app; [apply fetched_empty_page | apply IH].
      * apply fetched_nil.
    + destruct (truthy_token (media_nextPageToken r)).
      * apply (fetched_app _ _ (m :: items) (listed_media rest) _
                 (foldl (fetch_item self album_id add) st (m :: items)));
          [apply fetched_items | apply IH].
      * rewrite app_nil_r. apply (fetched_items _ _ _ (m :: items)).
Qed.

Lemma fetch_album_contents_spec utils self api album_id add db :
  let r := fetch_album_contents utils self api album_id add db in
  r.1.1 = foldl (fun acc d => py_min d acc) (maximum_date utils)
            (observed_dates self api album_id)
  ∧ r.1.2 = foldl (fun acc d => py_max d acc) (MINIMUM_DATE utils)
              (observed_dates self api album_id)
  ∧ albums r.2 = albums db
  ∧ ∃ l, trace r.2 = trace db ++ FetchAlbumContents album_id add :: l
         ∧ Forall is_fetch_event l
         ∧ put_album_file_calls l
           = calls_for self album_id 0
               (listed_media (mediaItems_search api album_id)).
Proof.
  unfold fetch_album_contents. simpl.
  match goal with
  | |- context [fetch_pages ?s ?a ?b ?rs ?st] =>
    destruct (fetched_pages s a b rs st) as (_ & Hf & Hl & Ha & l & Ht & He & Hc)
  end.
  simpl in *. repeat split; try done.
  exists l. by rewrite Ht, <- app_assoc.
Qed.

Lemma enumerate_positions self start items :
  let ps := (List.filter (fun im : Z * GooglePhotosMedia.t => recorded self im.2)
               (enumerate start items)).*1 in
  StronglySorted Z.lt ps ∧ Forall (fun p => start <= p) ps.
Proof.
  revert start. induction items as [|m items IH]; intros start; simpl.
  - split; constructor.
  - destruct (IH (start + 1)) as [Hs Hb].
    assert (Forall (fun p => start < p)
              (List.filter (fun im : Z * GooglePhotosMedia.t => recorded self im.2)
                 (enumerate (start + 1) items)).*1) as Hlt.
    { eapply Forall_impl; [exact Hb |]. simpl. intros. lia. }
    destruct (recorded self m); simpl.
    + split; [by constructor |].
      constructor; [lia |]. eapply Forall_impl; [exact Hlt |]. simpl. intros. lia.
    + split; [done |]. eapply Forall_impl; [exact Hlt |]. simpl. intros. lia.
Qed.

(** ** C2: the positions recorded for an album *)

(** C2, as the code has it: [fetch_album_contents] records every item
    that is not skipped with its 0-based index in the whole listing of the
    album, skipped videos included. The recorded positions are strictly
    increasing, and a skipped video does consume a position. *)
Theorem fetch_album_contents_positions utils self api album_id add db :
  let listing := listed_media (mediaItems_search api album_id) in
  let calls :=
    (fun im : Z * GooglePhotosMedia.t =>
       (album_id, GooglePhotosMedia.id im.2, im.1))
      <$> List.filter (fun im => recorded self im.2) (enumerate 0 listing) in
  put_album_file_calls
    (trace (fetch_album_contents utils self api album_id add db).2)
  = put_album_file_calls (trace db) ++ calls
  ∧ StronglySorted Z.lt (calls.*2).
Proof.
  intros listing calls.
  destruct (fetch_album_contents_spec utils self api album_id add db)
    as (_ & _ & _ & l & Ht & _ & Hc).
  split.
  - rewrite Ht, put_album_file_calls_app. simpl. by rewrite Hc.
  - subst calls. rewrite <- list_fmap_compose.
    destruct (enumerate_positions self 0 listing) as [Hs _].
    exact Hs.
Qed.

(** C2 as stated fails: with videos left out, a photo listed after a
    video is recorded at position 1, not at position 0. *)
Lemma skipped_video_consumes_position :
  let calls :=
    put_album_file_calls
      (trace (fetch_album_contents sample_utils
                (sample_self false false false false None)
                video_then_photo "album" false empty_store).2) in
  calls = [("album", "p", 1)]
  ∧ calls.*2 ≠ seqZ 0 (Z.of_nat (length calls)).
Proof. vm_compute. split; [reflexivity | discriminate]. Qed.

(** ** C8: the date range of an album *)

Lemma date_range_nonempty utils dates :
  Forall (in_range utils) dates -> dates ≠ [] ->
  is_minimum (foldl (fun acc d => py_min d acc) (maximum_date utils) dates) dates
  ∧ is_maximum (foldl (fun acc d => py_max d acc) (MINIMUM_DATE utils) dates) dates.
Proof.
  intros Hr Hne.
  destruct dates as [|d0 dates']; [done |]. set (dates := d0 :: dates') in *.
  assert (d0 ∈ dates) as Hd0 by (subst dates; left).
  rewrite Forall_forall in Hr.
  destruct (running_min_spec dates (maximum_date utils)) as (Hle & Hall & Hin).
  destruct (running_max_spec dates (MINIMUM_DATE utils)) as (Hle' & Hall' & Hin').
  split; (split; [| done]).
  - destruct Hin as [E|Hin]; [| done].
    rewrite Forall_forall in Hall.
    assert (foldl (fun acc d => py_min d acc) (maximum_date utils) dates = d0)
      as ->; [| done].
    apply dt_leb_antisym; [by apply Hall |].
    rewrite E. by apply Hr.
  - destruct Hin' as [E|Hin']; [| done].
    rewrite Forall_forall in Hall'.
    assert (foldl (fun acc d => py_max d acc) (MINIMUM_DATE utils) dates = d0)
      as ->; [| done].
    apply dt_leb_antisym; [| by apply Hall'].
    rewrite E. by apply Hr.
Qed.

(** C8: when the sentinels bound the dates, [fetch_album_contents]
    returns the least and the greatest creation date of the items it
    records, whatever the order of the listing; for an album with no
    recorded item it returns the pair of sentinels, with [first_date]
    after [last_date]. *)
Theorem fetch_album_contents_date_range utils self api album_id add db :
  dt_ltb (MINIMUM_DATE utils) (maximum_date utils) = true ->
  Forall (in_range utils) (observed_dates self api album_id) ->
  let range := (fetch_album_contents utils self api album_id add db).1 in
  (observed_dates self api album_id = [] ->
     range = (maximum_date utils, MINIMUM_DATE utils)
     ∧ dt_ltb range.2 range.1 = true)
  ∧ (observed_dates self api album_id ≠ [] ->
       is_minimum range.1 (observed_dates self api album_id)
       ∧ is_maximum range.2 (observed_dates self api album_id))
  ∧ (∀ api' album_id' add' db',
       observed_dates self api' album_id' ≡ₚ observed_dates self api album_id ->
       (fetch_album_contents utils self api' album_id' add' db').1 = range).
Proof.
  intros Hlt Hr range.
  destruct (fetch_album_contents_spec utils self api album_id add db)
    as (Hf & Hl & _).
  assert (range = (foldl (fun acc d => py_min d acc) (maximum_date utils)
                     (observed_dates self api album_id),
                   foldl (fun acc d => py_max d acc) (MINIMUM_DATE utils)
                     (observed_dates self api album_id))) as Hrange.
  { subst range. destruct (fetch_album_contents _ _ _ _ _ _) as [[f l] d].
    simpl in *. congruence. }
  split; [| split].
  - intros E. rewrite Hrange, E. simpl. done.
  - intros Hne. rewrite Hrange. simpl. by apply date_range_nonempty.
  - intros api' album_id' add' db' Hp.
    destruct (fetch_album_contents_spec utils self api' album_id' add' db')
      as (Hf' & Hl' & _).
    destruct (fetch_album_contents _ _ api' _ _ _) as [[f' l'] d'].
    simpl in Hf', Hl'. rewrite Hrange. simpl.
    destruct (observed_dates self api album_id) as [|d0 ds] eqn:E.
    + apply Permutation_nil_r in Hp. rewrite Hp in *. simpl in *. congruence.
    + rewrite <- E in *.
      assert (observed_dates self api album_id ≠ []) as Hne by (by rewrite E).
      assert (observed_dates self api' album_id' ≠ []) as Hne'.
      { intros E'. rewrite E' in Hp. symmetry in Hp.
        by apply Permutation_nil_r in Hp. }
      assert (Forall (in_range utils) (observed_dates self api' album_id'))
        as Hr' by (by rewrite Hp).
      destruct (date_range_nonempty utils _ Hr Hne) as [Hmin Hmax].
      destruct (date_range_nonempty utils _ Hr' Hne') as [Hmin' Hmax'].
      f_equal.
      * rewrite Hf'. eapply is_minimum_unique; [exact Hp | done | done].
      * rewrite Hl'. eapply is_maximum_unique; [exact Hp | done | done].
Qed.

Lemma fetch_album_contents_date_range_witness :
  (fetch_album_contents sample_utils (sample_self false true false false None)
     three_photos "album" false empty_store).1
  = (date 2020 1 1, date 2020 12 31)
  ∧ is_minimum (date 2020 1 1)
      (observed_dates (sample_self false true false false None)
         three_photos "album").
Proof.
  pose proof (fetch_album_contents_date_range sample_utils
                (sample_self false true false false None)
                three_photos "album" false empty_store eq_refl) as H.
  split; [reflexivity |].
  apply H; [| discriminate].
  repeat constructor.
Defined.

(** ** The trace of a pass of [index_albums_type] *)

Lemma fetch_events_pass add l :
  Forall is_fetch_event l -> Forall (is_pass_event add) l ∧ decisions l = [].
Proof.
  induction 1 as [|e l He _ [IH1 IH2]]; [by split |].
  destruct e; try done; simpl; (split; [by constructor | done]).
Qed.

Lemma decisions_app l1 l2 : decisions (l1 ++ l2) = decisions l1 ++ decisions l2.
Proof. apply List.filter_app. Qed.

Lemma indexed_nil self allow add st : indexed self allow add [] st st.
Proof.
  split; [simpl; lia |]. exists []. rewrite app_nil_r.
  split; [done |]. split; constructor.
Qed.

Lemma indexed_app self allow add l1 l2 st st1 st2 :
  indexed self allow add l1 st st1 ->
  indexed self allow add l2 st1 st2 ->
  indexed self allow add (l1 ++ l2) st st2.
Proof.
  intros (Hc1 & e1 & Ht1 & Hp1 & Hd1) (Hc2 & e2 & Ht2 & Hp2 & Hd2).
  split; [rewrite Hc2, Hc1, length_app; lia |].
  exists (e1 ++ e2). split; [by rewrite Ht2, Ht1, app_assoc |].
  split; [by apply Forall_app |].
  rewrite decisions_app. by apply Forall2_app.
Qed.

Lemma indexed_album utils self api item_key description allow add st a :
  indexed self allow add [a] st
    (index_album utils self api item_key description allow add st a).
Proof.
  destruct st as [count db]. unfold index_album, indexed.
  match goal with
  | |- context [if progress self && _ then emit _ ?d else _] => set (db1 := d)
  end.
  assert (∃ l d, trace db1 = trace db ++ l
                 ∧ Forall (is_pass_event add) l
                 ∧ decisions l = [d]
                 ∧ decision_for self allow a d) as (l & d & Hl & Hp & Hd & Hdec).
  { subst db1. unfold decision_for.
    destruct (negb (album self =? "")%string && _).
    { eexists [_], _. split; [done |].
      split; [by repeat constructor |]. by split. }
    destruct (match album_regex self with Some _ => _ | None => _ end).
    { eexists [_], _. split; [done |].
      split; [by repeat constructor |]. by split. }
    destruct (negb allow && _).
    { eexists [_], _. split; [done |].
      split; [by repeat constructor |]. by split. }
    destruct (_ && negb (flush self)) eqn:Hidx.
    { eexists [_], _. split; [done |].
      split; [by repeat constructor |]. split; [done |].
      left. split; [done |]. apply andb_true_iff in Hidx as [_ Hflush].
      by destruct (flush self). }
    pose proof (fetch_album_contents_spec utils self api
                  (GoogleAlbumMedia.id a) add
                  (emit (LogIndexingAlbum (GoogleAlbumMedia.id a)) db))
      as (_ & _ & _ & lf & Ht & Hev & _).
    destruct (fetch_album_contents _ _ _ _ _ _) as [[first last] db'].
    simpl in Ht. destruct (fetch_events_pass add lf Hev) as [Hpass Hnone].
    eexists (LogIndexingAlbum _ :: FetchAlbumContents _ _ :: lf ++ [PutAlbumRow _ _]), _.
    simpl. rewrite Ht, <- !app_assoc. simpl. split; [done |].
    split; [| split].
    - constructor; [done |]. constructor; [done |].
      apply Forall_app. split; [done | by repeat constructor].
    - by rewrite decisions_app, Hnone.
    - by right. }
  simpl. split; [lia |].
  destruct (progress self && _).
  - exists (l ++ [LogListed (S count) description]). simpl.
    rewrite Hl, <- app_assoc. split; [done |].
    split; [apply Forall_app; split; [done | by repeat constructor] |].
    rewrite decisions_app, Hd. simpl. by repeat constructor.
  - exists l. split; [done |]. split; [done |].
    rewrite Hd. by repeat constructor.
Qed.

Lemma indexed_albums utils self api item_key description allow add listing st :
  indexed self allow add listing st
    (foldl (index_album utils self api item_key description allow add)
       st listing).
Proof.
  revert st. induction listing as [|a listing IH]; intros st; simpl.
  - apply indexed_nil.
  - change (a :: listing) with ([a] ++ listing).
    eapply indexed_app; [apply indexed_album | apply IH].
Qed.

Lemma indexed_pages utils self api item_key description allow add responses st :
  indexed self allow add (listed_albums responses) st
    (index_pages utils self api item_key description allow add responses st).
Proof.
  revert st. induction responses as [|r rest IH]; intros st; simpl.
  - apply indexed_nil.
  - destruct (album_ok r); simpl; [| apply indexed_nil].
    destruct (truthy_token (album_nextPageToken r)).
    + eapply indexed_app; [apply indexed_albums | apply IH].
    + rewrite app_nil_r. apply indexed_albums.
Qed.

(** One pass: its opening line, the events of the listed albums with one
    decision for each of them, its closing line. *)
Lemma index_albums_type_trace utils self api responses item_key description
    allow add db :
  ∃ l n,
    trace (index_albums_type utils self api responses item_key description
             allow add db)
    = trace db ++ [LogIndexing description] ++ l ++ [LogIndexed n description]
    ∧ Forall (is_pass_event (if favourites self then false else add)) l
    ∧ Forall2 (decision_for self allow) (listed_albums responses) (decisions l).
Proof.
  unfold index_albums_type.
  pose proof (indexed_pages utils self api item_key description allow
                (if favourites self then false else add) responses
                (0%nat, emit (LogIndexing description) db))
    as (_ & l & Ht & Hp & Hd).
  destruct (index_pages _ _ _ _ _ _ _ _ _) as [count db'].
  simpl in *. exists l, count.
  rewrite Ht, <- !app_assoc. by simpl.
Qed.

(** A run of [index_album_media] with shared albums enabled: the pass
    over the shared albums, then the pass over the owned albums. *)
Lemma index_album_media_trace utils self api db :
  shared_albums self = true ->
  ∃ shared n_shared owned n_owned,
    trace (index_album_media utils self api db)
    = trace db
      ++ [LogIndexing "Shared (titled) Albums"] ++ shared
      ++ [LogIndexed n_shared "Shared (titled) Albums"]
      ++ [LogIndexing "Albums"] ++ owned ++ [LogIndexed n_owned "Albums"]
    ∧ Forall (is_pass_event (negb (favourites self))) shared
    ∧ Forall (is_pass_event (album_index self && negb (favourites self))) owned
    ∧ Forall2 (decision_for self false)
        (listed_albums (sharedAlbums_list api)) (decisions shared)
    ∧ Forall2 (decision_for self true)
        (listed_albums (albums_list api)) (decisions owned).
Proof.
  intros Hshared. unfold index_album_media. rewrite Hshared.
  destruct (index_albums_type_trace utils self api (sharedAlbums_list api)
              "sharedAlbums" "Shared (titled) Albums" false true db)
    as (l1 & n1 & Ht1 & Hp1 & Hd1).
  destruct (index_albums_type_trace utils self api (albums_list api)
              "albums" "Albums" true (album_index self)
              (index_albums_type utils self api (sharedAlbums_list api)
                 "sharedAlbums" "Shared (titled) Albums" false true db))
    as (l2 & n2 & Ht2 & Hp2 & Hd2).
  exists l1, n1, l2, n2. rewrite Ht2, Ht1, <- !app_assoc.
  split; [done |].
  split; [by destruct (favourites self) |].
  split; [by destruct (favourites self), (album_index self) |].
  done.
Qed.

Lemma passes_filters_spec self a :
  passes_filters self a ->
  negb (String.eqb (album self) "")
  && negb (String.eqb (album self) (GoogleAlbumMedia.orig_name a)) = false
  ∧ match album_regex self with
    | Some re_search => negb (re_search (GoogleAlbumMedia.orig_name a))
    | None => false
    end = false.
Proof.
  intros [Hname Hre]. split.
  - destruct Hname as [E|E]; rewrite E.
    + done.
    + rewrite (String.eqb_refl (GoogleAlbumMedia.orig_name a)).
      simpl. apply andb_false_r.
  - destruct (album_regex self) as [re_search|]; [| done].
    by rewrite (Hre re_search eq_refl).
Qed.

(** ** C3: albums without a title *)




(** ** The skip policy at one album *)

(** One turn of the loop of [index_albums_type], for an album that passes
    the name filter, the regex filter and the title rule and for which the
    store holds a row: when the stored size is the listed size and no
    flush was asked for, the store's albums are unchanged and the trace
    only gains the skip line (and the progress line when due); when the
    stored size differs from the listed one, [fetch_album_contents] is
    called, every listed item of the album is recorded, and the album row
    is written with the listed size. *)
Lemma index_album_policy utils self api item_key description
    allow add count db a row :
  passes_filters self a ->
  allow = true ∨ GoogleAlbumMedia.description a ≠ "none" ->
  get_album db (GoogleAlbumMedia.id a) = Some row ->
  let st' := index_album utils self api item_key description allow add
               (count, db) a in
  (GoogleAlbumsRow.Size row = GoogleAlbumMedia.size a -> flush self = false ->
     albums st'.2 = albums db
     ∧ ∃ l, trace st'.2
            = trace db ++ LogSkipping AlreadyIndexed (GoogleAlbumMedia.id a) :: l
            ∧ (l = [] ∨ l = [LogListed (S count) description]))
  ∧ (GoogleAlbumsRow.Size row ≠ GoogleAlbumMedia.size a ->
       ∃ first last l l',
         let gar := GoogleAlbumsRow.from_parm (GoogleAlbumMedia.id a)
                      (GoogleAlbumMedia.filename a) (GoogleAlbumMedia.size a)
                      first last (shared_of_key item_key) in
         trace st'.2
         = trace db
           ++ LogIndexingAlbum (GoogleAlbumMedia.id a)
           :: FetchAlbumContents (GoogleAlbumMedia.id a) add
           :: l ++ PutAlbumRow gar true :: l'
         ∧ Forall is_fetch_event l
         ∧ put_album_file_calls l
           = calls_for self (GoogleAlbumMedia.id a) 0
               (listed_media (mediaItems_search api (GoogleAlbumMedia.id a)))
         ∧ albums st'.2 !! GoogleAlbumMedia.id a = Some gar
         ∧ (l' = [] ∨ l' = [LogListed (S count) description])).
Proof.
  intros Hpass Htitle Hrow st'. subst st'. unfold index_album.
  apply passes_filters_spec in Hpass as [Hp1 Hp2]. rewrite Hp1, Hp2, Hrow.
  assert (negb allow && (GoogleAlbumMedia.description a =? "none")%string
          = false) as ->.
  { destruct Htitle as [->|Hne]; [done |].
    apply andb_false_iff. right. by apply String.eqb_neq. }
  split.
  - intros Hsize Hflush. rewrite Hsize, Z.eqb_refl, Hflush. simpl.
    destruct (progress self && _); simpl.
    + split; [done |]. eexists. rewrite <- app_assoc. split; [done | by right].
    + split; [done |]. eexists. split; [done | by left].
  - intros Hsize. apply Z.eqb_neq in Hsize.
    pose proof (fetch_album_contents_spec utils self api
                  (GoogleAlbumMedia.id a) add
                  (emit (LogIndexingAlbum (GoogleAlbumMedia.id a)) db))
      as (_ & _ & _ & lf & Ht & Hev & Hcalls).
    destruct (fetch_album_contents _ _ _ _ _ _) as [[first last] db'].
    rewrite Hsize. simpl in *. exists first, last, lf.
    destruct (progress self && _); simpl.
    + exists [LogListed (S count) description].
      rewrite Ht, <- !app_assoc. simpl. rewrite <- ?app_assoc. simpl.
      split; [done |]. split; [done |]. split; [done |].
      split; [apply lookup_insert_eq | by right].
    + exists []. rewrite Ht, <- !app_assoc. simpl.
      split; [done |]. split; [done |]. split; [done |].
      split; [apply lookup_insert_eq | by left].
Qed.

(** ** C9: the folder of an album *)

(** C9, as the code has it: for the title "Trip!", not shared, dated by
    its end date 2020-06-15, in nested mode with the album date kept and
    the default path format, and a sanitization that strips the "!", the
    folder is "2020/06 Trip" under the album root when the month format
    is "%m"; when the month format is left unset the default "%m%d" of the
    code applies and the folder is "2020/0615 Trip". *)
Theorem album_folder_name_trip checks self start_date time :
  valid_file_name checks "Trip!" = "Trip" ->
  _omit_album_date self = false ->
  use_start_date self = false ->
  _use_flat_path self = false ->
  path_format self = None ->
  (month_format self = Some "%m" ->
     album_folder_name checks self "Trip!" start_date
       (mk_datetime 2020 6 15 time) false
     = Some (_albums_root self // "2020/06 Trip"))
  ∧ (month_format self = None ->
       album_folder_name checks self "Trip!" start_date
         (mk_datetime 2020 6 15 time) false
       = Some (_albums_root self // "2020/0615 Trip")).
Proof.
  intros Hvalid Homit Hstart Hflat Hpath.
  unfold album_folder_name.
  rewrite Hvalid, Homit, Hstart, Hflat, Hpath.
  split; intros ->; reflexivity.
Qed.

Lemma album_folder_name_trip_witness :
  album_folder_name sample_checks (sample_self false true false false (Some "%m"))
    "Trip!" (date 2020 1 1) (date 2020 6 15) false
  = Some (Path "/sync/albums/2020/06 Trip").
Proof.
  exact (proj1 (album_folder_name_trip sample_checks
                  (sample_self false true false false (Some "%m"))
                  (date 2020 1 1) 0 eq_refl eq_refl eq_refl eq_refl eq_refl)
           eq_refl).
Defined.

(** C9 as stated fails: with the month format left at its default the
    folder is "2020/0615 Trip", not "2020/06 Trip". *)
Lemma default_month_format_has_day :
  album_folder_name sample_checks (sample_self false true false false None)
    "Trip!" (date 2020 1 1) (date 2020 6 15) false
  = Some (Path "/sync/albums/2020/0615 Trip")
  ∧ album_folder_name sample_checks (sample_self false true false false None)
      "Trip!" (date 2020 1 1) (date 2020 6 15) false
    ≠ Some (_albums_root (sample_self false true false false None)
            // "2020/06 Trip").
Proof. vm_compute. split; [reflexivity | discriminate]. Qed.

(** ** Facts about the file system *)

Lemma check_new_entry_None (fs : filesystem) (p : list string) :
  check_new_entry fs p = None -> fs !! p = None.
Proof. unfold check_new_entry. by destruct (fs !! p). Qed.

Lemma os_mkdir_inr (fs : filesystem) (p : list string) (fs' : filesystem) :
  os_mkdir fs p = inr fs' -> fs !! p = None ∧ fs' = <[p := Dir]> fs.
Proof.
  unfold os_mkdir. destruct (check_new_entry fs p) eqn:E; [done |].
  intros [= <-]. split; [by apply check_new_entry_None | done].
Qed.

Lemma stat_fuel_mono (n : nat) (fs fs' : filesystem) (p : list string)
    (r : list string * node) :
  fs ⊆ fs' -> stat_fuel n fs p = Some r -> stat_fuel n fs' p = Some r.
Proof.
  intros Hsub. revert p. induction n as [|n IH]; intros p; simpl.
  - destruct (fs !! p) as [nd|] eqn:E; [| done].
    rewrite (lookup_weaken _ _ _ _ E Hsub). done.
  - destruct (fs !! p) as [nd|] eqn:E; [| done].
    rewrite (lookup_weaken _ _ _ _ E Hsub).
    destruct nd; try done. apply IH.
Qed.

Lemma fs_exists_mono (fs fs' : filesystem) p :
  fs ⊆ fs' -> fs_exists fs p = true -> fs_exists fs' p = true.
Proof.
  unfold fs_exists, stat. intros Hsub.
  destruct (stat_fuel 40 fs p) as [r|] eqn:E; [| done].
  by rewrite (stat_fuel_mono _ _ _ _ _ Hsub E).
Qed.

Lemma fs_is_dir_insert (fs : filesystem) p :
  fs_is_dir (<[p := Dir]> fs) p = true.
Proof. unfold fs_is_dir, stat. simpl. by rewrite lookup_insert_eq. Qed.

Lemma fs_is_dir_exists (fs : filesystem) p :
  fs_is_dir fs p = true -> fs_exists fs p = true.
Proof.
  unfold fs_is_dir, fs_exists. by destruct (stat fs p) as [[? []]|].
Qed.

Lemma fs_exists_lookup (fs : filesystem) p :
  fs_exists fs p = true -> is_Some (fs !! p).
Proof.
  unfold fs_exists, stat. simpl. destruct (fs !! p); [by eexists | done].
Qed.

Lemma mkdir_here_inr (ok : bool) (fs : filesystem) (p : list string)
    (fs' : filesystem) :
  mkdir_here ok fs p = inr fs' ->
  fs ⊆ fs' ∧ fs_is_dir fs' p = true.
Proof.
  unfold mkdir_here. destruct (os_mkdir fs p) as [e|fs1] eqn:E.
  - destruct e; try done;
      (destruct (negb ok || negb (fs_is_dir fs p)) eqn:E'; [done |]);
      intros [= <-]; apply orb_false_iff in E' as [_ E'];
      (split; [done | by destruct (fs_is_dir fs p)]).
  - intros [= <-]. apply os_mkdir_inr in E as [Hnone ->].
    split; [by apply insert_subseteq | apply fs_is_dir_insert].
Qed.

Lemma mkdir_parents_inr (n : nat) (ok : bool) (fs : filesystem)
    (p : list string) (fs' : filesystem) :
  mkdir_parents n ok fs p = inr fs' ->
  fs ⊆ fs' ∧ fs_is_dir fs' p = true.
Proof.
  revert ok fs p fs'. induction n as [|n IH]; intros ok fs p fs'; simpl.
  - destruct (os_mkdir fs p) as [e|fs1] eqn:E.
    + destruct e; try (by destruct p);
        (destruct (negb ok || negb (fs_is_dir fs p)) eqn:E'; [done |]);
        intros [= <-]; apply orb_false_iff in E' as [_ E'];
        (split; [done | by destruct (fs_is_dir fs p)]).
    + intros [= <-]. apply os_mkdir_inr in E as [Hnone ->].
      split; [by apply insert_subseteq | apply fs_is_dir_insert].
  - destruct (os_mkdir fs p) as [e|fs1] eqn:E.
    + destruct e;
        try (destruct (negb ok || negb (fs_is_dir fs p)) eqn:E'; [done |];
             intros [= <-]; apply orb_false_iff in E' as [_ E'];
             (split; [done | by destruct (fs_is_dir fs p)])).
      destruct p as [|x p']; [done |].
      destruct (mkdir_parents n true fs (removelast (x :: p'))) as [e|fs1] eqn:E1;
        [done |].
      intros Hhere. apply IH in E1 as [Hsub1 _].
      apply mkdir_here_inr in Hhere as [Hsub2 Hdir].
      split; [by etrans | done].
    + intros [= <-]. apply os_mkdir_inr in E as [Hnone ->].
      split; [by apply insert_subseteq | apply fs_is_dir_insert].
Qed.

Lemma fs_mkdir_inr (parents ok : bool) (fs : filesystem) (p : list string)
    (fs' : filesystem) :
  fs_mkdir parents ok fs p = inr fs' ->
  fs ⊆ fs' ∧ fs_is_dir fs' p = true.
Proof.
  unfold fs_mkdir. destruct parents.
  - apply mkdir_parents_inr.
  - apply mkdir_here_inr.
Qed.

Lemma fs_unlink_inr (fs : filesystem) p fs' :
  fs_unlink fs p = inr fs' -> fs' = delete p fs.
Proof.
  unfold fs_unlink. destruct (fs !! p) as [[]|]; try done; by intros [= <-].
Qed.

Lemma fs_link_inr (fs : filesystem) src dst fs' :
  fs_link fs src dst = inr fs' -> fs !! dst = None ∧ fs ⊆ fs'.
Proof.
  unfold fs_link. destruct (fs !! src) as [nd|]; [| done].
  destruct nd; try done;
    (destruct (check_new_entry fs dst) eqn:E; [done |]);
    intros [= <-]; apply check_new_entry_None in E;
    (split; [done | by apply insert_subseteq]).
Qed.

Lemma fs_symlink_inr (fs : filesystem) target dst fs' :
  fs_symlink fs target dst = inr fs' -> fs !! dst = None ∧ fs ⊆ fs'.
Proof.
  unfold fs_symlink. destruct (check_new_entry fs dst) eqn:E; [done |].
  intros [= <-]. apply check_new_entry_None in E.
  split; [done | by apply insert_subseteq].
Qed.

Lemma fs_rmtree_inr (fs : filesystem) p fs' :
  fs_rmtree fs p = inr fs' ->
  fs' = filter (fun kv => ¬ under p kv.1) fs.
Proof.
  unfold fs_rmtree. destruct (fs !! p) as [[]|]; try done; by intros [= <-].
Qed.

Lemma fs_rmdir_inr (fs : filesystem) p fs' :
  fs_rmdir fs p = inr fs' ->
  fs !! p = Some Dir ∧ children fs p = [] ∧ fs' = delete p fs.
Proof.
  unfold fs_rmdir. destruct (fs !! p) as [[]|]; try done.
  destruct (children fs p); [| done]. by intros [= <-].
Qed.

Lemma stat_dir (fs : filesystem) (p : list string) :
  fs !! p = Some Dir -> stat fs p = Some (p, Dir).
Proof. unfold stat. simpl. by intros ->. Qed.

Lemma stat_file (fs : filesystem) (p : list string) (i : nat) :
  fs !! p = Some (File i) -> stat fs p = Some (p, File i).
Proof. unfold stat. simpl. by intros ->. Qed.

Lemma stat_fuel_more (n m : nat) (fs : filesystem) (p : list string)
    (r : list string * node) :
  (n <= m)%nat -> stat_fuel n fs p = Some r -> stat_fuel m fs p = Some r.
Proof.
  revert m p. induction n as [|n IH]; intros m p Hle; simpl.
  - destruct (fs !! p) as [[]|] eqn:E; try done;
      destruct m; simpl; by rewrite E.
  - destruct m as [|m]; [lia |]. simpl.
    destruct (fs !! p) as [[]|]; try done. apply IH. lia.
Qed.

Lemma stat_fuel_delete (n : nat) (fs : filesystem) (q p : list string) :
  (n <= 40)%nat ->
  fs_is_dir fs q = false ->
  reaches_dir (stat_fuel n (delete q fs) p) = reaches_dir (stat_fuel n fs p).
Proof.
  intros Hn Hq. revert p.
  assert (∀ m, (m <= 40)%nat -> reaches_dir (stat_fuel m fs q) = false)
    as Hqm.
  { intros m Hm. destruct (stat_fuel m fs q) as [[r nd]|] eqn:E; [| done].
    apply (stat_fuel_more m 40) in E; [| done].
    unfold fs_is_dir, stat in Hq. rewrite E in Hq. by destruct nd. }
  induction n as [|n IH]; intros p.
  - destruct (decide (p = q)) as [->|Hne].
    + rewrite (Hqm 0%nat) by lia. simpl. by rewrite lookup_delete_eq.
    + simpl. by rewrite lookup_delete_ne.
  - destruct (decide (p = q)) as [->|Hne].
    + rewrite (Hqm (Datatypes.S n)) by lia. simpl. by rewrite lookup_delete_eq.
    + simpl. rewrite lookup_delete_ne by done.
      destruct (fs !! p) as [[]|]; try done. apply IH. lia.
Qed.

Lemma fs_is_dir_delete (fs : filesystem) (q p : list string) :
  fs_is_dir fs q = false ->
  fs_is_dir (delete q fs) p = fs_is_dir fs p.
Proof.
  intros Hq. unfold fs_is_dir, stat.
  by apply (stat_fuel_delete 40 fs q p).
Qed.

Lemma stat_mono (fs fs' : filesystem) (p : list string)
    (r : list string * node) :
  fs ⊆ fs' -> stat fs p = Some r -> stat fs' p = Some r.
Proof. apply stat_fuel_mono. Qed.

Lemma st_ino_mono (fs fs' : filesystem) (p : list string) :
  fs ⊆ fs' -> fs_exists fs p = true -> st_ino fs' p = st_ino fs p.
Proof.
  unfold fs_exists, st_ino. intros Hsub.
  destruct (stat fs p) as [r|] eqn:E; [| done].
  by rewrite (stat_mono _ _ _ _ Hsub E).
Qed.

Lemma fs_is_symlink_lookup (fs : filesystem) (p : list string) target :
  fs !! p = Some (Symlink target) ->
  fs_is_symlink fs p = true ∧ fs_readlink fs p = Some target.
Proof. unfold fs_is_symlink, fs_readlink. by intros ->. Qed.

#[global] Opaque stat.

(** ** Frames *)

Section Frames.
Context (P : effect -> Prop) (S : list string -> Prop).

Lemma frames_refl w : frames P S w w.
Proof.
  split; [| done]. exists []. by rewrite app_nil_r.
Qed.

Lemma frames_trans w1 w2 w3 :
  frames P S w1 w2 -> frames P S w2 w3 -> frames P S w1 w3.
Proof.
  intros [(l1 & E1 & H1) K1] [(l2 & E2 & H2) K2]. split.
  - exists (l1 ++ l2). rewrite E2, E1, app_assoc.
    split; [done | by apply Forall_app].
  - intros p nd Hp Hl. eauto.
Qed.

Lemma respects_ret {A} (a : A) : respects P S (mret a).
Proof. intros w. apply frames_refl. Qed.

Lemma respects_raise {A} (e : exn) : respects P S (raise (A := A) e).
Proof. intros w. apply frames_refl. Qed.

Lemma respects_ask {A} (q : filesystem -> A) : respects P S (ask q).
Proof. intros w. apply frames_refl. Qed.

Lemma respects_tell e : P e -> respects P S (tell e).
Proof.
  intros He w. split; [| done]. exists [e]. by repeat constructor.
Qed.

Lemma respects_change op e :
  P e -> keeps S op -> respects P S (change op e).
Proof.
  intros He Hop w. unfold change.
  destruct (op (fs w)) as [err|fs'] eqn:E; simpl.
  - apply frames_refl.
  - split; [exists [e]; by repeat constructor |].
    simpl. intros p nd Hp Hl. by eapply Hop.
Qed.

Lemma respects_bind {A B} (m : M A) (f : A -> M B) :
  respects P S m -> (∀ a, respects P S (f a)) -> respects P S (m ≫= f).
Proof.
  intros Hm Hf w. unfold mbind, M_bind. specialize (Hm w).
  destruct (m w) as [a w'|e w']; simpl in *; [| done].
  eapply frames_trans; [exact Hm | apply Hf].
Qed.

(** The continuation may rely on a property of the value that holds
    whatever the world. *)
Lemma respects_bind_with {A B} (Q : A -> Prop) (m : M A) (f : A -> M B) :
  respects P S m ->
  (∀ w a w', m w = Ok a w' -> Q a) ->
  (∀ a, Q a -> respects P S (f a)) ->
  respects P S (m ≫= f).
Proof.
  intros Hm HQ Hf w. unfold mbind, M_bind. specialize (Hm w).
  destruct (m w) as [a w'|e w'] eqn:E; simpl in *; [| done].
  eapply frames_trans; [exact Hm | apply Hf; eauto].
Qed.

Lemma respects_try {A} (body : M A) handler :
  respects P S body ->
  (∀ e h, handler e = Some h -> respects P S h) ->
  respects P S (try_except body handler).
Proof.
  intros Hb Hh w. unfold try_except. specialize (Hb w).
  destruct (body w) as [a w'|e w']; simpl in *; [done |].
  destruct (handler e) as [h|] eqn:E; [| done].
  eapply frames_trans; [exact Hb | by eapply Hh].
Qed.

Lemma respects_for_each {A St} (Q : A -> Prop) (body : St -> A -> M St) l s :
  Forall Q l ->
  (∀ s x, Q x -> respects P S (body s x)) ->
  respects P S (for_each body l s).
Proof.
  intros Hl Hbody. revert s.
  induction Hl as [|x l Hx Hl IH]; intros s; simpl.
  - apply respects_ret.
  - apply respects_bind; [by apply Hbody | apply IH].
Qed.

Lemma keeps_mkdir parents ok p :
  keeps S (fun fs => fs_mkdir parents ok fs p).
Proof.
  intros fs fs' E q nd _ Hl. apply fs_mkdir_inr in E as [Hsub _].
  by eapply lookup_weaken.
Qed.

Lemma keeps_link src dst : keeps S (fun fs => fs_link fs src dst).
Proof.
  intros fs fs' E q nd _ Hl. apply fs_link_inr in E as [_ Hsub].
  by eapply lookup_weaken.
Qed.

Lemma keeps_symlink target dst :
  keeps S (fun fs => fs_symlink fs target dst).
Proof.
  intros fs fs' E q nd _ Hl. apply fs_symlink_inr in E as [_ Hsub].
  by eapply lookup_weaken.
Qed.

Lemma keeps_unlink p : ¬ S p -> keeps S (fun fs => fs_unlink fs p).
Proof.
  intros Hp fs fs' E q nd Hq Hl. apply fs_unlink_inr in E as ->.
  rewrite lookup_delete_ne; [done |]. by intros ->.
Qed.

Lemma keeps_rmdir p : ¬ S p -> keeps S (fun fs => fs_rmdir fs p).
Proof.
  intros Hp fs fs' E q nd Hq Hl. apply fs_rmdir_inr in E as (_ & _ & ->).
  rewrite lookup_delete_ne; [done |]. by intros ->.
Qed.

Lemma keeps_rmtree p :
  (∀ q, S q -> ¬ under p q) -> keeps S (fun fs => fs_rmtree fs p).
Proof.
  intros Hp fs fs' E q nd Hq Hl. apply fs_rmtree_inr in E as ->.
  apply map_lookup_filter_Some. split; [done |]. simpl. by apply Hp.
Qed.

Lemma respects_mkdir p parents ok :
  P (Mkdir p) -> respects P S (mkdir p parents ok).
Proof. intros. apply respects_change; [done | apply keeps_mkdir]. Qed.

Lemma respects_link src dst :
  P (Link src dst) -> respects P S (link src dst).
Proof. intros. apply respects_change; [done | apply keeps_link]. Qed.

Lemma respects_symlink_to dst target :
  P (SymlinkTo target dst) -> respects P S (symlink_to dst target).
Proof. intros. apply respects_change; [done | apply keeps_symlink]. Qed.

Lemma respects_rmtree p :
  P (Rmtree p) -> (∀ q, S q -> ¬ under (parts p) q) ->
  respects P S (rmtree p).
Proof. intros. apply respects_change; [done | by apply keeps_rmtree]. Qed.

Lemma respects_rmdir p :
  P (Rmdir p) -> ¬ S (parts p) -> respects P S (rmdir p).
Proof. intros. apply respects_change; [done | by apply keeps_rmdir]. Qed.

Lemma respects_unlink p :
  (∀ w was, fs w !! parts p = Some was -> P (Unlink p was)) ->
  ¬ S (parts p) -> respects P S (unlink p).
Proof.
  intros HP Hp w. unfold unlink.
  destruct (fs w !! parts p) as [was|] eqn:E; [| apply frames_refl].
  apply respects_change; [by eapply HP | by apply keeps_unlink].
Qed.
End Frames.

(** ** The preparation of the roots *)

Lemma mkdir_Ok p parents ok w u w' :
  mkdir p parents ok w = Ok u w' ->
  fs w ⊆ fs w' ∧ fs_is_dir (fs w') (parts p) = true.
Proof.
  unfold mkdir, change.
  destruct (fs_mkdir parents ok (fs w) (parts p)) as [e|fs'] eqn:E; [done |].
  intros [= _ <-]. simpl. by apply fs_mkdir_inr in E.
Qed.

Lemma bind_Ok {A B} (m : M A) (f : A -> M B) w b w' :
  (m ≫= f) w = Ok b w' -> ∃ a w1, m w = Ok a w1 ∧ f a w1 = Ok b w'.
Proof.
  unfold mbind, M_bind. destruct (m w) as [a w1|]; [| done]. eauto.
Qed.

Lemma ask_Ok {A} (q : filesystem -> A) w a w' :
  ask q w = Ok a w' -> a = q (fs w) ∧ w' = w.
Proof. unfold ask. by intros [= <- <-]. Qed.

(** Lines 302 to 305: a missing root is made, and then exists. *)
Lemma make_missing_root_Ok p w u w' :
  (e ← path_exists p; if negb e then mkdir p true true else mret ()) w
  = Ok u w' ->
  fs w ⊆ fs w' ∧ fs_exists (fs w') (parts p) = true.
Proof.
  intros H. apply bind_Ok in H as (e & w1 & He & H).
  apply ask_Ok in He as [-> ->].
  destruct (fs_exists (fs w) (parts p)) eqn:E; simpl in H.
  - injection H as _ <-. split; [reflexivity | exact E].
  - apply mkdir_Ok in H as [Hsub Hdir].
    split; [exact Hsub | by apply fs_is_dir_exists].
Qed.

(** When [prepare_roots] returns, both roots exist and [re_download] is
    false. *)
Lemma prepare_roots_Ok self w re_download w' :
  prepare_roots self w = Ok re_download w' ->
  re_download = false
  ∧ fs_exists (fs w') (parts (_albums_root self)) = true
  ∧ fs_exists (fs w') (parts (_shared_albums_root self)) = true.
Proof.
  unfold prepare_roots. intros H.
  apply bind_Ok in H as (u1 & w1 & _ & H).
  apply bind_Ok in H as (e2 & w1' & He2 & H).
  apply bind_Ok in H as (u2 & w2 & Hm2 & H).
  assert (fs w1 ⊆ fs w2
          ∧ fs_exists (fs w2) (parts (_albums_root self)) = true)
    as [Hsub2 Hex2].
  { apply (make_missing_root_Ok _ w1 u2). unfold mbind, M_bind.
    by rewrite He2. }
  apply bind_Ok in H as (e3 & w2' & He3 & H).
  apply bind_Ok in H as (u3 & w3 & Hm3 & H).
  assert (fs w2 ⊆ fs w3
          ∧ fs_exists (fs w3) (parts (_shared_albums_root self)) = true)
    as [Hsub3 Hex3].
  { apply (make_missing_root_Ok _ w2 u3). unfold mbind, M_bind.
    by rewrite He3. }
  apply bind_Ok in H as (e4 & w3' & He4 & H).
  apply ask_Ok in He4 as [-> ->].
  assert (fs_exists (fs w3) (parts (_albums_root self)) = true) as Hex
    by (by eapply fs_exists_mono).
  rewrite Hex in H. injection H as <- <-.
  split; [reflexivity |]. split; assumption.
Qed.

(** ** The reconciler respects its frame *)

Section Reconciler.
Context (P : effect -> Prop) (S : list string -> Prop).
Context (self : GoogleAlbumsSync).
Hypothesis P_benign : ∀ e, benign e -> P e.
Hypothesis P_unlink :
  ∀ p was, _use_hardlinks self = true ∨ (∃ target, was = Symlink target) ->
           P (Unlink p was).

Lemma unlink_frames p w :
  (∀ was, fs w !! parts p = Some was ->
          _use_hardlinks self = true ∨ ∃ target, was = Symlink target) ->
  ¬ S (parts p) ->
  frames P S w (world_of (unlink p w)).
Proof.
  intros Hwas Hp. unfold unlink.
  destruct (fs w !! parts p) as [was|] eqn:E; [| apply frames_refl].
  apply respects_change; [apply P_unlink; by apply Hwas | by apply keeps_unlink].
Qed.

Lemma respects_log m : respects P S (log m).
Proof. apply respects_tell. by apply P_benign. Qed.

Lemma respects_replace_link full_file_name link_file relative_filename :
  ¬ S (parts link_file) ->
  respects P S (replace_link self full_file_name link_file relative_filename).
Proof.
  intros Hp. unfold replace_link.
  apply respects_bind; [apply respects_ask |]. intros e.
  apply respects_bind.
  - destruct e; [| apply respects_ret].
    intros w. unfold mbind, M_bind, is_symlink, ask.
    destruct (fs_is_symlink (fs w) (parts link_file)) eqn:Hsym; simpl.
    + apply unlink_frames; [| done]. intros was Hwas. right.
      unfold fs_is_symlink in Hsym. rewrite Hwas in Hsym.
      destruct was; try discriminate. by eexists.
    + case_eq (_use_hardlinks self); intros Hhard.
      * apply unlink_frames; [| done]. intros. by left.
      * apply respects_log.
  - intros _. case (_use_hardlinks self).
    + apply respects_link. by apply P_benign.
    + destruct (_ntfs_override self); apply respects_symlink_to;
        by apply P_benign.
Qed.

Lemma respects_make_link full_file_name link_file relative_filename file_name :
  ¬ S (parts link_file) ->
  respects P S (make_link self full_file_name link_file relative_filename
                  file_name).
Proof.
  intros Hp. unfold make_link.
  apply respects_bind; [apply respects_ask |]. intros e.
  destruct e; [| apply respects_log].
  apply respects_bind; [apply respects_ask |]. intros c.
  destruct c; [by apply respects_replace_link | apply respects_ret].
Qed.

Lemma respects_touch_link checks link_file created_date count :
  respects P S (touch_link checks link_file created_date count).
Proof.
  unfold touch_link.
  apply respects_bind; [apply respects_ask |]. intros e.
  destruct e; [| apply respects_ret].
  apply respects_bind; [| intros; apply respects_ret].
  destruct (utime_supports_follow_symlinks checks); [| apply respects_ret].
  apply respects_tell. by apply P_benign.
Qed.

Lemma respects_link_album_file utils checks full_file_name link_folder
    link_file relative_filename created file_name count :
  ¬ S (parts link_file) ->
  respects P S (link_album_file utils checks self full_file_name link_folder
                  link_file relative_filename created file_name count).
Proof.
  intros Hp. unfold link_album_file. apply respects_try.
  - apply respects_bind; [apply respects_ask |]. intros d.
    apply respects_bind.
    { destruct (negb d); [| apply respects_ret].
      apply respects_bind; [apply respects_log |]. intros _.
      apply respects_mkdir. by apply P_benign. }
    intros _. apply respects_bind; [by apply respects_make_link |].
    intros _. apply respects_touch_link.
  - intros e h Hh. destruct (is_FileExistsError e); [| discriminate].
    injection Hh as <-.
    apply respects_bind; [apply respects_log | intros; apply respects_ret].
Qed.

Lemma respects_link_row utils checks st r :
  (∀ i n, names_of checks utils self i r = Some n -> ¬ S (parts (link_file n))) ->
  respects P S (link_row utils checks self st r).
Proof.
  intros Hnames. unfold link_row. apply respects_bind.
  { destruct (String.eqb _ _); [apply respects_ret |].
    apply respects_bind; [| intros; apply respects_ret].
    apply respects_tell. by apply P_benign. }
  intros i. destruct (names_of checks utils self i r) as [n|] eqn:E.
  - apply respects_bind; [| intros; apply respects_ret].
    apply respects_link_album_file. by eapply Hnames.
  - apply respects_raise.
Qed.

Lemma respects_remove_stale valid_links removed_count path :
  ¬ S (parts path) ->
  respects P S (remove_stale self valid_links removed_count path).
Proof.
  intros Hp w. unfold remove_stale, mbind, M_bind, is_dir, ask.
  destruct (fs_is_dir (fs w) (parts path)); [apply frames_refl |].
  destruct (bool_decide (str path ∉ valid_links)); [| apply frames_refl].
  unfold try_except, is_symlink, path_exists, ask.
  destruct (fs_is_symlink (fs w) (parts path)) eqn:Hsym; simpl.
  - set (w1 := {| fs := fs w; effects := _ |}).
    assert (frames P S w w1) as H1.
    { split; [| done]. eexists [_]. split; [done |].
      repeat constructor. by apply P_benign. }
    assert (frames P S w1 (world_of (unlink path w1))) as H2.
    { apply unlink_frames; [| done]. intros was Hwas. right.
      unfold fs_is_symlink in Hsym. subst w1. simpl in Hwas.
      rewrite Hwas in Hsym. destruct was; try discriminate. by eexists. }
    destruct (unlink path w1) as [u w2|e w2]; simpl in *.
    + by eapply frames_trans.
    + destruct (is_OSError e); simpl; [| by eapply frames_trans].
      eapply frames_trans; [exact H1 |].
      eapply frames_trans; [exact H2 |]. apply respects_log.
  - destruct (_use_hardlinks self && fs_exists (fs w) (parts path)) eqn:Hh;
      simpl; [| apply frames_refl].
    apply andb_true_iff in Hh as [Hhard _].
    set (w1 := {| fs := fs w; effects := _ |}).
    assert (frames P S w w1) as H1.
    { split; [| done]. eexists [_]. split; [done |].
      repeat constructor. by apply P_benign. }
    assert (frames P S w1 (world_of (unlink path w1))) as H2.
    { apply unlink_frames; [| done]. intros. by left. }
    destruct (unlink path w1) as [u w2|e w2]; simpl in *.
    + by eapply frames_trans.
    + destruct (is_OSError e); simpl; [| by eapply frames_trans].
      eapply frames_trans; [exact H1 |].
      eapply frames_trans; [exact H2 |]. apply respects_log.
Qed.

Lemma respects_remove_empty u path :
  ¬ S (parts path) -> respects P S (remove_empty u path).
Proof.
  intros Hp. unfold remove_empty.
  apply respects_bind; [apply respects_ask |]. intros d.
  apply respects_bind; [apply respects_ask |]. intros a.
  destruct (d && negb a); [| apply respects_ret].
  apply respects_try.
  - apply respects_bind; [apply respects_log |]. intros _.
    apply respects_rmdir; [by apply P_benign | done].
  - intros e h Hh. destruct (is_OSError e); [| discriminate].
    injection Hh as <-. apply respects_log.
Qed.
End Reconciler.

Lemma fs_glob_strictly_under (fs : filesystem) (root_dir p : list string) :
  p ∈ fs_glob fs root_dir <-> strictly_under root_dir p ∧ is_Some (fs !! p).
Proof.
  unfold fs_glob. rewrite list_elem_of_filter, elem_of_elements, elem_of_dom.
  done.
Qed.

Lemma glob_Ok root_dir w paths w' :
  glob root_dir w = Ok paths w' ->
  w' = w
  ∧ paths = mk_path (anchored root_dir) <$> fs_glob (fs w) (parts root_dir)
  ∧ Forall (fun p => strictly_under (parts root_dir) (parts p)) paths.
Proof.
  unfold glob. intros H. apply ask_Ok in H as [-> ->].
  split; [done |]. split; [done |].
  apply Forall_forall. intros p Hp.
  apply list_elem_of_fmap in Hp as (k & -> & Hk). simpl.
  by apply fs_glob_strictly_under in Hk as [Hk _].
Qed.

Section ReconcilerRun.
Context (P : effect -> Prop) (S : list string -> Prop).
Context (self : GoogleAlbumsSync).
Hypothesis P_benign : ∀ e, benign e -> P e.
Hypothesis P_unlink :
  ∀ p was, _use_hardlinks self = true ∨ (∃ target, was = Symlink target) ->
           P (Unlink p was).
Hypothesis S_albums : ∀ q, S q -> ¬ under (parts (_albums_root self)) q.
Hypothesis S_shared : ∀ q, S q -> ¬ under (parts (_shared_albums_root self)) q.

Lemma respects_clean_up root_dir valid_links :
  (∀ q, S q -> ¬ under (parts root_dir) q) ->
  respects P S (_clean_up_stale_links self root_dir valid_links).
Proof.
  intros Hroot. unfold _clean_up_stale_links.
  assert (∀ p, strictly_under (parts root_dir) (parts p) -> ¬ S (parts p))
    as Hout.
  { intros p [Hp _] HS. by eapply Hroot. }
  apply (respects_bind_with P S
           (Forall (fun p => strictly_under (parts root_dir) (parts p)))).
  { apply respects_ask. }
  { intros w paths w' H. by apply glob_Ok in H as (_ & _ & H). }
  intros paths Hpaths. apply respects_bind.
  { eapply respects_for_each; [exact Hpaths |]. intros n p Hp.
    apply respects_remove_stale; auto. }
  intros removed_count.
  apply (respects_bind_with P S
           (Forall (fun p => strictly_under (parts root_dir) (parts p)))).
  { apply respects_ask. }
  { intros w paths' w' H. by apply glob_Ok in H as (_ & _ & H). }
  intros paths' Hpaths'. apply respects_bind; [| intros; apply respects_ret].
  eapply respects_for_each.
  - rewrite merge_sort_Permutation. exact Hpaths'.
  - intros u p Hp. apply respects_remove_empty; auto.
Qed.

Lemma respects_prune valid_links : respects P S (prune self valid_links).
Proof.
  unfold prune. destruct (_ && _); [| apply respects_ret].
  apply respects_bind; [apply respects_ask |]. intros e1.
  apply respects_bind.
  { destruct e1; [by apply respects_clean_up | apply respects_ret]. }
  intros n1. apply respects_bind; [apply respects_ask |]. intros e2.
  apply respects_bind; [| intros; apply respects_ret].
  destruct e2; [by apply respects_clean_up | apply respects_ret].
Qed.

Lemma respects_prepare_roots : respects P S (prepare_roots self).
Proof.
  unfold prepare_roots. apply respects_bind.
  { destruct (negb _); [| apply respects_ret].
    apply respects_bind; [apply respects_ask |]. intros e1.
    apply respects_bind.
    { destruct e1; [| apply respects_ret].
      apply respects_bind; [by apply respects_log |]. intros _.
      apply respects_rmtree; [by apply P_benign | done]. }
    intros _. apply respects_bind; [apply respects_ask |]. intros e2.
    destruct e2; [| apply respects_ret].
    apply respects_bind; [by apply respects_log |]. intros _.
    apply respects_rmtree; [by apply P_benign | done]. }
  intros _. apply respects_bind; [apply respects_ask |]. intros e1.
  apply respects_bind.
  { destruct (negb e1); [| apply respects_ret].
    apply respects_mkdir. by apply P_benign. }
  intros _. apply respects_bind; [apply respects_ask |]. intros e2.
  apply respects_bind.
  { destruct (negb e2); [| apply respects_ret].
    apply respects_mkdir. by apply P_benign. }
  intros _. apply respects_bind; [apply respects_ask |]. intros e3.
  apply respects_ret.
Qed.

(** A whole run respects the frame when the query it makes is one [P]
    accepts and no album file has its link at a path of [S]. *)
Lemma respects_run utils checks db :
  P (GetAlbumFiles (_album_invert self) false) ->
  (∀ q r i n, S q -> r ∈ album_files db (_album_invert self) false ->
              names_of checks utils self i r = Some n ->
              parts (link_file n) ≠ q) ->
  respects P S (create_album_content_links utils checks self db).
Proof.
  intros Hquery Hnames. unfold create_album_content_links.
  apply (respects_bind_with P S (fun re => re = false)).
  { apply respects_prepare_roots. }
  { intros w re w' H. by apply prepare_roots_Ok in H as [H _]. }
  intros re ->.
  apply (respects_bind_with P S
           (fun rows => rows = album_files db (_album_invert self) false)).
  { unfold get_album_files. apply respects_bind; [by apply respects_tell |].
    intros _. apply respects_ret. }
  { intros w rows w' H. unfold get_album_files in H.
    apply bind_Ok in H as (u & w1 & _ & H). by injection H as <- _. }
  intros rows ->. apply respects_bind.
  { eapply (respects_for_each P S
              (fun r => r ∈ album_files db (_album_invert self) false)).
    - apply Forall_forall. auto.
    - intros st r Hr. apply respects_link_row; try done.
      intros i n Hn HS. by eapply Hnames. }
  intros st. apply respects_bind; [apply respects_prune |].
  intros removed_count.
  destruct (_preserve_album_links self); by apply respects_log.
Qed.
End ReconcilerRun.

(** ** An entry in the way that is not a link *)

Lemma replace_link_not_a_link self full_file_name link_file relative_filename w :
  _use_hardlinks self = false ->
  fs_exists (fs w) (parts link_file) = true ->
  fs_is_symlink (fs w) (parts link_file) = false ->
  replace_link self full_file_name link_file relative_filename w
  = Raise FileExistsError
      {| fs := fs w; effects := effects w ++ [Log (NotALink link_file)] |}.
Proof.
  intros Hhard Hex Hsym.
  unfold replace_link, mbind, M_bind, path_exists, is_symlink, ask.
  rewrite Hex, Hsym, Hhard. simpl.
  apply fs_exists_lookup in Hex as [nd Hnd].
  assert (∀ target w1, fs w1 = fs w ->
            symlink_to link_file target w1 = Raise FileExistsError w1) as Hsl.
  { intros target w1 Hw1. unfold symlink_to, change, fs_symlink, check_new_entry.
    by rewrite Hw1, Hnd. }
  destruct (_ntfs_override self); unfold os_symlink; by rewrite Hsl.
Qed.

(** ** A link that is already right *)

Lemma already_correct_mono (self : GoogleAlbumsSync) (fs fs' : filesystem)
    (n : link_names) :
  fs ⊆ fs' -> already_correct self fs n -> already_correct self fs' n.
Proof.
  unfold already_correct. intros Hsub. destruct (_use_hardlinks self).
  - intros (Hl & Hf & Hino).
    split; [apply (fs_exists_mono fs fs'); assumption |].
    split; [apply (fs_exists_mono fs fs'); assumption |].
    rewrite !(st_ino_mono fs fs') by assumption. exact Hino.
  - intros H. exact (lookup_weaken _ _ _ _ H Hsub).
Qed.

Lemma bind_ask {A B : Type} (q : filesystem -> A) (f : A -> M B) (w : World) :
  (ask q ≫= f) w = f (q (fs w)) w.
Proof. reflexivity. Qed.

Lemma bind_mret {A B : Type} (a : A) (f : A -> M B) (w : World) :
  (mret a ≫= f) w = f a w.
Proof. reflexivity. Qed.

Lemma bind_tell {B : Type} (e : effect) (f : unit -> M B) (w : World) :
  (tell e ≫= f) w = f tt {| fs := fs w; effects := effects w ++ [e] |}.
Proof. reflexivity. Qed.

Lemma kept_here (w : World) :
  fs w = fs w ∧ ∃ l, effects w = effects w ++ l ∧ Forall keeps_links l.
Proof. split; [reflexivity |]. exists []. by rewrite app_nil_r. Qed.

Lemma create_link_correct (self : GoogleAlbumsSync) (fs : filesystem)
    (n : link_names) :
  _preserve_album_links self = true ->
  already_correct self fs n ->
  create_link self fs (full_file_name n) (link_file n) (relative_filename n)
  = negb (fs_exists fs (parts (link_file n))).
Proof.
  intros Hpreserve Hcorrect. unfold create_link, already_correct in *.
  rewrite Hpreserve. cbn [andb].
  destruct (_use_hardlinks self).
  - destruct Hcorrect as (Hl & Hf & Hino). rewrite Hl, Hf, Hino.
    rewrite bool_decide_eq_true_2 by reflexivity. reflexivity.
  - destruct (fs_is_symlink_lookup _ _ _ Hcorrect) as [Hsym Hread].
    rewrite Hsym, Hread.
    rewrite bool_decide_eq_true_2 by reflexivity.
    by destruct (fs_exists fs (parts (link_file n))).
Qed.

Lemma make_link_kept self n file_name w :
  _preserve_album_links self = true ->
  already_correct self (fs w) n ->
  let res := make_link self (full_file_name n) (link_file n)
               (relative_filename n) file_name w in
  fs (world_of res) = fs w
  ∧ ∃ l, effects (world_of res) = effects w ++ l ∧ Forall keeps_links l.
Proof.
  intros Hpreserve Hcorrect. cbv zeta.
  unfold make_link, path_exists. rewrite bind_ask.
  destruct (fs_exists (fs w) (parts (full_file_name n))) eqn:Hfull.
  2: { unfold log, tell. cbn [world_of fs effects]. split; [reflexivity |].
       eexists [_]. split; [reflexivity | by repeat constructor]. }
  rewrite bind_ask, (create_link_correct self (fs w) n Hpreserve Hcorrect).
  destruct (fs_exists (fs w) (parts (link_file n))) eqn:Hl; cbn [negb].
  { apply kept_here. }
  unfold replace_link, path_exists. rewrite bind_ask, Hl, bind_mret.
  assert (_use_hardlinks self = false) as Hhard.
  { unfold already_correct in Hcorrect.
    destruct (_use_hardlinks self); [| reflexivity].
    destruct Hcorrect as (Hl' & _). congruence. }
  rewrite Hhard. unfold already_correct in Hcorrect. rewrite Hhard in Hcorrect.
  assert (∀ target, symlink_to (link_file n) target w
                    = Raise FileExistsError w) as Hsl.
  { intros target. unfold symlink_to, change, fs_symlink, check_new_entry.
    by rewrite Hcorrect. }
  unfold os_symlink. destruct (_ntfs_override self); rewrite Hsl;
    apply kept_here.
Qed.

Lemma touch_link_kept checks link_file created_date count w :
  let res := touch_link checks link_file created_date count w in
  fs (world_of res) = fs w
  ∧ (∃ l, effects (world_of res) = effects w ++ l ∧ Forall keeps_links l)
  ∧ ∃ count', res = Ok count' (world_of res).
Proof.
  cbv zeta. unfold touch_link, path_exists. rewrite bind_ask.
  destruct (fs_exists (fs w) (parts link_file)).
  - destruct (utime_supports_follow_symlinks checks).
    + unfold utime. rewrite bind_tell.
      unfold mret, M_ret. cbn [world_of fs effects].
      split; [reflexivity |]. split; [| by eexists].
      eexists [_]. split; [reflexivity | by repeat constructor].
    + rewrite !bind_mret. unfold mret, M_ret. cbn [world_of].
      split; [reflexivity |]. split; [| by eexists].
      exists []. by rewrite app_nil_r.
  - unfold mret, M_ret. cbn [world_of].
    split; [reflexivity |]. split; [| by eexists].
    exists []. by rewrite app_nil_r.
Qed.

Lemma bind_run {A B : Type} (m : M A) (f : A -> M B) (w : World) :
  (m ≫= f) w
  = match m w with Ok a w' => f a w' | Raise e w' => Raise e w' end.
Proof. reflexivity. Qed.

Lemma frames_of_kept (w w' : World) :
  fs w' = fs w ->
  (∃ l, effects w' = effects w ++ l ∧ Forall keeps_links l) ->
  frames keeps_links (fun _ => True) w w'.
Proof.
  intros Hfs Heff. split; [exact Heff |].
  intros p nd _ Hp. rewrite Hfs. exact Hp.
Qed.

Lemma frames_subseteq (P : effect -> Prop) (w w' : World) :
  frames P (fun _ => True) w w' -> fs w ⊆ fs w'.
Proof.
  intros [_ H]. apply map_subseteq_spec. intros p nd Hp.
  exact (H p nd I Hp).
Qed.

(** The loop body for an album file whose link is already right makes
    directories at most. *)
Lemma link_album_file_kept (utils : Utils) (checks : Checks)
    (self : GoogleAlbumsSync) (n : link_names) (created file_name : string)
    (count : nat) (w : World) :
  _preserve_album_links self = true ->
  already_correct self (fs w) n ->
  frames keeps_links (fun _ => True) w
    (world_of (link_album_file utils checks self (full_file_name n)
                 (link_folder n) (link_file n) (relative_filename n)
                 created file_name count w)).
Proof.
  intros Hpreserve Hcorrect.
  assert (∀ w1, already_correct self (fs w1) n ->
            frames keeps_links (fun _ => True) w1
              (world_of
                 ((make_link self (full_file_name n) (link_file n)
                     (relative_filename n) file_name
                   ≫= fun _ => touch_link checks (link_file n)
                                 (string_to_date utils created) count) w1)))
    as Hrest.
  { intros w1 Hc. rewrite bind_run.
    destruct (make_link_kept self n file_name w1 Hpreserve Hc) as [Hfs Heff].
    pose proof (frames_of_kept _ _ Hfs Heff) as Hmake.
    destruct (make_link _ _ _ _ _ w1) as [u w2|e w2]; cbn [world_of] in *;
      [| exact Hmake].
    eapply frames_trans; [exact Hmake |].
    destruct (touch_link_kept checks (link_file n)
                (string_to_date utils created) count w2) as (Hfs' & Heff' & _).
    by apply frames_of_kept. }
  assert (∀ e w1, frames keeps_links (fun _ => True) w w1 ->
            frames keeps_links (fun _ => True) w
              (world_of
                 (match (if is_FileExistsError e
                         then Some (log (DuplicateLink (full_file_name n))
                                    ≫= fun _ => mret count)
                         else None) with
                  | Some h => h w1
                  | None => Raise e w1
                  end))) as Hhandler.
  { intros e w1 Hw1. destruct (is_FileExistsError e); [| exact Hw1].
    eapply frames_trans; [exact Hw1 |].
    unfold log. rewrite bind_tell. unfold mret, M_ret. cbn [world_of].
    split; [| done]. eexists [_]. split; [reflexivity | by repeat constructor]. }
  unfold link_album_file, try_except.
  match goal with
  | |- context [match ?b w with Ok _ _ => _ | Raise _ _ => _ end] =>
    assert (frames keeps_links (fun _ => True) w (world_of (b w))) as Hbody
  end.
  { unfold is_dir. rewrite bind_ask.
    destruct (fs_is_dir (fs w) (parts (link_folder n))); cbn [negb].
    - rewrite bind_mret. by apply Hrest.
    - rewrite bind_run. unfold log. rewrite bind_tell.
      set (w0 := {| fs := fs w; effects := _ |}).
      assert (frames keeps_links (fun _ => True) w w0) as H0.
      { split; [| done]. eexists [_].
        split; [reflexivity | by repeat constructor]. }
      destruct (mkdir (link_folder n) true false w0) as [u w1|e w1] eqn:Hmk.
      + pose proof Hmk as Hmk'. apply mkdir_Ok in Hmk' as [Hsub _].
        assert (frames keeps_links (fun _ => True) w0 w1) as H1.
        { pose proof (respects_mkdir keeps_links (fun _ => True)
                        (link_folder n) true false I w0) as H.
          by rewrite Hmk in H. }
        eapply frames_trans; [exact H0 |].
        eapply frames_trans; [exact H1 |].
        apply Hrest. apply (already_correct_mono self (fs w)); [| assumption].
        exact Hsub.
      + unfold mkdir, change in Hmk.
        destruct (fs_mkdir true false (fs w0) (parts (link_folder n)));
          [| discriminate].
        injection Hmk as _ <-. exact H0. }
  match goal with
  | |- context [match ?b w with Ok _ _ => _ | Raise _ _ => _ end] =>
    destruct (b w) as [a w1|e w1]; cbn [world_of] in *
  end.
  - exact Hbody.
  - by apply Hhandler.
Qed.

Lemma already_correct_lookup (self : GoogleAlbumsSync) (fs : filesystem)
    (n : link_names) :
  already_correct self fs n -> is_Some (fs !! parts (link_file n)).
Proof.
  unfold already_correct. destruct (_use_hardlinks self).
  - intros (Hl & _). by apply fs_exists_lookup.
  - intros ->. by eexists.
Qed.

Lemma remove_stale_valid (self : GoogleAlbumsSync) (valid_links : gset string)
    (removed_count : nat) (path : PurePath) (w : World) :
  str path ∈ valid_links ->
  remove_stale self valid_links removed_count path w = Ok removed_count w.
Proof.
  intros Hin. unfold remove_stale, is_dir. rewrite bind_ask.
  destruct (fs_is_dir (fs w) (parts path)); [reflexivity |].
  rewrite bool_decide_eq_false_2; [reflexivity |]. by intros Hn.
Qed.

(** The loop body for an album file whose link is already right. *)
Lemma link_row_kept (utils : Utils) (checks : Checks) (self : GoogleAlbumsSync)
    (st : link_state) (r : AlbumFile.t) (n : link_names) (w : World) :
  _preserve_album_links self = true ->
  names_of checks utils self (next_album_item st r) r = Some n ->
  already_correct self (fs w) n ->
  let res := link_row utils checks self st r w in
  frames keeps_links (fun _ => True) w (world_of res)
  ∧ (∀ st' w', res = Ok st' w' ->
       str (link_file n) ∈ valid_links st'
       ∧ current_rid st' = AlbumFile.rid r
       ∧ album_item st' = next_album_item st r).
Proof.
  intros Hpreserve Hnames Hcorrect res.
  assert (∃ w0, fs w0 = fs w
                ∧ frames keeps_links (fun _ => True) w w0
                ∧ res = (link_album_file utils checks self (full_file_name n)
                           (link_folder n) (link_file n) (relative_filename n)
                           (AlbumFile.created r)
                           (slice_to (AlbumFile.file_name r)
                              (max_filename checks))
                           (count st)
                         ≫= fun count =>
                              mret {| count := count;
                                      album_item := next_album_item st r;
                                      current_rid := AlbumFile.rid r;
                                      valid_links :=
                                        {[str (link_file n)]} ∪ valid_links st |})
                          w0) as (w0 & Hfs0 & Hw0 & Hres).
  { subst res. unfold link_row. rewrite bind_run.
    unfold next_album_item in *.
    destruct (String.eqb (current_rid st) (AlbumFile.rid r)).
    - exists w. split; [reflexivity |]. split; [apply frames_refl |].
      unfold mret at 1, M_ret at 1. rewrite Hnames, Hpreserve. reflexivity.
    - unfold put_album_downloaded. rewrite bind_tell.
      unfold mret at 1, M_ret at 1. rewrite Hnames, Hpreserve.
      eexists. split; [| split; [| reflexivity]]; [reflexivity |].
      split; [| done]. eexists [_].
      split; [reflexivity | by repeat constructor]. }
  assert (already_correct self (fs w0) n) as Hcorrect0
    by (rewrite Hfs0; exact Hcorrect).
  pose proof (link_album_file_kept utils checks self n (AlbumFile.created r)
                (slice_to (AlbumFile.file_name r) (max_filename checks))
                (count st) w0 Hpreserve Hcorrect0) as Hkept.
  rewrite Hres, bind_run.
  destruct (link_album_file _ _ _ _ _ _ _ _ _ _ w0) as [c w1|e w1];
    cbn [world_of] in *.
  - split; [by eapply frames_trans |].
    unfold mret, M_ret. intros st' w' [= <- _].
    cbn [valid_links current_rid album_item].
    split; [| by split].
    apply elem_of_union_l, elem_of_singleton. reflexivity.
  - split; [by eapply frames_trans | discriminate].
Qed.

Lemma links_correct_mono (checks : Checks) (utils : Utils)
    (self : GoogleAlbumsSync) (fs fs' : filesystem) (rows : list AlbumFile.t)
    (rid : string) (item : nat) :
  fs ⊆ fs' ->
  links_correct checks utils self fs rows rid item ->
  links_correct checks utils self fs' rows rid item.
Proof.
  intros Hsub. revert rid item.
  induction rows as [|r rows IH]; intros rid item; [done |].
  cbn [links_correct]. intros [(n & Hn & Hc) Hrest].
  split; [| by apply IH].
  exists n. split; [exact Hn |].
  exact (already_correct_mono self fs fs' n Hsub Hc).
Qed.

(** The whole loop over album files whose links are all right already
    makes directories at most. *)
Lemma link_rows_kept (utils : Utils) (checks : Checks)
    (self : GoogleAlbumsSync) (rows : list AlbumFile.t) (st : link_state)
    (w : World) :
  _preserve_album_links self = true ->
  links_correct checks utils self (fs w) rows (current_rid st) (album_item st) ->
  frames keeps_links (fun _ => True) w
    (world_of (for_each (link_row utils checks self) rows st w)).
Proof.
  intros Hpreserve. revert st w.
  induction rows as [|r rows IH]; intros st w Hrows.
  - apply frames_refl.
  - cbn [for_each]. rewrite bind_run.
    cbn [links_correct] in Hrows. destruct Hrows as [(n & Hn & Hc) Hrest].
    destruct (link_row_kept utils checks self st r n w Hpreserve Hn Hc)
      as (Hstep & Hnext).
    destruct (link_row utils checks self st r w) as [st1 w1|e w1];
      cbn [world_of] in *; [| exact Hstep].
    destruct (Hnext st1 w1 eq_refl) as (_ & Hrid & Hitem).
    eapply frames_trans; [exact Hstep |].
    apply IH. rewrite Hrid, Hitem.
    apply (links_correct_mono checks utils self (fs w)); [| exact Hrest].
    exact (frames_subseteq _ _ _ Hstep).
Qed.

(** ** The pruning pass *)

Lemma not_dir_entry (fs : filesystem) (k : list string) :
  fs_is_dir fs k = false -> fs !! k ≠ Some Dir.
Proof.
  intros Hd Hk. unfold fs_is_dir in Hd. by rewrite (stat_dir _ _ Hk) in Hd.
Qed.

Lemma file_exists (fs : filesystem) (k : list string) (i : nat) :
  fs !! k = Some (File i) -> fs_exists fs k = true.
Proof. intros Hk. unfold fs_exists. by rewrite (stat_file _ _ _ Hk). Qed.

(** The first loop body always returns, and changes the file system as
    [stale_step] says. *)
Lemma remove_stale_run (self : GoogleAlbumsSync) (valid_links : gset string)
    (removed_count : nat) (path : PurePath) (w : World) :
  ∃ n l, remove_stale self valid_links removed_count path w
         = Ok n {| fs := stale_step self valid_links (fs w) path;
                   effects := effects w ++ l |}.
Proof.
  assert (∀ n : nat,
            Ok n w = Ok n {| fs := fs w; effects := effects w ++ [] |})
    as Hsame.
  { intros n. rewrite app_nil_r. by destruct w. }
  unfold remove_stale, stale_step, is_dir. rewrite bind_ask.
  destruct (fs_is_dir (fs w) (parts path)) eqn:Hdir.
  { exists removed_count, []. apply Hsame. }
  destruct (bool_decide (str path ∉ valid_links)).
  2: { exists removed_count, []. apply Hsame. }
  unfold try_except, is_symlink, path_exists. rewrite !bind_ask.
  destruct (fs_is_symlink (fs w) (parts path)
            || _use_hardlinks self && fs_exists (fs w) (parts path)) eqn:Hgo.
  2: { exists removed_count, []. apply Hsame. }
  unfold log. rewrite bind_tell, bind_run.
  unfold unlink, change, fs_unlink. cbn [fs effects].
  pose proof (not_dir_entry _ _ Hdir) as Hnd.
  destruct (fs w !! parts path) as [[]|] eqn:E; try done.
  - eexists _, [_; _]. unfold mret, M_ret. by rewrite <- app_assoc.
  - eexists _, [_; _]. unfold mret, M_ret. by rewrite <- app_assoc.
  - exfalso. unfold fs_is_symlink in Hgo. rewrite E in Hgo.
    cbn [orb] in Hgo. apply andb_true_iff in Hgo as [_ Hex].
    assert (is_Some (fs w !! parts path)) as [x Hx].
    { apply fs_exists_lookup. exact Hex. }
    congruence.
Qed.

(** The second loop body always returns, and changes the file system as
    [empty_step] says. *)
Lemma remove_empty_run (u : unit) (path : PurePath) (w : World) :
  ∃ l, remove_empty u path w
       = Ok tt {| fs := empty_step (fs w) path; effects := effects w ++ l |}.
Proof.
  assert (Ok tt w = Ok tt {| fs := fs w; effects := effects w ++ [] |})
    as Hsame.
  { rewrite app_nil_r. by destruct w. }
  unfold remove_empty, empty_step, is_dir. rewrite !bind_ask.
  destruct (fs w !! parts path) as [nd|] eqn:E.
  - destruct nd.
    + unfold fs_is_dir, any_iterdir. rewrite (stat_dir _ _ E).
      destruct (children (fs w) (parts path)) as [|c cs] eqn:Hc; cbn [andb negb].
      * unfold try_except, log. rewrite bind_tell.
        unfold rmdir, change, fs_rmdir. cbn [fs effects]. rewrite E, Hc.
        eexists [_; _]. by rewrite <- app_assoc.
      * exists []. exact Hsame.
    + destruct (fs_is_dir (fs w) (parts path)
                && negb (any_iterdir (fs w) (parts path)));
        [| exists []; exact Hsame].
      unfold try_except, log. rewrite bind_tell.
      unfold rmdir, change, fs_rmdir. cbn [fs effects]. rewrite E.
      cbn [is_OSError]. unfold tell. cbn [fs effects].
      eexists [_; _]. by rewrite <- app_assoc.
    + destruct (fs_is_dir (fs w) (parts path)
                && negb (any_iterdir (fs w) (parts path)));
        [| exists []; exact Hsame].
      unfold try_except, log. rewrite bind_tell.
      unfold rmdir, change, fs_rmdir. cbn [fs effects]. rewrite E.
      cbn [is_OSError]. unfold tell. cbn [fs effects].
      eexists [_; _]. by rewrite <- app_assoc.
  - destruct (fs_is_dir (fs w) (parts path)
              && negb (any_iterdir (fs w) (parts path)));
      [| exists []; exact Hsame].
    unfold try_except, log. rewrite bind_tell.
    unfold rmdir, change, fs_rmdir. cbn [fs effects]. rewrite E.
    cbn [is_OSError]. unfold tell. cbn [fs effects].
    eexists [_; _]. by rewrite <- app_assoc.
Qed.

(** A loop whose body always returns and acts on the file system as
    [step] says acts as the fold of [step]. *)
Lemma for_each_run {A St : Type} (body : St -> A -> M St)
    (step : filesystem -> A -> filesystem) (l : list A) (s : St) (w : World) :
  (∀ s x w, ∃ s' eff, body s x w
                      = Ok s' {| fs := step (fs w) x;
                                 effects := effects w ++ eff |}) ->
  ∃ s' eff, for_each body l s w
            = Ok s' {| fs := foldl step (fs w) l;
                       effects := effects w ++ eff |}.
Proof.
  intros Hbody. revert s w. induction l as [|x l IH]; intros s w.
  - exists s, []. cbn [for_each foldl]. unfold mret, M_ret.
    rewrite app_nil_r. by destruct w.
  - cbn [for_each foldl]. rewrite bind_run.
    destruct (Hbody s x w) as (s1 & eff1 & ->).
    destruct (IH s1 {| fs := step (fs w) x; effects := effects w ++ eff1 |})
      as (s2 & eff2 & ->).
    exists s2, (eff1 ++ eff2). cbn [fs effects]. by rewrite app_assoc.
Qed.

(** [_clean_up_stale_links] always returns: the first loop folds
    [stale_step] over the paths below the root, the second folds
    [empty_step] over what is then below the root, longer paths first. *)
Lemma clean_up_stale_links_run (self : GoogleAlbumsSync) (root_dir : PurePath)
    (valid_links : gset string) (w : World) :
  let fs1 := foldl (stale_step self valid_links) (fs w)
               (mk_path (anchored root_dir) <$> fs_glob (fs w) (parts root_dir)) in
  let fs2 := foldl empty_step fs1
               (merge_sort longer_first
                  (mk_path (anchored root_dir) <$> fs_glob fs1 (parts root_dir))) in
  ∃ n eff, _clean_up_stale_links self root_dir valid_links w
           = Ok n {| fs := fs2; effects := effects w ++ eff |}.
Proof.
  intros fs1 fs2. unfold _clean_up_stale_links, glob. rewrite bind_ask, bind_run.
  destruct (for_each_run (remove_stale self valid_links)
              (stale_step self valid_links)
              (mk_path (anchored root_dir) <$> fs_glob (fs w) (parts root_dir))
              0%nat w (remove_stale_run self valid_links))
    as (n & eff1 & ->).
  rewrite bind_ask, bind_run. cbn [fs effects]. fold fs1.
  destruct (for_each_run remove_empty empty_step
              (merge_sort longer_first
                 (mk_path (anchored root_dir) <$> fs_glob fs1 (parts root_dir)))
              tt {| fs := fs1; effects := effects w ++ eff1 |})
    as ([] & eff2 & ->).
  { intros u x w0. destruct (remove_empty_run u x w0) as [l Hl]. eauto. }
  exists n, (eff1 ++ eff2). unfold mret, M_ret. cbn [fs effects].
  by rewrite app_assoc.
Qed.

Lemma fs_glob_NoDup (fs : filesystem) (root_dir : list string) :
  NoDup (fs_glob fs root_dir).
Proof. unfold fs_glob. apply NoDup_filter, NoDup_elements. Qed.

Lemma stale_step_cases (self : GoogleAlbumsSync) (valid_links : gset string)
    (cur : filesystem) (path : PurePath) :
  stale_step self valid_links cur path = cur
  ∨ (fs_is_dir cur (parts path) = false
     ∧ stale_step self valid_links cur path = delete (parts path) cur).
Proof.
  unfold stale_step. destruct (fs_is_dir cur (parts path)); [by left |].
  destruct (bool_decide _); [| by left].
  destruct (_ || _); [by right | by left].
Qed.

Lemma stale_step_removes (self : GoogleAlbumsSync) (valid_links : gset string)
    (cur : filesystem) (path : PurePath) :
  str path ∉ valid_links ->
  fs_is_dir cur (parts path) = false ->
  fs_is_symlink cur (parts path) = true
  ∨ (_use_hardlinks self = true ∧ is_Some (cur !! parts path)) ->
  stale_step self valid_links cur path !! parts path = None.
Proof.
  intros Hvalid Hdir Hlink. unfold stale_step.
  rewrite Hdir, bool_decide_eq_true_2 by exact Hvalid.
  assert (fs_is_symlink cur (parts path)
          || _use_hardlinks self && fs_exists cur (parts path) = true) as ->.
  { destruct Hlink as [->|[Hhard [nd Hnd]]]; [reflexivity |].
    rewrite Hhard. cbn [andb]. unfold fs_is_symlink. rewrite Hnd.
    destruct nd.
    - by apply not_dir_entry in Hdir.
    - by rewrite (file_exists _ _ _ Hnd).
    - reflexivity. }
  apply lookup_delete_eq.
Qed.

(** The first loop: nothing but stale entries goes, every stale entry of
    the list goes, and which paths are directories does not change. *)
Lemma stale_fold (self : GoogleAlbumsSync) (valid_links : gset string)
    (anch : bool) (ks : list (list string)) (cur : filesystem) :
  NoDup ks ->
  let fin := foldl (stale_step self valid_links) cur (mk_path anch <$> ks) in
  fin ⊆ cur
  ∧ (∀ k, fs_is_dir fin k = fs_is_dir cur k)
  ∧ (∀ k, k ∉ ks -> fin !! k = cur !! k)
  ∧ (∀ k, k ∈ ks ->
          str (mk_path anch k) ∉ valid_links ->
          fs_is_dir cur k = false ->
          fs_is_symlink cur k = true
          ∨ (_use_hardlinks self = true ∧ is_Some (cur !! k)) ->
          fin !! k = None).
Proof.
  revert cur. induction ks as [|k0 ks IH]; intros cur Hnd; cbn [fmap list_fmap foldl].
  - split; [reflexivity |]. split; [done |]. split; [done |].
    intros k Hk. by apply not_elem_of_nil in Hk.
  - apply NoDup_cons in Hnd as [Hk0 Hnd].
    set (cur1 := stale_step self valid_links cur (mk_path anch k0)).
    destruct (IH cur1 Hnd) as (Hsub & Hdirs & Hout & Hgone).
    assert (cur1 ⊆ cur ∧ (∀ k, fs_is_dir cur1 k = fs_is_dir cur k)
            ∧ (∀ k, k ≠ k0 -> cur1 !! k = cur !! k)) as (Hsub1 & Hdirs1 & Hout1).
    { destruct (stale_step_cases self valid_links cur (mk_path anch k0))
        as [E|[Hd E]]; fold cur1 in E; rewrite E; cbn [parts] in *.
      - split; [reflexivity |]. split; done.
      - split; [apply delete_subseteq |].
        split; [intros k; by apply fs_is_dir_delete |].
        intros k Hk. by apply lookup_delete_ne. }
    split; [by etrans |].
    split; [intros k; by rewrite Hdirs, Hdirs1 |].
    split.
    + intros k Hk. apply not_elem_of_cons in Hk as [Hk Hks].
      by rewrite Hout, Hout1.
    + intros k Hk Hvalid Hdir Hlink.
      destruct (decide (k = k0)) as [->|Hne].
      * rewrite (Hout k0 Hk0).
        by apply (stale_step_removes self valid_links cur (mk_path anch k0)).
      * apply elem_of_cons in Hk as [Hk|Hk]; [done |].
        apply Hgone; [done | done | by rewrite Hdirs1 |].
        unfold fs_is_symlink in *. by rewrite (Hout1 k Hne).
Qed.

Lemma children_elem (fs : filesystem) (p c : list string) :
  c ∈ children fs p <-> is_child p c ∧ is_Some (fs !! c).
Proof.
  unfold children. by rewrite list_elem_of_filter, elem_of_elements, elem_of_dom.
Qed.

Lemma children_nonempty (fs : filesystem) (p : list string) :
  children fs p ≠ [] -> ∃ c, is_child p c ∧ is_Some (fs !! c).
Proof.
  destruct (children fs p) as [|c cs] eqn:E; [done |]. intros _.
  exists c. apply children_elem. rewrite E. apply elem_of_cons. by left.
Qed.

Lemma is_child_snoc (p c : list string) :
  is_child p c -> ∃ x, c = p ++ [x].
Proof.
  intros [Hne <-]. exists (List.last c ""). by apply app_removelast_last.
Qed.

Lemma is_child_neq (p c : list string) : is_child p c -> c ≠ p.
Proof.
  intros H ->. apply is_child_snoc in H as [x Hx].
  apply (f_equal length) in Hx. rewrite length_app in Hx. simpl in Hx. lia.
Qed.

Lemma empty_step_cases (cur : filesystem) (path : PurePath) :
  empty_step cur path = cur
  ∨ (cur !! parts path = Some Dir
     ∧ empty_step cur path = delete (parts path) cur).
Proof.
  unfold empty_step. destruct (cur !! parts path) as [[]|]; try by left.
  destruct (children cur (parts path)); [by right | by left].
Qed.

Lemma empty_step_kept (cur : filesystem) (path : PurePath) :
  empty_step cur path !! parts path = Some Dir ->
  empty_step cur path = cur
  ∧ ∃ c, is_child (parts path) c ∧ is_Some (cur !! c).
Proof.
  unfold empty_step. destruct (cur !! parts path) as [[]|] eqn:E; try congruence.
  destruct (children cur (parts path)) as [|c cs] eqn:Hc.
  - by rewrite lookup_delete_eq.
  - intros _. split; [reflexivity |]. apply children_nonempty. by rewrite Hc.
Qed.

(** The second loop, over paths none of which comes before one of its
    children: only directories go, and a directory of the list that is
    left has something in it. *)
Lemma empty_fold (ps : list PurePath) (cur : filesystem) :
  NoDup (parts <$> ps) ->
  StronglySorted (fun a b => ¬ is_child (parts a) (parts b)) ps ->
  let fin := foldl empty_step cur ps in
  fin ⊆ cur
  ∧ (∀ k, k ∉ parts <$> ps -> fin !! k = cur !! k)
  ∧ (∀ k nd, cur !! k = Some nd -> nd ≠ Dir -> fin !! k = Some nd)
  ∧ (∀ k, k ∈ parts <$> ps -> fin !! k = Some Dir ->
          ∃ c, is_child k c ∧ is_Some (fin !! c)).
Proof.
  revert cur. induction ps as [|p ps IH]; intros cur Hnd Hsorted;
    cbn [fmap list_fmap foldl].
  - split; [reflexivity |]. split; [done |]. split; [done |].
    intros k Hk. by apply not_elem_of_nil in Hk.
  - cbn [fmap list_fmap] in Hnd. apply NoDup_cons in Hnd as [Hp Hnd].
    apply StronglySorted_inv in Hsorted as [Hsorted Hhead].
    set (cur1 := empty_step cur p).
    destruct (IH cur1 Hnd Hsorted) as (Hsub & Hout & Hfiles & Hfull).
    assert (cur1 ⊆ cur ∧ (∀ k, k ≠ parts p -> cur1 !! k = cur !! k)
            ∧ (∀ k nd, cur !! k = Some nd -> nd ≠ Dir -> cur1 !! k = Some nd))
      as (Hsub1 & Hout1 & Hfiles1).
    { destruct (empty_step_cases cur p) as [E|[Hd E]]; fold cur1 in E;
        rewrite E.
      - split; [reflexivity |]. split; done.
      - split; [apply delete_subseteq |].
        split; [intros k Hk; by apply lookup_delete_ne |].
        intros k nd Hk Hnd'. rewrite lookup_delete_ne; [done |].
        intros <-. congruence. }
    split; [by etrans |]. split; [| split].
    + intros k Hk. apply not_elem_of_cons in Hk as [Hk Hks].
      by rewrite Hout, Hout1.
    + intros k nd Hk Hnd'. apply Hfiles; [| done]. by apply Hfiles1.
    + intros k Hk Hdir.
      apply elem_of_cons in Hk as [->|Hk]; [| by apply Hfull].
      rewrite (Hout _ Hp) in Hdir.
      apply empty_step_kept in Hdir as [Hsame (c & Hc & Hsome)].
      exists c. split; [done |].
      rewrite Hout.
      * unfold cur1. rewrite Hsame. exact Hsome.
      * intros Hin. apply list_elem_of_fmap in Hin as (b & -> & Hb).
        rewrite Forall_forall in Hhead. by apply (Hhead b Hb).
Qed.

Lemma string_length_app (s1 s2 : string) :
  String.length (s1 +:+ s2) = (String.length s1 + String.length s2)%nat.
Proof. induction s1 as [|c s1 IH]; simpl; [done | by rewrite IH]. Qed.

Lemma concat_snoc_length (l : list string) (x : string) :
  l ≠ [] ->
  String.length (String.concat "/" (l ++ [x]))
  = (String.length (String.concat "/" l) + 1 + String.length x)%nat.
Proof.
  induction l as [|a l IH]; [done |]. intros _.
  destruct l as [|b l].
  - cbn [app String.concat]. rewrite !string_length_app. simpl. lia.
  - change (String.concat "/" ((a :: b :: l) ++ [x]))
      with (a +:+ "/" +:+ String.concat "/" ((b :: l) ++ [x])).
    change (String.concat "/" (a :: b :: l))
      with (a +:+ "/" +:+ String.concat "/" (b :: l)).
    rewrite !string_length_app, IH by done. lia.
Qed.

(** A path is written shorter than the paths directly inside it. *)
Lemma str_child_longer (anch : bool) (k c : list string) :
  k ≠ [] -> is_child k c ->
  (String.length (str (mk_path anch k))
   < String.length (str (mk_path anch c)))%nat.
Proof.
  intros Hk Hc. apply is_child_snoc in Hc as [x ->].
  unfold str. cbn [anchored parts]. destruct anch.
  - rewrite !string_length_app, concat_snoc_length by done. lia.
  - destruct k as [|a k]; [done |]. cbn [app].
    change (a :: k ++ [x]) with ((a :: k) ++ [x]).
    rewrite concat_snoc_length by done. lia.
Qed.

#[global] Instance longer_first_total : Total longer_first.
Proof. intros a b. unfold longer_first. lia. Qed.

#[global] Instance longer_first_trans : Transitive longer_first.
Proof. intros a b c. unfold longer_first. lia. Qed.

Lemma StronglySorted_impl_in {A : Type} (R R' : relation A) (l : list A) :
  StronglySorted R l ->
  (∀ a b, a ∈ l -> b ∈ l -> R a b -> R' a b) ->
  StronglySorted R' l.
Proof.
  induction 1 as [|a l Hl IH Ha]; intros Himpl; constructor.
  - apply IH. intros x y Hx Hy. apply Himpl; by right.
  - rewrite Forall_forall in *. intros b Hb.
    apply Himpl; [by left | by right | by apply Ha].
Qed.

(** The order of the second loop never puts a path before one of its
    children. *)
Lemma sorted_children_first (anch : bool) (ks : list (list string)) :
  Forall (fun k => k ≠ []) ks ->
  StronglySorted (fun a b => ¬ is_child (parts a) (parts b))
    (merge_sort longer_first (mk_path anch <$> ks)).
Proof.
  intros Hks.
  apply (StronglySorted_impl_in longer_first);
    [apply StronglySorted_merge_sort; apply _ |].
  intros a b Ha Hb Hab Hchild.
  rewrite merge_sort_Permutation in Ha, Hb.
  apply list_elem_of_fmap in Ha as (ka & -> & Hka).
  apply list_elem_of_fmap in Hb as (kb & -> & Hkb).
  cbn [parts] in Hchild. rewrite Forall_forall in Hks.
  pose proof (str_child_longer anch ka kb (Hks ka Hka) Hchild).
  unfold longer_first in Hab. lia.
Qed.

Lemma strictly_under_nonempty (root k : list string) :
  strictly_under root k -> k ≠ [].
Proof.
  intros [Hpre Hne] ->. apply Hne. symmetry. by apply prefix_nil_inv.
Qed.

(** A call of [_clean_up_stale_links] on a root always returns;
    afterwards every entry below the root that was, when the call began,
    a symbolic link not leading to a directory (or, in hardlink mode,
    anything but a directory or a link to one) and whose path is not in
    the valid-link set is gone, nothing was added, and no directory below
    the root is left empty. *)
Lemma clean_up_stale_links_call self root_dir valid_links w :
  ∃ removed_count w',
    _clean_up_stale_links self root_dir valid_links w = Ok removed_count w'
    ∧ fs w' ⊆ fs w
    ∧ (∀ k, stale self valid_links root_dir (fs w) k -> fs w' !! k = None)
    ∧ (∀ k, strictly_under (parts root_dir) k ->
            fs w' !! k = Some Dir ->
            ∃ c, is_child k c ∧ is_Some (fs w' !! c)).
Proof.
  - destruct (clean_up_stale_links_run self root_dir valid_links w)
      as (n & eff & Hrun).
    set (ks := fs_glob (fs w) (parts root_dir)) in *.
    set (fs1 := foldl (stale_step self valid_links) (fs w)
                  (mk_path (anchored root_dir) <$> ks)) in *.
    set (ks1 := fs_glob fs1 (parts root_dir)) in *.
    set (ps := merge_sort longer_first (mk_path (anchored root_dir) <$> ks1))
      in *.
    destruct (stale_fold self valid_links (anchored root_dir) ks (fs w)
                (fs_glob_NoDup _ _)) as (Hsub1 & _ & _ & Hgone).
    fold fs1 in Hsub1, Hgone.
    assert (parts <$> ps ≡ₚ ks1) as Hperm.
    { unfold ps. rewrite merge_sort_Permutation, <- list_fmap_compose.
      by rewrite list_fmap_id. }
    assert (NoDup (parts <$> ps)) as Hnd.
    { rewrite Hperm. apply fs_glob_NoDup. }
    assert (StronglySorted (fun a b => ¬ is_child (parts a) (parts b)) ps)
      as Hsorted.
    { apply sorted_children_first. apply Forall_forall. intros k Hk.
      apply fs_glob_strictly_under in Hk as [Hk _].
      by eapply strictly_under_nonempty. }
    destruct (empty_fold ps fs1 Hnd Hsorted) as (Hsub2 & _ & _ & Hfull).
    eexists n, _. split; [exact Hrun |]. cbn [fs].
    split; [by etrans |]. split.
    + intros k (Hunder & Hvalid & Hdir & Hlink).
      eapply lookup_weaken_None; [| exact Hsub2].
      apply Hgone; try done.
      apply fs_glob_strictly_under. split; [done |].
      destruct Hlink as [Hsym|[_ Hsome]]; [| done].
      unfold fs_is_symlink in Hsym.
      destruct (fs w !! k) as [nd|]; [by eexists | done].
    + intros k Hunder Hdir. apply Hfull; [| done].
      rewrite Hperm. apply fs_glob_strictly_under. split; [done |].
      exists Dir. by eapply lookup_weaken.
Qed.

(** * Further properties *)

(** ** The media rows of [fetch_album_contents] *)

Lemma put_media_row_calls_app (l1 l2 : list event) :
  put_media_row_calls (l1 ++ l2)
  = put_media_row_calls l1 ++ put_media_row_calls l2.
Proof. apply omap_app. Qed.

Lemma media_rows_items (self : GoogleAlbumsSync) (album_id : string)
    (add : bool) (items : list GooglePhotosMedia.t) (st : fetch_state) :
  ∃ l, trace (fetch_db (foldl (fetch_item self album_id add) st items))
       = trace (fetch_db st) ++ l
       ∧ put_media_row_calls l
         = if add
           then GooglePhotosMedia.id <$> List.filter (recorded self) items
           else [].
Proof.
  revert st. induction items as [|m items IH]; intros st; simpl.
  - exists []. rewrite app_nil_r. by destruct add.
  - destruct (IH (fetch_item self album_id add st m)) as (l & Ht & Hc).
    rewrite Ht. unfold fetch_item, recorded.
    destruct (negb (include_video self) && GooglePhotosMedia.is_video m);
      simpl.
    + eexists (_ :: l). rewrite <- app_assoc. split; [done |]. exact Hc.
    + destruct add; simpl.
      * eexists (_ :: _ :: l). rewrite <- !app_assoc. split; [done |].
        simpl. by rewrite Hc.
      * eexists (_ :: l). rewrite <- app_assoc. split; [done |]. exact Hc.
Qed.

Lemma media_rows_pages (self : GoogleAlbumsSync) (album_id : string)
    (add : bool) (responses : list media_response) (st : fetch_state) :
  ∃ l, trace (fetch_db (fetch_pages self album_id add responses st))
       = trace (fetch_db st) ++ l
       ∧ put_media_row_calls l
         = if add
           then GooglePhotosMedia.id
                  <$> List.filter (recorded self) (listed_media responses)
           else [].
Proof.
  revert st. induction responses as [|r rest IH]; intros st; simpl.
  - exists []. rewrite app_nil_r. by destruct add.
  - destruct (media_ok r); simpl;
      [| exists []; rewrite app_nil_r; by destruct add].
    destruct (mediaItems r) as [|m items] eqn:Hitems.
    + destruct (truthy_token (media_nextPageToken r)); simpl.
      * match goal with
        | |- context [fetch_pages _ _ _ _ ?s] =>
          destruct (IH s) as (l & Ht & Hc)
        end.
        simpl in Ht. exists (LogEmptyPage :: l).
        rewrite Ht, <- app_assoc. by split.
      * exists []. rewrite app_nil_r. by destruct add.
    + destruct (media_rows_items self album_id add (m :: items) st)
        as (l1 & Ht1 & Hc1).
      destruct (truthy_token (media_nextPageToken r)).
      * destruct (IH (foldl (fetch_item self album_id add) st (m :: items)))
          as (l2 & Ht2 & Hc2).
        simpl in Ht1, Ht2.
        exists (l1 ++ l2). rewrite Ht2, Ht1, <- app_assoc. split; [done |].
        rewrite put_media_row_calls_app, Hc1, Hc2.
        destruct add; [| done].
        by rewrite <- fmap_app, <- List.filter_app.
      * exists l1. split; [exact Ht1 |]. by rewrite app_nil_r.
Qed.

Lemma fetch_media_rows (utils : Utils) (self : GoogleAlbumsSync)
    (api : RestClient) (album_id : string) (add : bool) (db : LocalData) :
  ∃ l, trace (fetch_album_contents utils self api album_id add db).2
       = trace db ++ FetchAlbumContents album_id add :: l
       ∧ put_media_row_calls l
         = if add
           then GooglePhotosMedia.id
                  <$> List.filter (recorded self)
                        (listed_media (mediaItems_search api album_id))
           else [].
Proof.
  unfold fetch_album_contents. simpl.
  match goal with
  | |- context [fetch_pages ?s ?a ?b ?rs ?st] =>
    destruct (media_rows_pages s a b rs st) as (l & Ht & Hc)
  end.
  simpl in Ht. exists l. by rewrite Ht, <- app_assoc.
Qed.

(** X1: [fetch_album_contents] never touches the table of album rows;
    with [add_media_items] it writes one media row for each item it
    records, in the order of the listing, and without it it writes no
    media row at all. *)
Theorem fetch_album_contents_media_rows (utils : Utils)
    (self : GoogleAlbumsSync) (api : RestClient) (album_id : string)
    (add : bool) (db : LocalData) :
  let r := fetch_album_contents utils self api album_id add db in
  albums r.2 = albums db
  ∧ ∃ l, trace r.2 = trace db ++ FetchAlbumContents album_id add :: l
         ∧ put_media_row_calls l
           = if add
             then GooglePhotosMedia.id
                    <$> List.filter (recorded self)
                          (listed_media (mediaItems_search api album_id))
             else [].
Proof.
  intros r. split.
  - apply (fetch_album_contents_spec utils self api album_id add db).
  - apply fetch_media_rows.
Qed.

(** ** Empty pages *)

Lemma listed_media_gap (pre rest : list media_response) (r : media_response) :
  media_ok r = true -> mediaItems r = [] ->
  truthy_token (media_nextPageToken r) = true ->
  listed_media (pre ++ r :: rest) = listed_media (pre ++ rest).
Proof.
  intros Hok Hitems Htoken. induction pre as [|p pre IH]; simpl.
  - by rewrite Hok, Hitems, Htoken.
  - by rewrite IH.
Qed.

(** X2: an empty page that carries a next-page token does not end the
    listing of an album: the date range, the album files and the media
    rows recorded are those of the listing without that page. *)
Theorem empty_page_with_token_is_passed_over (utils : Utils)
    (self : GoogleAlbumsSync) (api1 api2 : RestClient) (album_id : string)
    (add : bool) (db : LocalData) (pre rest : list media_response)
    (r : media_response) :
  media_ok r = true -> mediaItems r = [] ->
  truthy_token (media_nextPageToken r) = true ->
  mediaItems_search api1 album_id = pre ++ r :: rest ->
  mediaItems_search api2 album_id = pre ++ rest ->
  let r1 := fetch_album_contents utils self api1 album_id add db in
  let r2 := fetch_album_contents utils self api2 album_id add db in
  r1.1 = r2.1
  ∧ put_album_file_calls (trace r1.2) = put_album_file_calls (trace r2.2)
  ∧ put_media_row_calls (trace r1.2) = put_media_row_calls (trace r2.2).
Proof.
  intros Hok Hitems Htoken H1 H2 r1 r2.
  pose proof (listed_media_gap pre rest r Hok Hitems Htoken) as Hgap.
  pose proof (fetch_album_contents_spec utils self api1 album_id add db)
    as (Hf1 & Hl1 & _ & l1 & Ht1 & _ & Hc1).
  pose proof (fetch_album_contents_spec utils self api2 album_id add db)
    as (Hf2 & Hl2 & _ & l2 & Ht2 & _ & Hc2).
  pose proof (fetch_media_rows utils self api1 album_id add db)
    as (m1 & Hm1 & Hr1).
  pose proof (fetch_media_rows utils self api2 album_id add db)
    as (m2 & Hm2 & Hr2).
  fold r1 in Hf1, Hl1, Ht1, Hm1. fold r2 in Hf2, Hl2, Ht2, Hm2.
  unfold observed_dates in *. rewrite H1, Hgap in *. rewrite H2 in *.
  split; [| split].
  - destruct r1 as [[f1 e1] d1], r2 as [[f2 e2] d2]. simpl in *. congruence.
  - rewrite Ht1, Ht2, !put_album_file_calls_app. simpl. congruence.
  - rewrite Hm1, Hm2, !put_media_row_calls_app. simpl. congruence.
Qed.

Lemma empty_page_with_token_is_passed_over_witness :
  let self := sample_self false true false false None in
  let r1 := fetch_album_contents sample_utils self
              (with_pages [photo_page "p" (date 2020 1 1); gap_page;
                           photo_page "q" (date 2020 6 15)])
              "a" true empty_store in
  let r2 := fetch_album_contents sample_utils self
              (with_pages [photo_page "p" (date 2020 1 1);
                           photo_page "q" (date 2020 6 15)])
              "a" true empty_store in
  r1.1 = r2.1
  ∧ put_album_file_calls (trace r1.2) = put_album_file_calls (trace r2.2)
  ∧ put_media_row_calls (trace r1.2) = put_media_row_calls (trace r2.2).
Proof.
  apply (empty_page_with_token_is_passed_over sample_utils
           (sample_self false true false false None)
           (with_pages [photo_page "p" (date 2020 1 1); gap_page;
                        photo_page "q" (date 2020 6 15)])
           (with_pages [photo_page "p" (date 2020 1 1);
                        photo_page "q" (date 2020 6 15)])
           "a" true empty_store
           [photo_page "p" (date 2020 1 1)]
           [photo_page "q" (date 2020 6 15)] gap_page);
    reflexivity.
Defined.

(** ** The accounts of a pass of [index_albums_type] *)

Lemma fetch_events_quiet (l : list event) :
  Forall is_fetch_event l ->
  fetch_calls l = [] ∧ put_album_row_calls l = [].
Proof.
  induction 1 as [|e l He _ [IH1 IH2]]; [done |].
  destruct e; try done; simpl; by split.
Qed.

Lemma fetch_calls_app (l1 l2 : list event) :
  fetch_calls (l1 ++ l2) = fetch_calls l1 ++ fetch_calls l2.
Proof. apply omap_app. Qed.

Lemma put_album_row_calls_app (l1 l2 : list event) :
  put_album_row_calls (l1 ++ l2)
  = put_album_row_calls l1 ++ put_album_row_calls l2.
Proof. apply omap_app. Qed.

Lemma accounted_nil (utils : Utils) (self : GoogleAlbumsSync)
    (api : RestClient) (item_key : string) (allow add : bool)
    (st : nat * LocalData) :
  accounted utils self api item_key allow add [] [] st st.
Proof.
  split; [simpl; lia |]. split; [done |]. split; [done |].
  exists []. by rewrite app_nil_r.
Qed.

Lemma accounted_app (utils : Utils) (self : GoogleAlbumsSync)
    (api : RestClient) (item_key : string) (allow add : bool)
    (l1 l2 c1 c2 : list GoogleAlbumMedia.t) (st st1 st2 : nat * LocalData) :
  accounted utils self api item_key allow add l1 c1 st st1 ->
  accounted utils self api item_key allow add l2 c2 st1 st2 ->
  accounted utils self api item_key allow add (l1 ++ l2) (c1 ++ c2) st st2.
Proof.
  intros (Hn1 & Hs1 & Hf1 & e1 & Ht1 & Hc1 & Hr1)
         (Hn2 & Hs2 & Hf2 & e2 & Ht2 & Hc2 & Hr2).
  split; [rewrite Hn2, Hn1, length_app; lia |].
  rewrite List.filter_app.
  split; [by apply sublist_app |].
  split; [intros Hflush; by rewrite Hf1, Hf2 |].
  exists (e1 ++ e2). split; [by rewrite Ht2, Ht1, app_assoc |].
  rewrite fetch_calls_app, put_album_row_calls_app, !fmap_app.
  by rewrite Hc1, Hc2, Hr1, Hr2.
Qed.

Lemma accounted_album (utils : Utils) (self : GoogleAlbumsSync)
    (api : RestClient) (item_key description : string) (allow add : bool)
    (st : nat * LocalData) (a : GoogleAlbumMedia.t) :
  ∃ chosen,
    accounted utils self api item_key allow add [a] chosen st
      (index_album utils self api item_key description allow add st a).
Proof.
  destruct st as [count db]. unfold index_album, accounted.
  match goal with
  | |- context [if progress self && _ then emit _ ?d else _] => set (db1 := d)
  end.
  assert (∃ chosen l,
            trace db1 = trace db ++ l
            ∧ chosen `sublist_of` List.filter (wanted self allow) [a]
            ∧ (flush self = true ->
               chosen = List.filter (wanted self allow) [a])
            ∧ fetch_calls l
              = (fun a => (GoogleAlbumMedia.id a, add)) <$> chosen
            ∧ put_album_row_calls l
              = album_row utils self api item_key <$> chosen)
    as (chosen & l & Hl & Hsub & Hflush & Hcalls & Hrows).
  { subst db1. cbn [List.filter]. unfold wanted.
    destruct (negb (album self =? "")%string && _).
    { eexists [], [_]. split; [reflexivity |].
      split; [apply sublist_nil_l |]. by repeat split. }
    destruct (match album_regex self with Some _ => _ | None => _ end).
    { eexists [], [_]. split; [reflexivity |].
      split; [apply sublist_nil_l |]. by repeat split. }
    destruct (negb allow && _).
    { eexists [], [_]. split; [reflexivity |].
      split; [apply sublist_nil_l |]. by repeat split. }
    cbn [negb andb].
    destruct (_ && negb (flush self)) eqn:Hidx.
    { eexists [], [_]. split; [reflexivity |]. split; [apply sublist_nil_l |].
      split; [| done]. intros Hflush.
      apply andb_true_iff in Hidx as [_ Hidx]. by rewrite Hflush in Hidx. }
    pose proof (fetch_album_contents_spec utils self api
                  (GoogleAlbumMedia.id a) add
                  (emit (LogIndexingAlbum (GoogleAlbumMedia.id a)) db))
      as (Hfirst & Hlast & _ & lf & Ht & Hev & _).
    destruct (fetch_album_contents _ _ _ _ _ _) as [[first last] db'].
    simpl in Ht, Hfirst, Hlast.
    destruct (fetch_events_quiet lf Hev) as [Hq1 Hq2].
    exists [a],
      (LogIndexingAlbum (GoogleAlbumMedia.id a)
       :: FetchAlbumContents (GoogleAlbumMedia.id a) add
       :: lf ++ [PutAlbumRow (album_row utils self api item_key a)
                   (is_Some_b (get_album db (GoogleAlbumMedia.id a)))]).
    split; [| split; [done |]; split; [done |]; split].
    - simpl. rewrite Ht, <- !app_assoc. simpl.
      unfold album_row. by rewrite Hfirst, Hlast.
    - simpl. by rewrite fetch_calls_app, Hq1.
    - simpl. by rewrite put_album_row_calls_app, Hq2. }
  exists chosen. simpl. split; [lia |]. split; [exact Hsub |].
  split; [exact Hflush |].
  destruct (progress self && _).
  - exists (l ++ [LogListed (S count) description]). simpl.
    rewrite Hl, <- app_assoc. split; [done |].
    rewrite fetch_calls_app, put_album_row_calls_app. simpl.
    by rewrite !app_nil_r.
  - by exists l.
Qed.

Lemma accounted_albums (utils : Utils) (self : GoogleAlbumsSync)
    (api : RestClient) (item_key description : string) (allow add : bool)
    (listing : list GoogleAlbumMedia.t) (st : nat * LocalData) :
  ∃ chosen,
    accounted utils self api item_key allow add listing chosen st
      (foldl (index_album utils self api item_key description allow add)
         st listing).
Proof.
  revert st. induction listing as [|a listing IH]; intros st; simpl.
  - exists []. apply accounted_nil.
  - destruct (accounted_album utils self api item_key description allow add
                st a) as (c1 & H1).
    destruct (IH (index_album utils self api item_key description allow add
                    st a)) as (c2 & H2).
    exists (c1 ++ c2). change (a :: listing) with ([a] ++ listing).
    eapply accounted_app; [exact H1 | exact H2].
Qed.

(** The pages of the listing only matter through the albums they list. *)
Lemma index_pages_fold (utils : Utils) (self : GoogleAlbumsSync)
    (api : RestClient) (item_key description : string) (allow add : bool)
    (responses : list album_response) (st : nat * LocalData) :
  index_pages utils self api item_key description allow add responses st
  = foldl (index_album utils self api item_key description allow add)
      st (listed_albums responses).
Proof.
  revert st. induction responses as [|r rest IH]; intros st; simpl; [done |].
  destruct (album_ok r); simpl; [| done].
  destruct (truthy_token (album_nextPageToken r)).
  - by rewrite IH, foldl_app.
  - by rewrite app_nil_r.
Qed.

Lemma index_albums_type_accounted (utils : Utils) (self : GoogleAlbumsSync)
    (api : RestClient) (responses : list album_response)
    (item_key description : string) (allow add : bool) (db : LocalData) :
  let add' := if favourites self then false else add in
  ∃ l chosen,
    trace (index_albums_type utils self api responses item_key description
             allow add db)
    = trace db ++ [LogIndexing description] ++ l
      ++ [LogIndexed (length (listed_albums responses)) description]
    ∧ chosen `sublist_of`
        List.filter (wanted self allow) (listed_albums responses)
    ∧ (flush self = true ->
       chosen = List.filter (wanted self allow) (listed_albums responses))
    ∧ fetch_calls l = (fun a => (GoogleAlbumMedia.id a, add')) <$> chosen
    ∧ put_album_row_calls l = album_row utils self api item_key <$> chosen.
Proof.
  intros add'. unfold index_albums_type. fold add'.
  rewrite index_pages_fold.
  destruct (accounted_albums utils self api item_key description allow add'
              (listed_albums responses)
              (0%nat, emit (LogIndexing description) db))
    as (chosen & Hn & Hsub & Hflush & l & Ht & Hc & Hr).
  destruct (foldl _ _ _) as [count db']. simpl in *.
  exists l, chosen. rewrite Ht, Hn, <- !app_assoc. by simpl.
Qed.

(** X3: the accounts of one pass of [index_albums_type]. The closing
    line counts every listed album, skipped or not. The albums whose
    contents are fetched form a subsequence of the listed albums that get
    through the name filter, the regex filter and the title rule;
    [fetch_album_contents] is called once for each of them, in order, and
    one album row is written for each of them, with the listed name and
    size, the date range of the items recorded and the shared flag of the
    listing. *)
Theorem index_albums_type_accounts (utils : Utils) (self : GoogleAlbumsSync)
    (api : RestClient) (responses : list album_response)
    (item_key description : string) (allow add : bool) (db : LocalData) :
  ∃ l chosen,
    trace (index_albums_type utils self api responses item_key description
             allow add db)
    = trace db ++ [LogIndexing description] ++ l
      ++ [LogIndexed (length (listed_albums responses)) description]
    ∧ chosen `sublist_of`
        List.filter (wanted self allow) (listed_albums responses)
    ∧ fetch_calls l
      = (fun a => (GoogleAlbumMedia.id a,
                   if favourites self then false else add)) <$> chosen
    ∧ put_album_row_calls l = album_row utils self api item_key <$> chosen.
Proof.
  destruct (index_albums_type_accounted utils self api responses item_key
              description allow add db)
    as (l & chosen & Ht & Hsub & _ & Hc & Hr).
  by exists l, chosen.
Qed.

(** X4: when a flush is asked for, the stored sizes play no part: one
    pass of [index_albums_type] fetches exactly the listed albums that get
    through the name filter, the regex filter and the title rule, each of
    them once and in the order of the listing, and writes a row for each
    of them. *)
Theorem flush_fetches_every_wanted_album (utils : Utils)
    (self : GoogleAlbumsSync) (api : RestClient)
    (responses : list album_response) (item_key description : string)
    (allow add : bool) (db : LocalData) :
  flush self = true ->
  let chosen := List.filter (wanted self allow) (listed_albums responses) in
  ∃ l,
    trace (index_albums_type utils self api responses item_key description
             allow add db)
    = trace db ++ [LogIndexing description] ++ l
      ++ [LogIndexed (length (listed_albums responses)) description]
    ∧ fetch_calls l
      = (fun a => (GoogleAlbumMedia.id a,
                   if favourites self then false else add)) <$> chosen
    ∧ put_album_row_calls l = album_row utils self api item_key <$> chosen.
Proof.
  intros Hflush chosen.
  destruct (index_albums_type_accounted utils self api responses item_key
              description allow add db)
    as (l & chosen' & Ht & _ & Hall & Hc & Hr).
  exists l. rewrite (Hall Hflush) in Hc, Hr. by repeat split.
Qed.

Lemma flush_fetches_every_wanted_album_witness :
  ∃ l,
    trace (index_albums_type sample_utils flushing_self two_albums
             (albums_list two_albums) "albums" "Albums" true true
             store_with_album)
    = [LogIndexing "Albums"] ++ l ++ [LogIndexed 2 "Albums"]
    ∧ fetch_calls l = [("a", true); ("b", true)].
Proof.
  destruct (flush_fetches_every_wanted_album sample_utils flushing_self
              two_albums (albums_list two_albums) "albums" "Albums" true true
              store_with_album eq_refl) as (l & Ht & Hc & _).
  exists l. split; [exact Ht | exact Hc].
Defined.

(** ** A second pass over the same listing *)

Lemma index_album_store (utils : Utils) (self : GoogleAlbumsSync)
    (api : RestClient) (item_key description : string) (allow add : bool)
    (count : nat) (db : LocalData) (a : GoogleAlbumMedia.t) :
  let st' := index_album utils self api item_key description allow add
               (count, db) a in
  (wanted self allow a = true -> settled a (albums st'.2))
  ∧ (∀ k, k ≠ GoogleAlbumMedia.id a -> albums st'.2 !! k = albums db !! k).
Proof.
  unfold index_album.
  match goal with
  | |- context [if progress self && _ then emit _ ?d else _] => set (db1 := d)
  end.
  assert ((wanted self allow a = true -> settled a (albums db1))
          ∧ (∀ k, k ≠ GoogleAlbumMedia.id a ->
                  albums db1 !! k = albums db !! k)) as [Hs Hk].
  { subst db1. unfold wanted.
    destruct (negb (album self =? "")%string && _); [done |].
    destruct (match album_regex self with Some _ => _ | None => _ end);
      [done |].
    destruct (negb allow && _); [done |].
    destruct (_ && negb (flush self)) eqn:Hidx.
    { split; [| done]. intros _.
      apply andb_true_iff in Hidx as [Hidx _]. unfold get_album in Hidx.
      destruct (albums db !! GoogleAlbumMedia.id a) as [row|] eqn:E; [| done].
      exists row. split; [exact E | by apply Z.eqb_eq]. }
    pose proof (fetch_album_contents_spec utils self api
                  (GoogleAlbumMedia.id a) add
                  (emit (LogIndexingAlbum (GoogleAlbumMedia.id a)) db))
      as (_ & _ & Ha & _).
    destruct (fetch_album_contents _ _ _ _ _ _) as [[first last] db'].
    simpl in Ha. simpl. split.
    - intros _. eexists. rewrite lookup_insert_eq. by split.
    - intros k Hne. rewrite lookup_insert_ne by done. by rewrite Ha. }
  simpl. by destruct (progress self && _).
Qed.

Lemma index_albums_store (utils : Utils) (self : GoogleAlbumsSync)
    (api : RestClient) (item_key description : string) (allow add : bool)
    (listing : list GoogleAlbumMedia.t) (st : nat * LocalData) :
  NoDup (GoogleAlbumMedia.id <$> listing) ->
  let st' := foldl (index_album utils self api item_key description allow add)
               st listing in
  (∀ a, a ∈ listing -> wanted self allow a = true -> settled a (albums st'.2))
  ∧ (∀ k, k ∉ GoogleAlbumMedia.id <$> listing ->
          albums st'.2 !! k = albums st.2 !! k).
Proof.
  revert st. induction listing as [|a listing IH]; intros st Hnd; simpl.
  - split; [intros a Ha; by apply elem_of_nil in Ha | done].
  - apply NoDup_cons in Hnd as [Hnotin Hnd].
    destruct st as [count db].
    destruct (index_album_store utils self api item_key description allow add
                count db a) as [Hs Hk].
    destruct (IH (index_album utils self api item_key description allow add
                    (count, db) a) Hnd) as [IHs IHk].
    split.
    + intros b Hb Hw. apply elem_of_cons in Hb as [->|Hb].
      * destruct (Hs Hw) as (row & Hrow & Hsize).
        exists row. split; [| exact Hsize].
        by rewrite (IHk _ Hnotin).
      * by apply IHs.
    + intros k Hk'. apply not_elem_of_cons in Hk' as [Hne Hk'].
      rewrite (IHk k Hk'). by apply Hk.
Qed.

Lemma index_album_quiet (utils : Utils) (self : GoogleAlbumsSync)
    (api : RestClient) (item_key description : string) (allow add : bool)
    (count : nat) (db : LocalData) (a : GoogleAlbumMedia.t) :
  flush self = false ->
  (wanted self allow a = true -> settled a (albums db)) ->
  let st' := index_album utils self api item_key description allow add
               (count, db) a in
  albums st'.2 = albums db
  ∧ ∃ l, trace st'.2 = trace db ++ l ∧ Forall is_skip_event l.
Proof.
  intros Hflush Hsettled. unfold index_album.
  match goal with
  | |- context [if progress self && _ then emit _ ?d else _] => set (db1 := d)
  end.
  assert (albums db1 = albums db
          ∧ ∃ l, trace db1 = trace db ++ l ∧ Forall is_skip_event l)
    as (Ha & l & Hl & Hq).
  { subst db1. unfold wanted in Hsettled.
    destruct (negb (album self =? "")%string && _).
    { split; [done |]. eexists [_]. split; [done | by repeat constructor]. }
    destruct (match album_regex self with Some _ => _ | None => _ end).
    { split; [done |]. eexists [_]. split; [done | by repeat constructor]. }
    destruct (negb allow && _).
    { split; [done |]. eexists [_]. split; [done | by repeat constructor]. }
    destruct (Hsettled eq_refl) as (row & Hrow & Hsize).
    unfold get_album. rewrite Hrow, Hsize, Z.eqb_refl, Hflush.
    split; [done |]. eexists [_]. split; [done | by repeat constructor]. }
  simpl. destruct (progress self && _); simpl.
  - split; [exact Ha |]. exists (l ++ [LogListed (S count) description]).
    rewrite Hl, <- app_assoc. split; [done |].
    apply Forall_app. split; [exact Hq | by repeat constructor].
  - split; [exact Ha |]. by exists l.
Qed.

Lemma index_albums_quiet (utils : Utils) (self : GoogleAlbumsSync)
    (api : RestClient) (item_key description : string) (allow add : bool)
    (listing : list GoogleAlbumMedia.t) (st : nat * LocalData) :
  flush self = false ->
  (∀ a, a ∈ listing -> wanted self allow a = true -> settled a (albums st.2)) ->
  let st' := foldl (index_album utils self api item_key description allow add)
               st listing in
  albums st'.2 = albums st.2
  ∧ ∃ l, trace st'.2 = trace st.2 ++ l ∧ Forall is_skip_event l.
Proof.
  intros Hflush. revert st.
  induction listing as [|a listing IH]; intros st Hall; simpl.
  - split; [done |]. exists []. by rewrite app_nil_r.
  - destruct st as [count db].
    destruct (index_album_quiet utils self api item_key description allow add
                count db a Hflush) as (Ha & l1 & Ht1 & Hq1).
    { apply Hall. apply elem_of_cons. by left. }
    destruct (IH (index_album utils self api item_key description allow add
                    (count, db) a)) as (Ha2 & l2 & Ht2 & Hq2).
    { intros b Hb Hw. rewrite Ha. apply Hall; [| exact Hw].
      apply elem_of_cons. by right. }
    split; [by rewrite Ha2 |].
    exists (l1 ++ l2). rewrite Ht2, Ht1, <- app_assoc.
    split; [done | by apply Forall_app].
Qed.

(** X5: indexing is idempotent. After one pass of [index_albums_type]
    over a listing in which no album identifier occurs twice, a second
    pass over the same listing without a flush fetches nothing and writes
    nothing: it leaves the album rows as they are and only logs skips. *)
Theorem second_pass_only_skips (utils : Utils) (self : GoogleAlbumsSync)
    (api : RestClient) (responses : list album_response)
    (item_key description description' : string) (allow add add' : bool)
    (db : LocalData) :
  flush self = false ->
  NoDup (GoogleAlbumMedia.id <$> listed_albums responses) ->
  let db1 := index_albums_type utils self api responses item_key description
               allow add db in
  let db2 := index_albums_type utils self api responses item_key description'
               allow add' db1 in
  albums db2 = albums db1
  ∧ ∃ l, trace db2
         = trace db1 ++ [LogIndexing description'] ++ l
           ++ [LogIndexed (length (listed_albums responses)) description']
         ∧ Forall is_skip_event l.
Proof.
  intros Hflush Hnd db1 db2.
  assert (∀ a, a ∈ listed_albums responses -> wanted self allow a = true ->
               settled a (albums db1)) as Hsettled.
  { subst db1. unfold index_albums_type. rewrite index_pages_fold.
    destruct (index_albums_store utils self api item_key description allow
                (if favourites self then false else add)
                (listed_albums responses)
                (0%nat, emit (LogIndexing description) db) Hnd) as [Hs _].
    destruct (foldl _ _ _) as [count db']. exact Hs. }
  subst db2. unfold index_albums_type. rewrite index_pages_fold.
  destruct (index_albums_quiet utils self api item_key description' allow
              (if favourites self then false else add')
              (listed_albums responses)
              (0%nat, emit (LogIndexing description') db1) Hflush Hsettled)
    as (Ha & l & Ht & Hq).
  destruct (accounted_albums utils self api item_key description' allow
              (if favourites self then false else add')
              (listed_albums responses)
              (0%nat, emit (LogIndexing description') db1))
    as (chosen & Hn & _).
  destruct (foldl _ _ _) as [count db']. simpl in *.
  split; [exact Ha |]. exists l. rewrite Ht, Hn, <- !app_assoc.
  split; [done | exact Hq].
Qed.

Lemma second_pass_only_skips_witness :
  let self := sample_self false true false false None in
  let db1 := index_albums_type sample_utils self two_albums
               (albums_list two_albums) "albums" "Albums" true true
               empty_store in
  let db2 := index_albums_type sample_utils self two_albums
               (albums_list two_albums) "albums" "Albums" true true db1 in
  albums db2 = albums db1
  ∧ ∃ l, trace db2
         = trace db1 ++ [LogIndexing "Albums"] ++ l ++ [LogIndexed 2 "Albums"]
         ∧ Forall is_skip_event l.
Proof.
  apply (second_pass_only_skips sample_utils
           (sample_self false true false false None) two_albums
           (albums_list two_albums) "albums" "Albums" "Albums" true true true
           empty_store).
  - reflexivity.
  - refine (bool_decide_unpack _ _). vm_compute. exact I.
Defined.

(** ** A second run of [index_album_media] *)

Lemma index_albums_type_store (utils : Utils) (self : GoogleAlbumsSync)
    (api : RestClient) (responses : list album_response)
    (item_key description : string) (allow add : bool) (db : LocalData) :
  NoDup (GoogleAlbumMedia.id <$> listed_albums responses) ->
  let db' := index_albums_type utils self api responses item_key description
               allow add db in
  (∀ a, a ∈ listed_albums responses -> wanted self allow a = true ->
        settled a (albums db'))
  ∧ (∀ k, k ∉ GoogleAlbumMedia.id <$> listed_albums responses ->
          albums db' !! k = albums db !! k).
Proof.
  intros Hnd. unfold index_albums_type. rewrite index_pages_fold.
  destruct (index_albums_store utils self api item_key description allow
              (if favourites self then false else add)
              (listed_albums responses)
              (0%nat, emit (LogIndexing description) db) Hnd) as [Hs Hk].
  destruct (foldl _ _ _) as [count db']. by split.
Qed.

Lemma index_albums_type_quiet (utils : Utils) (self : GoogleAlbumsSync)
    (api : RestClient) (responses : list album_response)
    (item_key description : string) (allow add : bool) (db : LocalData) :
  flush self = false ->
  (∀ a, a ∈ listed_albums responses -> wanted self allow a = true ->
        settled a (albums db)) ->
  let db' := index_albums_type utils self api responses item_key description
               allow add db in
  albums db' = albums db
  ∧ ∃ l, trace db' = trace db ++ l ∧ Forall is_log_event l.
Proof.
  intros Hflush Hsettled. unfold index_albums_type. rewrite index_pages_fold.
  destruct (index_albums_quiet utils self api item_key description allow
              (if favourites self then false else add)
              (listed_albums responses)
              (0%nat, emit (LogIndexing description) db) Hflush Hsettled)
    as (Ha & l & Ht & Hq).
  destruct (foldl _ _ _) as [count db']. simpl in *.
  split; [exact Ha |].
  exists ([LogIndexing description] ++ l ++ [LogIndexed count description]).
  rewrite Ht, <- !app_assoc. split; [done |].
  constructor; [done |]. apply Forall_app. split; [| by repeat constructor].
  eapply Forall_impl; [exact Hq |]. by intros [].
Qed.

(** X20: the indexer is idempotent. When no album identifier occurs
    twice in the two listings, a second run of [index_album_media]
    against the same remote without a flush leaves the album rows as the
    first run left them and only logs: it fetches no album and writes no
    row. *)
Theorem index_album_media_idempotent (utils : Utils) (self : GoogleAlbumsSync)
    (api : RestClient) (db : LocalData) :
  flush self = false ->
  NoDup (GoogleAlbumMedia.id
           <$> listed_albums (sharedAlbums_list api)
               ++ listed_albums (albums_list api)) ->
  let db1 := index_album_media utils self api db in
  let db2 := index_album_media utils self api db1 in
  albums db2 = albums db1
  ∧ ∃ l, trace db2 = trace db1 ++ l ∧ Forall is_log_event l.
Proof.
  intros Hflush Hnd db1 db2. rewrite fmap_app in Hnd.
  apply NoDup_app in Hnd as (Hnd_s & Hdisjoint & Hnd_o).
  assert (∀ a, a ∈ listed_albums (albums_list api) ->
               wanted self true a = true -> settled a (albums db1)) as Howned.
  { subst db1. unfold index_album_media.
    apply (index_albums_type_store utils self api (albums_list api)
             "albums" "Albums" true (album_index self) _ Hnd_o). }
  subst db2. unfold index_album_media.
  destruct (shared_albums self) eqn:Hshared.
  - assert (∀ a, a ∈ listed_albums (sharedAlbums_list api) ->
                 wanted self false a = true -> settled a (albums db1))
      as Hshared_settled.
    { subst db1. unfold index_album_media. rewrite Hshared.
      intros a Ha Hw.
      destruct (index_albums_type_store utils self api (sharedAlbums_list api)
                  "sharedAlbums" "Shared (titled) Albums" false true db Hnd_s)
        as [Hs _].
      destruct (Hs a Ha Hw) as (row & Hrow & Hsize).
      destruct (index_albums_type_store utils self api (albums_list api)
                  "albums" "Albums" true (album_index self)
                  (index_albums_type utils self api (sharedAlbums_list api)
                     "sharedAlbums" "Shared (titled) Albums" false true db)
                  Hnd_o) as [_ Hk].
      exists row. split; [| exact Hsize]. rewrite Hk; [exact Hrow |].
      apply Hdisjoint. apply list_elem_of_fmap. by exists a. }
    destruct (index_albums_type_quiet utils self api (sharedAlbums_list api)
                "sharedAlbums" "Shared (titled) Albums" false true db1
                Hflush Hshared_settled) as (Ha1 & l1 & Ht1 & Hq1).
    destruct (index_albums_type_quiet utils self api (albums_list api)
                "albums" "Albums" true (album_index self)
                (index_albums_type utils self api (sharedAlbums_list api)
                   "sharedAlbums" "Shared (titled) Albums" false true db1)
                Hflush) as (Ha2 & l2 & Ht2 & Hq2).
    { intros a Ha Hw. rewrite Ha1. by apply Howned. }
    split; [by rewrite Ha2 |].
    exists (l1 ++ l2). rewrite Ht2, Ht1, <- app_assoc.
    split; [done | by apply Forall_app].
  - by apply index_albums_type_quiet.
Qed.

Lemma index_album_media_idempotent_witness :
  let self := sample_self false true false false None in
  let db1 := index_album_media sample_utils self two_albums empty_store in
  let db2 := index_album_media sample_utils self two_albums db1 in
  albums db2 = albums db1
  ∧ ∃ l, trace db2 = trace db1 ++ l ∧ Forall is_log_event l.
Proof.
  apply (index_album_media_idempotent sample_utils
           (sample_self false true false false None) two_albums empty_store).
  - reflexivity.
  - refine (bool_decide_unpack _ _). vm_compute. exact I.
Defined.

(** ** The default templates of [album_folder_name] *)

Lemma append_empty_r (s : string) : s +:+ "" = s.
Proof.
  induction s as [|c s IH]; [done |].
  change (String c (s +:+ "") = String c s). by rewrite IH.
Qed.

(** X6: with no path format set, [album_folder_name] always returns a
    folder, under the root of the shared albums for a shared album and
    under the root of the albums otherwise: the sanitized title alone when
    the date is left out, [<year>-<month> <title>] in flat mode and
    [<year>/<month> <title>] in nested mode, year and month being those
    of the start date when [use_start_date] is set and of the end date
    otherwise. *)
Theorem album_folder_name_default_templates (checks : Checks)
    (self : GoogleAlbumsSync) (album_name : string)
    (start_date end_date : datetime) (shared : bool) :
  path_format self = None ->
  let d := if use_start_date self then start_date else end_date in
  let year := zero_pad 4 (Z.to_N (dt_year d)) in
  let month := safe_str_time d (str_or (month_format self) "%m%d") in
  let title := valid_file_name checks album_name in
  let root := if shared then _shared_albums_root self
              else _albums_root self in
  album_folder_name checks self album_name start_date end_date shared
  = Some (root //
          (if _omit_album_date self then title
           else if _use_flat_path self
                then year +:+ "-" +:+ month +:+ " " +:+ title
                else str (Path year // (month +:+ " " +:+ title)))).
Proof.
  intros Hfmt d year month title root.
  unfold album_folder_name. rewrite Hfmt. fold d title.
  destruct (_omit_album_date self); [by destruct shared |].
  assert (safe_str_time d "%Y" = year) as ->.
  { change (safe_str_time d "%Y") with (year +:+ ""). apply append_empty_r. }
  fold month.
  destruct (_use_flat_path self).
  - assert (format (str_or None "{0}-{1} {2}") [year; month; title]
            = Some (year +:+ "-" +:+ month +:+ " " +:+ title)) as ->.
    { generalize year month title. intros y m t.
      cbv -[String.append]. by rewrite append_empty_r. }
    by destruct shared.
  - assert (format (str_or None "{0} {1}") [month; title]
            = Some (month +:+ " " +:+ title)) as ->.
    { generalize year month title. intros y m t.
      cbv -[String.append]. by rewrite append_empty_r. }
    by destruct shared.
Qed.

Lemma album_folder_name_default_templates_witness :
  album_folder_name sample_checks (sample_self false true false false None)
    "Trip!" (date 2020 1 1) (date 2020 6 15) true
  = Some (mk_path true ["sync"; "sharedAlbums"; "2020"; "0615 Trip"]).
Proof.
  rewrite (album_folder_name_default_templates sample_checks
             (sample_self false true false false None)
             "Trip!" (date 2020 1 1) (date 2020 6 15) true eq_refl).
  reflexivity.
Defined.

(** ** What the preparation of the roots does to the tree *)

Lemma prepare_roots_preserve_respects (P : effect -> Prop)
    (self : GoogleAlbumsSync) :
  (∀ p, P (Mkdir p)) ->
  _preserve_album_links self = true ->
  respects P (fun _ => True) (prepare_roots self).
Proof.
  intros HP Hpreserve. unfold prepare_roots. rewrite Hpreserve.
  cbn [negb].
  apply respects_bind; [apply respects_ret | intros _].
  apply respects_bind; [apply respects_ask | intros e1].
  apply respects_bind.
  { destruct (negb e1); [apply respects_mkdir, HP | apply respects_ret]. }
  intros _.
  apply respects_bind; [apply respects_ask | intros e2].
  apply respects_bind.
  { destruct (negb e2); [apply respects_mkdir, HP | apply respects_ret]. }
  intros _.
  apply respects_bind; [apply respects_ask | intros e3].
  apply respects_ret.
Qed.

(** X7: when links are preserved, the preparation that opens a run of
    [create_album_content_links] clears nothing: whether it returns or
    raises, every entry of the tree is still there afterwards, and all it
    has done is make directories. *)
Theorem prepare_roots_preserve_only_adds (self : GoogleAlbumsSync)
    (w : World) :
  _preserve_album_links self = true ->
  let w' := world_of (prepare_roots self w) in
  fs w ⊆ fs w'
  ∧ ∃ l, effects w' = effects w ++ l ∧ Forall is_mkdir l.
Proof.
  intros Hpreserve w'.
  pose proof (prepare_roots_preserve_respects is_mkdir self
                (fun _ => I) Hpreserve w) as Hframes.
  split; [by eapply frames_subseteq | apply Hframes].
Qed.

Lemma prepare_roots_preserve_only_adds_witness :
  linked ⊆ fs (world_of (prepare_roots preserving_self (start linked))).
Proof.
  apply (prepare_roots_preserve_only_adds preserving_self (start linked)).
  reflexivity.
Defined.

Lemma removelast_prefix (p : list string) : removelast p `prefix_of` p.
Proof.
  destruct (decide (p = [])) as [->|Hne]; [done |].
  exists [List.last p ""]. by apply app_removelast_last.
Qed.

Lemma mkdir_here_adds (ok : bool) (fs : filesystem) (p : list string)
    (fs' : filesystem) :
  mkdir_here ok fs p = inr fs' ->
  ∀ k nd, fs' !! k = Some nd -> fs !! k = Some nd ∨ (nd = Dir ∧ k = p).
Proof.
  unfold mkdir_here. destruct (os_mkdir fs p) as [e|fs1] eqn:E.
  - destruct e; try done;
      (destruct (negb ok || negb (fs_is_dir fs p)); [done |]);
      intros [= <-] k nd Hk; by left.
  - intros [= <-] k nd Hk. apply os_mkdir_inr in E as [_ ->].
    apply lookup_insert_Some in Hk as [[<- <-]|[_ Hk]]; [by right | by left].
Qed.

Lemma mkdir_parents_adds (n : nat) (ok : bool) (fs : filesystem)
    (p : list string) (fs' : filesystem) :
  mkdir_parents n ok fs p = inr fs' ->
  ∀ k nd, fs' !! k = Some nd ->
          fs !! k = Some nd ∨ (nd = Dir ∧ k `prefix_of` p).
Proof.
  revert ok fs p fs'. induction n as [|n IH]; intros ok fs p fs'; simpl.
  - destruct (os_mkdir fs p) as [e|fs1] eqn:E.
    + destruct e; try (by destruct p);
        (destruct (negb ok || negb (fs_is_dir fs p)); [done |]);
        intros [= <-] k nd Hk; by left.
    + intros [= <-] k nd Hk. apply os_mkdir_inr in E as [_ ->].
      apply lookup_insert_Some in Hk as [[<- <-]|[_ Hk]];
        [by right | by left].
  - destruct (os_mkdir fs p) as [e|fs1] eqn:E.
    + destruct e;
        try (destruct (negb ok || negb (fs_is_dir fs p)); [done |];
             intros [= <-] k nd Hk; by left).
      destruct p as [|x p']; [done |].
      destruct (mkdir_parents n true fs (removelast (x :: p'))) as [e|fs1] eqn:E1;
        [done |].
      intros Hhere k nd Hk.
      destruct (mkdir_here_adds _ _ _ _ Hhere k nd Hk) as [Hk1|[-> ->]];
        [| by right].
      destruct (IH _ _ _ _ E1 k nd Hk1) as [Hk0|[-> Hpre]]; [by left |].
      right. split; [done |]. etrans; [exact Hpre | apply removelast_prefix].
    + intros [= <-] k nd Hk. apply os_mkdir_inr in E as [_ ->].
      apply lookup_insert_Some in Hk as [[<- <-]|[_ Hk]];
        [by right | by left].
Qed.

Lemma make_root_adds (e : bool) (p : PurePath) (w : World) (u : unit)
    (w' : World) :
  (if negb e then mkdir p true true else mret ()) w = Ok u w' ->
  ∀ k nd, fs w' !! k = Some nd ->
          fs w !! k = Some nd ∨ (nd = Dir ∧ k `prefix_of` parts p).
Proof.
  destruct e; cbn [negb].
  - intros [= _ <-] k nd Hk. by left.
  - unfold mkdir, change, fs_mkdir.
    destruct (mkdir_parents _ _ _ _) as [e|fs'] eqn:E; [done |].
    intros [= _ <-]. cbn [fs]. by eapply mkdir_parents_adds.
Qed.

Lemma rmtree_Ok (p : PurePath) (w : World) (u : unit) (w' : World) :
  rmtree p w = Ok u w' ->
  fs w' = filter (fun kv => ¬ under (parts p) kv.1) (fs w).
Proof.
  unfold rmtree, change.
  destruct (fs_rmtree (fs w) (parts p)) as [e|fs'] eqn:E; [done |].
  intros [= _ <-]. cbn [fs]. by apply fs_rmtree_inr.
Qed.

Lemma remove_tree_Ok (e : bool) (p : PurePath) (w : World) (u : unit)
    (w' : World) :
  (if e then _ ← log (RemovingTree p); rmtree p else mret ()) w = Ok u w' ->
  fs w' ⊆ fs w
  ∧ (e = true -> ∀ k, under (parts p) k -> fs w' !! k = None).
Proof.
  destruct e.
  - unfold log. rewrite bind_tell. intros Hrm. apply rmtree_Ok in Hrm.
    cbn [fs] in Hrm. rewrite Hrm. split; [apply map_filter_subseteq |].
    intros _ k Hk. apply map_lookup_filter_None. right.
    intros nd _ Hnot. by apply Hnot.
  - intros [= _ <-]. split; [done |]. intros [=].
Qed.

(** X8: when links are not preserved and the root of the albums exists,
    a preparation that returns has cleared the whole tree below that
    root: the only entries it can hold afterwards are the directories
    made on the way to the root of the shared albums, when that root lies
    below it. *)
Theorem prepare_roots_rebuild_clears (self : GoogleAlbumsSync) (w : World)
    (re_download : bool) (w' : World) :
  _preserve_album_links self = false ->
  fs_exists (fs w) (parts (_albums_root self)) = true ->
  prepare_roots self w = Ok re_download w' ->
  ∀ k nd, strictly_under (parts (_albums_root self)) k ->
          fs w' !! k = Some nd ->
          nd = Dir ∧ k `prefix_of` parts (_shared_albums_root self).
Proof.
  intros Hpreserve Hexists Hrun k nd [Hunder Hne] Hk.
  unfold prepare_roots in Hrun. rewrite Hpreserve in Hrun. cbn [negb] in Hrun.
  apply bind_Ok in Hrun as (u1 & w2 & Hclear & Hrun).
  apply bind_Ok in Hclear as (e0 & w0 & Hask0 & Hclear).
  apply ask_Ok in Hask0 as [-> ->].
  apply bind_Ok in Hclear as (u0 & w1 & Hrm1 & Hclear).
  apply remove_tree_Ok in Hrm1 as [_ Hgone].
  apply bind_Ok in Hclear as (e1 & w1' & Hask1 & Hrm2).
  apply ask_Ok in Hask1 as [-> ->].
  apply remove_tree_Ok in Hrm2 as [Hsub2 _].
  apply bind_Ok in Hrun as (e2 & w2' & Hask2 & Hrun).
  apply ask_Ok in Hask2 as [-> ->].
  apply bind_Ok in Hrun as (u2 & w3 & Hmk1 & Hrun).
  apply bind_Ok in Hrun as (e3 & w3' & Hask3 & Hrun).
  apply ask_Ok in Hask3 as [-> ->].
  apply bind_Ok in Hrun as (u3 & w4 & Hmk2 & Hrun).
  apply bind_Ok in Hrun as (e4 & w4' & Hask4 & Hret).
  apply ask_Ok in Hask4 as [-> ->]. injection Hret as _ <-.
  destruct (make_root_adds _ _ _ _ _ Hmk2 k nd Hk) as [Hk3|Hdone];
    [| exact Hdone].
  exfalso.
  destruct (make_root_adds _ _ _ _ _ Hmk1 k nd Hk3) as [Hk2|[_ Hpre]].
  - pose proof (lookup_weaken _ _ _ _ Hk2 Hsub2) as Hk1.
    by rewrite (Hgone Hexists k Hunder) in Hk1.
  - apply Hne. by apply (anti_symm prefix).
Qed.

Lemma prepare_roots_rebuild_clears_witness :
  fs (world_of (prepare_roots rebuilding_self (start linked))) !! test_link
  = None.
Proof.
  assert (match prepare_roots rebuilding_self (start linked) with
          | Ok false _ => true
          | _ => false
          end = true) as Hrun by (vm_compute; reflexivity).
  assert (prepare_roots rebuilding_self (start linked)
          = Ok false (world_of (prepare_roots rebuilding_self (start linked))))
    as Hok.
  { destruct (prepare_roots rebuilding_self (start linked)) as [[] w|e w];
      try discriminate Hrun.
    reflexivity. }
  assert (fs_exists (fs (start linked)) (parts (_albums_root rebuilding_self))
          = true) as Hexists by (vm_compute; reflexivity).
  assert (strictly_under (parts (_albums_root rebuilding_self)) test_link)
    as Hunder.
  { split; [| discriminate]. by exists ["2020"; "12 Test Album";
                                         "0000_test_photo.jpg"]. }
  destruct (fs (world_of (prepare_roots rebuilding_self (start linked)))
              !! test_link) as [nd|] eqn:E; [| reflexivity].
  exfalso.
  destruct (prepare_roots_rebuild_clears rebuilding_self (start linked) false
              (world_of (prepare_roots rebuilding_self (start linked)))
              eq_refl Hexists Hok test_link nd Hunder E) as [_ [k Hk]].
  discriminate Hk.
Defined.

(** ** What the making of a link does to the tree *)

Lemma unlink_Ok (p : PurePath) (w : World) (u : unit) (w' : World) :
  unlink p w = Ok u w' -> fs w' = delete (parts p) (fs w).
Proof.
  unfold unlink. destruct (fs w !! parts p) as [was|]; [| done].
  unfold change. destruct (fs_unlink (fs w) (parts p)) as [e|fs'] eqn:E;
    [done |].
  intros [= _ <-]. cbn [fs]. by apply fs_unlink_inr.
Qed.

Lemma link_Ok (src dst : PurePath) (w : World) (u : unit) (w' : World) :
  link src dst w = Ok u w' ->
  ∃ nd, fs w !! parts src = Some nd
        ∧ fs w !! parts dst = None
        ∧ fs w' = <[parts dst := nd]> (fs w).
Proof.
  unfold link, change, fs_link.
  destruct (fs w !! parts src) as [nd|]; [| done].
  destruct nd; try done;
    (destruct (check_new_entry (fs w) (parts dst)) eqn:E; [done |]);
    intros [= _ <-]; apply check_new_entry_None in E;
    eexists; cbn [fs]; by repeat split.
Qed.

Lemma symlink_to_Ok (dst : PurePath) (target : string) (w : World)
    (u : unit) (w' : World) :
  symlink_to dst target w = Ok u w' ->
  fs w !! parts dst = None
  ∧ fs w' = <[parts dst := Symlink target]> (fs w).
Proof.
  unfold symlink_to, change, fs_symlink.
  destruct (check_new_entry (fs w) (parts dst)) eqn:E; [done |].
  intros [= _ <-]. apply check_new_entry_None in E. by split.
Qed.

(** What is in the way of a link has been removed or left alone. *)
Lemma clear_link_Ok (self : GoogleAlbumsSync) (link_file : PurePath)
    (e : bool) (w : World) (u : unit) (w' : World) :
  (if e then
     s ← is_symlink link_file;
     if (s : bool) || _use_hardlinks self then unlink link_file
     else log (NotALink link_file)
   else mret ()) w = Ok u w' ->
  fs w' = fs w ∨ fs w' = delete (parts link_file) (fs w).
Proof.
  destruct e; [| intros [= _ <-]; by left].
  unfold is_symlink. rewrite bind_ask.
  destruct (fs_is_symlink (fs w) (parts link_file) || _use_hardlinks self).
  - intros Hun. right. by eapply unlink_Ok.
  - intros [= _ <-]. by left.
Qed.

(** X9: when [replace_link] returns, the link path holds the link that
    was asked for, a symbolic link with the relative path as its target
    or, in hardlink mode, what the path of the media file holds, and no
    other path of the tree has changed. *)
Theorem replace_link_makes_the_link (self : GoogleAlbumsSync)
    (full_file_name link_file : PurePath) (relative_filename : string)
    (w : World) (u : unit) (w' : World) :
  replace_link self full_file_name link_file relative_filename w = Ok u w' ->
  fs w' !! parts link_file
  = (if _use_hardlinks self then fs w !! parts full_file_name
     else Some (Symlink relative_filename))
  ∧ ∀ k, k ≠ parts link_file -> fs w' !! k = fs w !! k.
Proof.
  unfold replace_link, path_exists. rewrite bind_ask. intros Hrun.
  apply bind_Ok in Hrun as (u1 & w1 & Hclear & Hmake).
  apply clear_link_Ok in Hclear.
  assert (∀ k, k ≠ parts link_file -> fs w1 !! k = fs w !! k) as Hother.
  { intros k Hk. destruct Hclear as [->| ->]; [done |].
    by rewrite lookup_delete_ne. }
  destruct (_use_hardlinks self).
  - apply link_Ok in Hmake as (nd & Hsrc & Hdst & ->). split.
    + rewrite lookup_insert_eq. rewrite <- Hsrc. apply Hother.
      intros Heq. rewrite Heq in Hsrc. congruence.
    + intros k Hk. rewrite lookup_insert_ne by done. by apply Hother.
  - assert (symlink_to link_file relative_filename w1 = Ok u w') as Hsym.
    { by destruct (_ntfs_override self). }
    apply symlink_to_Ok in Hsym as [_ ->]. split.
    + by rewrite lookup_insert_eq.
    + intros k Hk. rewrite lookup_insert_ne by done. by apply Hother.
Qed.

Lemma replace_link_makes_the_link_witness :
  fs (world_of (replace_link rebuilding_self (mk_path true photo_path)
                  (mk_path true stale_link) test_target (start linked)))
    !! stale_link
  = Some (Symlink test_target).
Proof.
  apply (replace_link_makes_the_link rebuilding_self (mk_path true photo_path)
           (mk_path true stale_link) test_target (start linked) tt
           (world_of (replace_link rebuilding_self (mk_path true photo_path)
                        (mk_path true stale_link) test_target
                        (start linked)))).
  assert (match replace_link rebuilding_self (mk_path true photo_path)
                  (mk_path true stale_link) test_target (start linked) with
          | Ok _ _ => true
          | Raise _ _ => false
          end = true) as Hrun by (vm_compute; reflexivity).
  destruct (replace_link rebuilding_self (mk_path true photo_path)
              (mk_path true stale_link) test_target (start linked))
    as [[] w|e w]; [reflexivity | discriminate Hrun].
Defined.

(** ** A dangling link at the link path *)

Lemma replace_link_dangling (self : GoogleAlbumsSync)
    (full_file_name link_file : PurePath) (relative_filename : string)
    (w : World) :
  fs_exists (fs w) (parts link_file) = false ->
  is_Some (fs w !! parts link_file) ->
  is_Some (fs w !! parts full_file_name) ->
  fs w !! parts full_file_name ≠ Some Dir ->
  replace_link self full_file_name link_file relative_filename w
  = Raise FileExistsError w.
Proof.
  intros Hexists [nd Hnd] [src Hsrc] Hnotdir.
  unfold replace_link, path_exists. rewrite bind_ask, Hexists, bind_mret.
  assert (check_new_entry (fs w) (parts link_file) = Some FileExistsError)
    as Hcheck.
  { unfold check_new_entry. by rewrite Hnd. }
  destruct (_use_hardlinks self).
  - unfold link, change, fs_link. rewrite Hsrc, Hcheck.
    destruct src; try done; congruence.
  - assert (symlink_to link_file relative_filename w
            = Raise FileExistsError w) as Hsym.
    { unfold symlink_to, change, fs_symlink. by rewrite Hcheck. }
    by destruct (_ntfs_override self).
Qed.

(** X10: a dangling link at the link path is never repaired. When the
    album folder is there, the media file exists and the link path holds
    an entry that [exists()] does not see, the link is not unlinked; the
    attempt to make the new link raises [FileExistsError], which is
    caught and logged as a duplicate. The tree is unchanged and the row
    is not counted. *)
Theorem dangling_link_is_left (utils : Utils) (checks : Checks)
    (self : GoogleAlbumsSync) (full_file_name link_folder link_file : PurePath)
    (relative_filename created file_name : string) (count : nat) (w : World) :
  fs_is_dir (fs w) (parts link_folder) = true ->
  fs_exists (fs w) (parts full_file_name) = true ->
  fs w !! parts full_file_name ≠ Some Dir ->
  is_Some (fs w !! parts link_file) ->
  fs_exists (fs w) (parts link_file) = false ->
  link_album_file utils checks self full_file_name link_folder link_file
    relative_filename created file_name count w
  = Ok count {| fs := fs w;
                effects := effects w ++ [Log (DuplicateLink full_file_name)] |}.
Proof.
  intros Hfolder Hmedia Hnotdir Hentry Hdangling.
  unfold link_album_file, try_except, is_dir.
  rewrite bind_ask, Hfolder. cbn [negb]. rewrite bind_mret.
  rewrite bind_run.
  assert (make_link self full_file_name link_file relative_filename file_name w
          = Raise FileExistsError w) as ->.
  { unfold make_link, path_exists. rewrite bind_ask, Hmedia, bind_ask.
    unfold create_link. rewrite Hdangling, andb_false_r.
    apply replace_link_dangling; try done.
    by apply fs_exists_lookup. }
  reflexivity.
Qed.

Lemma dangling_link_is_left_witness :
  link_album_file sample_utils sample_checks preserving_self
    (full_file_name test_names) (link_folder test_names)
    (link_file test_names) (relative_filename test_names)
    "2020-06-15" "test_photo.jpg" 0 (start dangling)
  = Ok 0%nat
      {| fs := dangling;
         effects := [Log (DuplicateLink (full_file_name test_names))] |}.
Proof.
  apply (dangling_link_is_left sample_utils sample_checks preserving_self
           (full_file_name test_names) (link_folder test_names)
           (link_file test_names) (relative_filename test_names)
           "2020-06-15" "test_photo.jpg" 0 (start dangling)).
  - by vm_compute.
  - by vm_compute.
  - vm_compute. discriminate.
  - eexists. vm_compute. reflexivity.
  - by vm_compute.
Defined.

(** ** Media that is not there *)

(** X11: an album file whose media file is not there gets no link. When
    the album folder exists, [link_album_file] leaves the tree as it is
    and logs the skip; the row is still counted, and its date set, when
    the link path already leads somewhere. *)
Theorem missing_media_gets_no_link (utils : Utils) (checks : Checks)
    (self : GoogleAlbumsSync) (full_file_name link_folder link_file : PurePath)
    (relative_filename created file_name : string) (count : nat) (w : World) :
  fs_is_dir (fs w) (parts link_folder) = true ->
  fs_exists (fs w) (parts full_file_name) = false ->
  let there := fs_exists (fs w) (parts link_file) in
  link_album_file utils checks self full_file_name link_folder link_file
    relative_filename created file_name count w
  = Ok (if there then S count else count)
      {| fs := fs w;
         effects :=
           effects w ++ Log (SkipNotDownloaded file_name)
           :: (if there && utime_supports_follow_symlinks checks
               then [Utime link_file (string_to_date utils created)]
               else []) |}.
Proof.
  intros Hfolder Hmedia there.
  unfold link_album_file, try_except, is_dir.
  rewrite bind_ask, Hfolder. cbn [negb]. rewrite bind_mret.
  unfold make_link, path_exists. rewrite bind_run, bind_ask, Hmedia.
  unfold log, tell. unfold touch_link, path_exists.
  rewrite bind_ask. cbn [fs effects]. fold there.
  destruct there; cbn [andb]; [| reflexivity].
  destruct (utime_supports_follow_symlinks checks).
  - unfold utime, tell, mbind, M_bind, mret, M_ret. cbn [fs effects].
    by rewrite <- app_assoc.
  - reflexivity.
Qed.

Lemma missing_media_gets_no_link_witness :
  link_album_file sample_utils sample_checks preserving_self
    (mk_path true ["sync"; "photos"; "2019"; "gone.jpg"])
    (link_folder test_names) (link_file test_names)
    "../../../photos/2019/gone.jpg" "2020-06-15" "gone.jpg" 0 (start dangling)
  = Ok 0%nat
      {| fs := dangling;
         effects := [Log (SkipNotDownloaded "gone.jpg")] |}.
Proof.
  apply (missing_media_gets_no_link sample_utils sample_checks preserving_self
           (mk_path true ["sync"; "photos"; "2019"; "gone.jpg"])
           (link_folder test_names) (link_file test_names)
           "../../../photos/2019/gone.jpg" "2020-06-15" "gone.jpg" 0
           (start dangling));
    vm_compute; reflexivity.
Defined.

(** ** The exceptions of the loop body *)

(** X12: the body of the loop over the album files never lets a
    [FileExistsError] out: the [except] clause of its [try] block catches
    it, so a duplicate link does not end the run. *)
Theorem link_row_never_raises_FileExistsError (utils : Utils)
    (checks : Checks) (self : GoogleAlbumsSync) (st : link_state)
    (r : AlbumFile.t) (w : World) (e : exn) (w' : World) :
  link_row utils checks self st r w = Raise e w' ->
  e ≠ FileExistsError.
Proof.
  unfold link_row. rewrite bind_run.
  match goal with
  | |- context [match ?m w with _ => _ end] =>
    assert (∃ i w1, m w = Ok i w1) as (i & w1 & ->)
  end.
  { destruct (current_rid st =? AlbumFile.rid r)%string.
    - by eexists _, _.
    - unfold put_album_downloaded. rewrite bind_tell. by eexists _, _. }
  destruct (names_of checks utils self i r) as [n|]; [| by intros [= <- _]].
  rewrite bind_run. unfold link_album_file at 1, try_except.
  match goal with
  | |- context [match ?body w1 with _ => _ end] =>
    destruct (body w1) as [c w2|e0 w2]
  end.
  - done.
  - destruct e0; cbn [is_FileExistsError]; by intros [= <- _].
Qed.

Lemma link_row_never_raises_FileExistsError_witness :
  (∃ w, link_row sample_utils sample_checks preserving_self
          first_link_state test_album_file (start blocked)
        = Raise NotADirectoryError w)
  ∧ NotADirectoryError ≠ FileExistsError.
Proof.
  assert (match link_row sample_utils sample_checks preserving_self
                  first_link_state test_album_file (start blocked) with
          | Raise NotADirectoryError _ => true
          | _ => false
          end = true) as Hrun by (vm_compute; reflexivity).
  assert (link_row sample_utils sample_checks preserving_self
            first_link_state test_album_file (start blocked)
          = Raise NotADirectoryError
              (world_of (link_row sample_utils sample_checks preserving_self
                           first_link_state test_album_file (start blocked))))
    as Hraise.
  { destruct (link_row sample_utils sample_checks preserving_self
                first_link_state test_album_file (start blocked))
      as [st w|[] w]; try discriminate Hrun.
    reflexivity. }
  split; [by eexists |].
  exact (link_row_never_raises_FileExistsError sample_utils sample_checks
           preserving_self first_link_state test_album_file (start blocked)
           NotADirectoryError _ Hraise).
Defined.

(** ** What the pruning pass keeps *)

Lemma stale_step_keeps (self : GoogleAlbumsSync) (valid_links : gset string)
    (cur : filesystem) (path : PurePath) (k : list string) (nd : node) :
  cur !! k = Some nd ->
  parts path ≠ k ∨ str path ∈ valid_links
  ∨ (_use_hardlinks self = false ∧ ∃ i, nd = File i) ->
  stale_step self valid_links cur path !! k = Some nd.
Proof.
  intros Hk Hwhy. unfold stale_step.
  destruct (fs_is_dir cur (parts path)); [done |].
  destruct (bool_decide (str path ∉ valid_links)) eqn:Hvalid; [| done].
  destruct (fs_is_symlink cur (parts path) || _) eqn:Hlink; [| done].
  destruct (decide (parts path = k)) as [Heq|Hne];
    [| by rewrite lookup_delete_ne].
  exfalso. destruct Hwhy as [Hne|[Hin|[Hhard [i ->]]]]; [done | |].
  - apply bool_decide_eq_true_1 in Hvalid. done.
  - unfold fs_is_symlink in Hlink. by rewrite Heq, Hk, Hhard in Hlink.
Qed.

Lemma stale_fold_keeps (self : GoogleAlbumsSync) (valid_links : gset string)
    (anch : bool) (ks : list (list string)) (cur : filesystem)
    (k : list string) (nd : node) :
  cur !! k = Some nd ->
  str (mk_path anch k) ∈ valid_links
  ∨ (_use_hardlinks self = false ∧ ∃ i, nd = File i) ->
  foldl (stale_step self valid_links) cur (mk_path anch <$> ks) !! k = Some nd.
Proof.
  intros Hk Hwhy. revert cur Hk.
  induction ks as [|k' ks IH]; intros cur Hk; simpl; [done |].
  apply IH. apply stale_step_keeps; [done |].
  destruct (decide (k' = k)) as [->|Hne]; [| by left].
  right. destruct Hwhy as [Hin|Hfile]; [by left | by right].
Qed.

Lemma clean_up_stale_links_kept (self : GoogleAlbumsSync)
    (root_dir : PurePath) (valid_links : gset string) (w : World) :
  let w' := world_of (_clean_up_stale_links self root_dir valid_links w) in
  (∀ k, ¬ strictly_under (parts root_dir) k -> fs w' !! k = fs w !! k)
  ∧ (∀ k nd, fs w !! k = Some nd -> nd ≠ Dir ->
             str (mk_path (anchored root_dir) k) ∈ valid_links
             ∨ (_use_hardlinks self = false ∧ ∃ i, nd = File i) ->
             fs w' !! k = Some nd).
Proof.
  destruct (clean_up_stale_links_run self root_dir valid_links w)
    as (n & eff & Hrun).
  set (ks := fs_glob (fs w) (parts root_dir)) in *.
  set (fs1 := foldl (stale_step self valid_links) (fs w)
                (mk_path (anchored root_dir) <$> ks)) in *.
  set (ks1 := fs_glob fs1 (parts root_dir)) in *.
  set (ps := merge_sort longer_first (mk_path (anchored root_dir) <$> ks1))
    in *.
  destruct (stale_fold self valid_links (anchored root_dir) ks (fs w)
              (fs_glob_NoDup _ _)) as (_ & _ & Hout1 & _).
  fold fs1 in Hout1.
  assert (parts <$> ps ≡ₚ ks1) as Hperm.
  { unfold ps. rewrite merge_sort_Permutation, <- list_fmap_compose.
    by rewrite list_fmap_id. }
  assert (NoDup (parts <$> ps)) as Hnd.
  { rewrite Hperm. apply fs_glob_NoDup. }
  assert (StronglySorted (fun a b => ¬ is_child (parts a) (parts b)) ps)
    as Hsorted.
  { apply sorted_children_first. apply Forall_forall. intros k Hk.
    apply fs_glob_strictly_under in Hk as [Hk _].
    by eapply strictly_under_nonempty. }
  destruct (empty_fold ps fs1 Hnd Hsorted) as (_ & Hout2 & Hkeep2 & _).
  intros w'. subst w'. rewrite Hrun. cbn [world_of fs]. split.
  - intros k Hk. rewrite Hout2, Hout1; [done | |].
    + intros Hin. apply fs_glob_strictly_under in Hin as [Hin _]. done.
    + rewrite Hperm. intros Hin.
      apply fs_glob_strictly_under in Hin as [Hin _]. done.
  - intros k nd Hk Hnd' Hwhy. apply Hkeep2; [| done].
    by apply stale_fold_keeps.
Qed.

(** X13: what [_clean_up_stale_links] keeps. It touches nothing that is
    not below the root it is given, so the root itself stays. Below the
    root, an entry that is not a directory and whose path is in the set
    of valid links is left as it is; and when hardlinks are not in use,
    every regular file is left as it is. *)
Theorem clean_up_stale_links_keeps (self : GoogleAlbumsSync)
    (root_dir : PurePath) (valid_links : gset string) (w : World) :
  let w' := world_of (_clean_up_stale_links self root_dir valid_links w) in
  (∀ k, ¬ strictly_under (parts root_dir) k -> fs w' !! k = fs w !! k)
  ∧ (∀ k nd, fs w !! k = Some nd -> nd ≠ Dir ->
             str (mk_path (anchored root_dir) k) ∈ valid_links ->
             fs w' !! k = Some nd)
  ∧ (_use_hardlinks self = false ->
     ∀ k i, fs w !! k = Some (File i) -> fs w' !! k = Some (File i)).
Proof.
  intros w'.
  destruct (clean_up_stale_links_kept self root_dir valid_links w)
    as [Hout Hkeep].
  split; [exact Hout |]. split.
  - intros k nd Hk Hnd Hin. apply Hkeep; [done | done | by left].
  - intros Hhard k i Hk. apply Hkeep; [done | done |].
    right. split; [done | by exists i].
Qed.

Lemma clean_up_stale_links_keeps_witness :
  fs (world_of (_clean_up_stale_links preserving_self
                  (mk_path true ["sync"; "albums"])
                  {[str (mk_path true test_link)]}
                  (start linked_with_stale)))
    !! test_link
  = Some (Symlink test_target).
Proof.
  apply (clean_up_stale_links_keeps preserving_self
           (mk_path true ["sync"; "albums"])
           {[str (mk_path true test_link)]} (start linked_with_stale)).
  - reflexivity.
  - discriminate.
  - set_solver.
Defined.

(** ** Regular files in a run that preserves symbolic links *)

Lemma files_kept_refl (fs : filesystem) : files_kept fs fs.
Proof. by intros k i Hk. Qed.

Lemma files_kept_trans (fs1 fs2 fs3 : filesystem) :
  files_kept fs1 fs2 -> files_kept fs2 fs3 -> files_kept fs1 fs3.
Proof. intros H12 H23 k i Hk. by apply H23, H12. Qed.

Lemma files_kept_subseteq (fs fs' : filesystem) :
  fs ⊆ fs' -> files_kept fs fs'.
Proof. intros Hsub k i Hk. by eapply lookup_weaken. Qed.

Lemma keeps_files_ret {A : Type} (a : A) : keeps_files (mret a).
Proof. intros w. apply files_kept_refl. Qed.

Lemma keeps_files_ask {A : Type} (q : filesystem -> A) : keeps_files (ask q).
Proof. intros w. apply files_kept_refl. Qed.

Lemma keeps_files_tell (e : effect) : keeps_files (tell e).
Proof. intros w. apply files_kept_refl. Qed.

Lemma keeps_files_bind {A B : Type} (m : M A) (f : A -> M B) :
  keeps_files m -> (∀ a, keeps_files (f a)) -> keeps_files (m ≫= f).
Proof.
  intros Hm Hf w. rewrite bind_run. specialize (Hm w).
  destruct (m w) as [a w'|e w']; cbn [world_of] in *; [| exact Hm].
  eapply files_kept_trans; [exact Hm | apply Hf].
Qed.

(** The continuation sees the answer of the query in the world where it
    was asked. *)
Lemma keeps_files_bind_ask {A B : Type} (q : filesystem -> A) (f : A -> M B) :
  (∀ w, files_kept (fs w) (fs (world_of (f (q (fs w)) w)))) ->
  keeps_files (ask q ≫= f).
Proof. intros Hf w. rewrite bind_ask. apply Hf. Qed.

Lemma keeps_files_try {A : Type} (body : M A) (handler : exn -> option (M A)) :
  keeps_files body ->
  (∀ e h, handler e = Some h -> keeps_files h) ->
  keeps_files (try_except body handler).
Proof.
  intros Hb Hh w. unfold try_except. specialize (Hb w).
  destruct (body w) as [a w'|e w']; cbn [world_of] in *; [exact Hb |].
  destruct (handler e) as [h|] eqn:E; [| exact Hb].
  eapply files_kept_trans; [exact Hb | by eapply Hh].
Qed.

Lemma keeps_files_for_each {A St : Type} (body : St -> A -> M St) (l : list A)
    (s : St) :
  (∀ s x, keeps_files (body s x)) -> keeps_files (for_each body l s).
Proof.
  intros Hbody. revert s. induction l as [|x l IH]; intros s; simpl.
  - apply keeps_files_ret.
  - apply keeps_files_bind; [apply Hbody | apply IH].
Qed.

Lemma keeps_files_change (op : filesystem -> exn + filesystem) (e : effect) :
  (∀ fs fs', op fs = inr fs' -> files_kept fs fs') ->
  keeps_files (change op e).
Proof.
  intros Hop w. unfold change.
  destruct (op (fs w)) as [err|fs'] eqn:E; cbn [world_of fs].
  - apply files_kept_refl.
  - by apply Hop.
Qed.

Lemma keeps_files_mkdir (p : PurePath) (parents ok : bool) :
  keeps_files (mkdir p parents ok).
Proof.
  apply keeps_files_change. intros fs fs' E.
  apply fs_mkdir_inr in E as [Hsub _]. by apply files_kept_subseteq.
Qed.

Lemma keeps_files_symlink_to (dst : PurePath) (target : string) :
  keeps_files (symlink_to dst target).
Proof.
  apply keeps_files_change. intros fs fs' E.
  apply fs_symlink_inr in E as [_ Hsub]. by apply files_kept_subseteq.
Qed.

Lemma keeps_files_rmdir (p : PurePath) : keeps_files (rmdir p).
Proof.
  apply keeps_files_change. intros fs fs' E.
  apply fs_rmdir_inr in E as (Hdir & _ & ->). intros k i Hk.
  rewrite lookup_delete_ne; [done |]. intros <-. congruence.
Qed.

(** The [unlink] of a path that holds a symbolic link. *)
Lemma unlink_symlink_keeps_files (p : PurePath) (w : World) :
  fs_is_symlink (fs w) (parts p) = true ->
  files_kept (fs w) (fs (world_of (unlink p w))).
Proof.
  intros Hsym. unfold unlink, fs_is_symlink in *.
  destruct (fs w !! parts p) as [was|] eqn:E; [| apply files_kept_refl].
  unfold change. destruct (fs_unlink (fs w) (parts p)) as [e|fs'] eqn:E';
    cbn [world_of fs]; [apply files_kept_refl |].
  apply fs_unlink_inr in E' as ->. intros k i Hk.
  rewrite lookup_delete_ne; [done |]. intros <-.
  rewrite E in Hk. injection Hk as ->. done.
Qed.

Lemma keeps_files_replace_link (self : GoogleAlbumsSync)
    (full_file_name link_file : PurePath) (relative_filename : string) :
  _use_hardlinks self = false ->
  keeps_files (replace_link self full_file_name link_file relative_filename).
Proof.
  intros Hhard. unfold replace_link. rewrite Hhard.
  unfold path_exists. apply keeps_files_bind; [apply keeps_files_ask |].
  intros e. apply keeps_files_bind.
  - destruct e; [| apply keeps_files_ret].
    unfold is_symlink. apply keeps_files_bind_ask. intros w.
    destruct (fs_is_symlink (fs w) (parts link_file)) eqn:Hsym; cbn [orb].
    + by apply unlink_symlink_keeps_files.
    + apply files_kept_refl.
  - intros _. destruct (_ntfs_override self); apply keeps_files_symlink_to.
Qed.

Lemma keeps_files_link_album_file (utils : Utils) (checks : Checks)
    (self : GoogleAlbumsSync) (full_file_name link_folder link_file : PurePath)
    (relative_filename created file_name : string) (count : nat) :
  _use_hardlinks self = false ->
  keeps_files (link_album_file utils checks self full_file_name link_folder
                 link_file relative_filename created file_name count).
Proof.
  intros Hhard. unfold link_album_file. apply keeps_files_try.
  - unfold is_dir. apply keeps_files_bind; [apply keeps_files_ask |].
    intros d. apply keeps_files_bind.
    { destruct (negb d); [| apply keeps_files_ret].
      apply keeps_files_bind; [apply keeps_files_tell |].
      intros _. apply keeps_files_mkdir. }
    intros _. apply keeps_files_bind.
    { unfold make_link, path_exists.
      apply keeps_files_bind; [apply keeps_files_ask |].
      intros e. destruct e; [| apply keeps_files_tell].
      apply keeps_files_bind; [apply keeps_files_ask |].
      intros c. destruct c; [| apply keeps_files_ret].
      by apply keeps_files_replace_link. }
    intros _. unfold touch_link, path_exists.
    apply keeps_files_bind; [apply keeps_files_ask |].
    intros e. destruct e; [| apply keeps_files_ret].
    apply keeps_files_bind; [| intros _; apply keeps_files_ret].
    destruct (utime_supports_follow_symlinks checks);
      [apply keeps_files_tell | apply keeps_files_ret].
  - intros e h. destruct (is_FileExistsError e); [| done].
    intros [= <-]. apply keeps_files_bind; [apply keeps_files_tell |].
    intros _. apply keeps_files_ret.
Qed.

Lemma keeps_files_link_row (utils : Utils) (checks : Checks)
    (self : GoogleAlbumsSync) (st : link_state) (r : AlbumFile.t) :
  _use_hardlinks self = false ->
  keeps_files (link_row utils checks self st r).
Proof.
  intros Hhard. unfold link_row. apply keeps_files_bind.
  { destruct (current_rid st =? AlbumFile.rid r)%string;
      [apply keeps_files_ret |].
    apply keeps_files_bind; [apply keeps_files_tell |].
    intros _. apply keeps_files_ret. }
  intros i. destruct (names_of checks utils self i r) as [n|].
  - apply keeps_files_bind; [by apply keeps_files_link_album_file |].
    intros c. apply keeps_files_ret.
  - intros w. apply files_kept_refl.
Qed.

Lemma keeps_files_clean_up (self : GoogleAlbumsSync) (root_dir : PurePath)
    (valid_links : gset string) :
  _use_hardlinks self = false ->
  keeps_files (_clean_up_stale_links self root_dir valid_links).
Proof.
  intros Hhard w k i Hk.
  apply (clean_up_stale_links_kept self root_dir valid_links w);
    [done | done |].
  right. split; [done | by exists i].
Qed.

Lemma keeps_files_prune (self : GoogleAlbumsSync) (valid_links : gset string) :
  _use_hardlinks self = false ->
  keeps_files (prune self valid_links).
Proof.
  intros Hhard. unfold prune.
  destruct (_preserve_album_links self && _); [| apply keeps_files_ret].
  unfold path_exists. apply keeps_files_bind; [apply keeps_files_ask |].
  intros e1. apply keeps_files_bind.
  { destruct e1; [by apply keeps_files_clean_up | apply keeps_files_ret]. }
  intros n1. apply keeps_files_bind; [apply keeps_files_ask |].
  intros e2. apply keeps_files_bind.
  { destruct e2; [by apply keeps_files_clean_up | apply keeps_files_ret]. }
  intros n2. apply keeps_files_ret.
Qed.

(** X14: a run of [create_album_content_links] that preserves links and
    makes symbolic links removes no regular file, wherever it is: every
    regular file of the tree is still there afterwards, at the same path
    and with the same inode, whether the run ends or raises. *)
Theorem preserving_symlink_run_keeps_files (utils : Utils) (checks : Checks)
    (self : GoogleAlbumsSync) (db : AlbumFiles) (w : World) :
  _preserve_album_links self = true ->
  _use_hardlinks self = false ->
  ∀ k i, fs w !! k = Some (File i) ->
         fs (world_of (create_album_content_links utils checks self db w)) !! k
         = Some (File i).
Proof.
  intros Hpreserve Hhard.
  assert (keeps_files (create_album_content_links utils checks self db))
    as Hrun; [| exact (Hrun w)].
  unfold create_album_content_links. apply keeps_files_bind.
  { intros w0. apply files_kept_subseteq.
    apply (frames_subseteq (fun _ => True)).
    by apply prepare_roots_preserve_respects. }
  intros re_download. apply keeps_files_bind.
  { unfold get_album_files. apply keeps_files_bind; [apply keeps_files_tell |].
    intros _. apply keeps_files_ret. }
  intros rows. apply keeps_files_bind.
  { apply keeps_files_for_each. intros s x. by apply keeps_files_link_row. }
  intros st. apply keeps_files_bind; [by apply keeps_files_prune |].
  intros n. destruct (_preserve_album_links self); apply keeps_files_tell.
Qed.

Lemma preserving_symlink_run_keeps_files_witness :
  fs (world_of (create_album_content_links sample_utils sample_checks
                  preserving_self test_album_files
                  (start linked_with_stale)))
    !! photo_path
  = Some (File 7).
Proof.
  apply (preserving_symlink_run_keeps_files sample_utils sample_checks
           preserving_self test_album_files (start linked_with_stale));
    reflexivity.
Defined.

(** ** Where the link of an album file leads *)

Lemma split_slash_plain (x : string) :
  has_slash x = false -> split_slash x = [x].
Proof.
  induction x as [|c x IH]; [done |]. cbn [has_slash split_slash].
  intros H. apply orb_false_iff in H as [Hc Hx].
  by rewrite Hc, (IH Hx).
Qed.

Lemma split_slash_app (x rest : string) :
  has_slash x = false ->
  split_slash (x +:+ String "/" rest) = x :: split_slash rest.
Proof.
  induction x as [|c x IH]; [done |]. cbn [has_slash].
  intros H. apply orb_false_iff in H as [Hc Hx].
  change (String c x +:+ String "/" rest)
    with (String c (x +:+ String "/" rest)).
  cbn [split_slash]. by rewrite Hc, (IH Hx).
Qed.

Lemma split_slash_concat (l : list string) :
  l ≠ [] -> Forall (fun x => has_slash x = false) l ->
  split_slash (String.concat "/" l) = l.
Proof.
  induction l as [|x l IH]; [done |]. intros _ Hall.
  apply Forall_cons in Hall as [Hx Hall].
  destruct l as [|y l]; [by apply split_slash_plain |].
  change (String.concat "/" (x :: y :: l))
    with (x +:+ String "/" (String.concat "/" (y :: l))).
  rewrite split_slash_app by done. by rewrite IH.
Qed.

Lemma starts_with_slash_app (x r : string) :
  has_slash x = false -> x ≠ "" -> starts_with_slash (x +:+ r) = false.
Proof.
  destruct x as [|c x]; [done |]. cbn [has_slash]. intros H _.
  by apply orb_false_iff in H as [Hc _].
Qed.

Lemma starts_with_slash_concat (l : list string) :
  Forall (fun x => has_slash x = false ∧ x ≠ "") l ->
  starts_with_slash (String.concat "/" l) = false.
Proof.
  destruct l as [|x l]; [done |]. intros Hall.
  apply Forall_cons in Hall as [[Hx Hne] _].
  destruct l as [|y l].
  - rewrite <- (append_empty_r x). by apply starts_with_slash_app.
  - by apply starts_with_slash_app.
Qed.

Lemma filter_all {A : Type} (f : A -> bool) (l : list A) :
  Forall (fun x => f x = true) l -> List.filter f l = l.
Proof.
  induction 1 as [|x l Hx _ IH]; [done |]. simpl. by rewrite Hx, IH.
Qed.

Lemma normpath_step_plain (acc l : list string) :
  Forall (fun x => x ≠ "..") l ->
  foldl (fun acc x => if String.eqb x ".." then removelast acc else acc ++ [x])
    acc l
  = acc ++ l.
Proof.
  intros Hall. revert acc.
  induction Hall as [|x l Hx _ IH]; intros acc; simpl.
  - by rewrite app_nil_r.
  - apply String.eqb_neq in Hx. rewrite Hx, IH. by rewrite <- app_assoc.
Qed.

Lemma normpath_step_dots (acc s : list string) :
  foldl (fun acc x => if String.eqb x ".." then removelast acc else acc ++ [x])
    (acc ++ s) (replicate (length s) "..")
  = acc.
Proof.
  induction s as [|x s IH] using rev_ind; simpl.
  - by rewrite app_nil_r.
  - rewrite length_app. simpl. rewrite Nat.add_1_r. simpl.
    rewrite app_assoc, removelast_last. exact IH.
Qed.

Lemma strip_common_spec (a b s p : list string) :
  strip_common a b = (s, p) -> ∃ c, a = c ++ s ∧ b = c ++ p.
Proof.
  revert b. induction a as [|x a IH]; intros b; simpl.
  - intros [= <- <-]. by exists [].
  - destruct b as [|y b]; [intros [= <- <-]; by exists [] |].
    destruct (String.eqb x y) eqn:E.
    + apply String.eqb_eq in E as ->. intros H.
      destruct (IH b H) as (c & -> & ->). by exists (y :: c).
    + intros [= <- <-]. by exists [].
Qed.

Lemma plain_spec (x : string) :
  plain x = true ->
  has_slash x = false ∧ x ≠ "" ∧ x ≠ "." ∧ x ≠ "..".
Proof.
  unfold plain. intros H.
  apply andb_true_iff in H as [H H4]. apply andb_true_iff in H as [H H3].
  apply andb_true_iff in H as [H1 H2].
  apply negb_true_iff in H1, H2, H3, H4.
  by rewrite !String.eqb_neq in *.
Qed.

Lemma plain_parts_spec (l : list string) :
  plain_parts l = true ->
  Forall (fun x => has_slash x = false ∧ x ≠ "" ∧ x ≠ "." ∧ x ≠ "..") l.
Proof.
  unfold plain_parts. intros H. apply Forall_forall. intros x Hx.
  apply plain_spec. rewrite forallb_forall in H. apply H.
  by apply list_elem_of_In.
Qed.

Lemma path_parts_concat (l : list string) :
  l ≠ [] ->
  Forall (fun x => has_slash x = false ∧ x ≠ "" ∧ x ≠ ".") l ->
  path_parts (String.concat "/" l) = l.
Proof.
  intros Hne Hall. unfold path_parts. rewrite split_slash_concat.
  - apply filter_all. eapply Forall_impl; [exact Hall |].
    intros x (_ & H1 & H2). cbn beta.
    apply String.eqb_neq in H1, H2. by rewrite H1, H2.
  - done.
  - eapply Forall_impl; [exact Hall |]. by intros x (H & _).
Qed.

Lemma resolve_relpath (a b : bool) (path start : list string) (name : string) :
  plain_parts path = true -> plain_parts start = true ->
  resolve_target (start ++ [name]) (relpath (mk_path a path) (mk_path b start))
  = path.
Proof.
  intros Hpath Hstart.
  apply plain_parts_spec in Hpath, Hstart.
  assert (∀ l acc, Forall (fun x => has_slash x = false ∧ x ≠ "" ∧ x ≠ "."
                                    ∧ x ≠ "..") l ->
                   foldl (fun acc x => if String.eqb x ".." then removelast acc
                                       else acc ++ [x]) acc l = acc ++ l)
    as Hplain.
  { intros l acc Hl. apply normpath_step_plain.
    eapply Forall_impl; [exact Hl |]. by intros x (_ & _ & _ & H). }
  assert (∀ l, Forall (fun x => has_slash x = false ∧ x ≠ "" ∧ x ≠ "."
                                ∧ x ≠ "..") l -> normpath l = l) as Hnorm.
  { intros l Hl. unfold normpath. by rewrite Hplain. }
  unfold resolve_target, relpath. cbn [parts].
  rewrite (Hnorm path Hpath), (Hnorm start Hstart).
  destruct (strip_common start path) as [s p] eqn:E.
  apply strip_common_spec in E as (c & -> & ->).
  apply Forall_app in Hpath as [Hc Hp]. apply Forall_app in Hstart as [_ Hs].
  rewrite removelast_last.
  destruct (replicate (length s) ".." ++ p) as [|x l] eqn:Hrel.
  - apply app_eq_nil in Hrel as [Hs0 ->].
    destruct s; [| done]. cbn. rewrite !app_nil_r.
    by apply Hnorm.
  - rewrite <- Hrel.
    assert (Forall (fun x => has_slash x = false ∧ x ≠ "" ∧ x ≠ ".")
              (replicate (length s) ".." ++ p)) as Hcomp.
    { apply Forall_app. split.
      - apply Forall_replicate. by repeat split.
      - eapply Forall_impl; [exact Hp |]. by intros y (H1 & H2 & H3 & _). }
    rewrite starts_with_slash_concat.
    + rewrite path_parts_concat; [| by rewrite Hrel | exact Hcomp].
      unfold normpath. rewrite !foldl_app, (Hplain c) by done.
      rewrite (Hplain s) by done. rewrite normpath_step_dots.
      by rewrite Hplain.
    + eapply Forall_impl; [exact Hcomp |]. by intros y (H1 & H2 & _).
Qed.

Lemma stat_fuel_symlink_file (n : nat) (fs : filesystem) (p : list string)
    (t : string) (i : nat) :
  fs !! p = Some (Symlink t) ->
  fs !! resolve_target p t = Some (File i) ->
  stat_fuel (S n) fs p = Some (resolve_target p t, File i).
Proof.
  intros H1 H2. cbn [stat_fuel]. rewrite H1.
  destruct n; cbn [stat_fuel]; by rewrite H2.
Qed.

(** X15: the symbolic link of an album file leads to its media file.
    Take a tree in which the folder of the link and the folder of the
    media file are reached through real directories only, so that the
    target of the link is read from where the link is. When the path of
    the media file and the path of the link are made of plain components,
    the link sits directly in its folder and holds the relative path
    computed for it, and the media file is a regular file, that relative
    path, read from the folder of the link, is the path of the media
    file, and the link leads to the inode of the media file. *)
Theorem link_target_resolves (checks : Checks) (utils : Utils)
    (self : GoogleAlbumsSync) (album_item : nat) (r : AlbumFile.t)
    (n : link_names) (name : string) (fs : filesystem) (i : nat) :
  names_of checks utils self album_item r = Some n ->
  plain_parts (parts (full_file_name n)) = true ->
  plain_parts (parts (link_folder n)) = true ->
  parts (link_file n) = parts (link_folder n) ++ [name] ->
  real_dirs fs (parts (link_folder n)) ->
  real_dirs fs (removelast (parts (full_file_name n))) ->
  fs !! parts (link_file n) = Some (Symlink (relative_filename n)) ->
  fs !! parts (full_file_name n) = Some (File i) ->
  resolve_target (parts (link_file n)) (relative_filename n)
  = parts (full_file_name n)
  ∧ st_ino fs (parts (link_file n)) = Some (inr i).
Proof.
  intros Hnames Hfull Hfolder Hlink _ _ Hsym Hfile.
  assert (relative_filename n
          = relpath (full_file_name n) (link_folder n)) as Hrel.
  { unfold names_of in Hnames.
    destruct (album_folder_name _ _ _ _ _ _) as [folder|]; [| done].
    cbn in Hnames. by injection Hnames as <-. }
  assert (resolve_target (parts (link_file n)) (relative_filename n)
          = parts (full_file_name n)) as Hres.
  { rewrite Hrel, Hlink.
    destruct (full_file_name n) as [a path], (link_folder n) as [b start].
    by apply resolve_relpath. }
  split; [exact Hres |].
  unfold st_ino.
  change (stat fs (parts (link_file n)))
    with (stat_fuel 40 fs (parts (link_file n))).
  rewrite (stat_fuel_symlink_file 39 fs _ _ i Hsym); [done |].
  by rewrite Hres.
Qed.

Lemma link_target_resolves_witness :
  resolve_target test_link test_target = photo_path
  ∧ st_ino linked test_link = Some (inr 7%nat).
Proof.
  apply (link_target_resolves sample_checks sample_utils preserving_self 0
           test_album_file test_names "0000_test_photo.jpg" linked 7);
    try reflexivity;
    refine (bool_decide_unpack _ _); vm_compute; exact I.
Defined.

(** ** A link that is made *)

Lemma fs_exists_None (fs : filesystem) (p : list string) :
  fs !! p = None -> fs_exists fs p = false.
Proof.
  intros Hnone. destruct (fs_exists fs p) eqn:E; [| done].
  apply fs_exists_lookup in E as [nd E]. congruence.
Qed.

(** X16: the link of an album file is made when nothing is in its way.
    When the album folder is a directory, the media file is there and is
    not a directory, and the link path, which sits directly in the
    folder, is free, [link_album_file] returns with the tree changed at
    the link path only: it holds a symbolic link with the relative path as
    its target or, in hardlink mode, what the path of the media file
    holds. The row is counted when the link leads somewhere. *)
Theorem fresh_link_is_made (utils : Utils) (checks : Checks)
    (self : GoogleAlbumsSync) (full_file_name link_folder link_file : PurePath)
    (relative_filename created file_name name : string) (count : nat)
    (w : World) (nd : node) :
  fs w !! parts link_folder = Some Dir ->
  parts link_file = parts link_folder ++ [name] ->
  fs w !! parts link_file = None ->
  fs_exists (fs w) (parts full_file_name) = true ->
  fs w !! parts full_file_name = Some nd ->
  nd ≠ Dir ->
  let made := if _use_hardlinks self then nd else Symlink relative_filename in
  let fs' := <[parts link_file := made]> (fs w) in
  ∃ l,
    link_album_file utils checks self full_file_name link_folder link_file
      relative_filename created file_name count w
    = Ok (if fs_exists fs' (parts link_file) then S count else count)
        {| fs := fs'; effects := effects w ++ l |}.
Proof.
  intros Hfolder Hparts Hfree Hmedia Hnd Hnotdir made fs'.
  assert (fs_is_dir (fs w) (parts link_folder) = true) as Hdir.
  { unfold fs_is_dir. by rewrite (stat_dir _ _ Hfolder). }
  assert (check_new_entry (fs w) (parts link_file) = None) as Hcheck.
  { unfold check_new_entry. rewrite Hfree, Hparts, removelast_last.
    by rewrite Hfolder. }
  assert (∃ e, replace_link self full_file_name link_file relative_filename w
               = Ok tt {| fs := fs'; effects := effects w ++ [e] |})
    as (e & Hreplace).
  { unfold replace_link, path_exists.
    rewrite bind_ask, (fs_exists_None _ _ Hfree), bind_mret.
    subst fs' made. destruct (_use_hardlinks self).
    - exists (Link full_file_name link_file).
      unfold link, change, fs_link. rewrite Hnd, Hcheck. by destruct nd.
    - exists (SymlinkTo relative_filename link_file).
      assert (symlink_to link_file relative_filename w
              = Ok tt {| fs := <[parts link_file := Symlink relative_filename]>
                                 (fs w);
                         effects := effects w
                                    ++ [SymlinkTo relative_filename link_file] |})
        as Hsym.
      { unfold symlink_to, change, fs_symlink. by rewrite Hcheck. }
      by destruct (_ntfs_override self). }
  unfold link_album_file, try_except, is_dir.
  rewrite bind_ask, Hdir. cbn [negb]. rewrite bind_mret, bind_run.
  assert (make_link self full_file_name link_file relative_filename file_name w
          = Ok tt {| fs := fs'; effects := effects w ++ [e] |}) as ->.
  { unfold make_link, path_exists. rewrite bind_ask, Hmedia, bind_ask.
    unfold create_link.
    by rewrite (fs_exists_None _ _ Hfree), andb_false_r. }
  unfold touch_link, path_exists. rewrite bind_ask. cbn [fs effects].
  destruct (fs_exists fs' (parts link_file)).
  - destruct (utime_supports_follow_symlinks checks).
    + eexists [e; _]. unfold utime, tell, mbind, M_bind, mret, M_ret.
      cbn [fs effects]. by rewrite <- app_assoc.
    + by exists [e].
  - by exists [e].
Qed.

Lemma fresh_link_is_made_witness :
  ∃ l,
    link_album_file sample_utils sample_checks preserving_self
      (full_file_name test_names) (link_folder test_names)
      (mk_path true stale_link) test_target
      "2020-06-15" "test_photo.jpg" 0 (start linked)
    = Ok 1%nat
        {| fs := <[stale_link := Symlink test_target]> linked;
           effects := l |}.
Proof.
  destruct (fresh_link_is_made sample_utils sample_checks preserving_self
              (full_file_name test_names) (link_folder test_names)
              (mk_path true stale_link) test_target
              "2020-06-15" "test_photo.jpg" "stale_link.jpg" 0 (start linked)
              (File 7))
    as (l & Hrun); try reflexivity; try discriminate.
  exists l. exact Hrun.
Defined.

(** ** The bookkeeping of the loop over the album files *)

Lemma respects_link_album_file_effects (utils : Utils) (checks : Checks)
    (self : GoogleAlbumsSync) (full_file_name link_folder link_file : PurePath)
    (relative_filename created file_name : string) (count : nat) :
  respects is_link_effect (fun _ => False)
    (link_album_file utils checks self full_file_name link_folder link_file
       relative_filename created file_name count).
Proof.
  assert (∀ m, respects is_link_effect (fun _ => False) (log m)) as Hlog.
  { intros m. by apply respects_tell. }
  unfold link_album_file. apply respects_try.
  - unfold is_dir. apply respects_bind; [apply respects_ask | intros d].
    apply respects_bind.
    { destruct (negb d); [| apply respects_ret].
      apply respects_bind; [apply Hlog | intros _].
      by apply respects_mkdir. }
    intros _. apply respects_bind.
    { unfold make_link, path_exists.
      apply respects_bind; [apply respects_ask | intros e].
      destruct e; [| apply Hlog].
      apply respects_bind; [apply respects_ask | intros c].
      destruct c; [| apply respects_ret].
      unfold replace_link, path_exists.
      apply respects_bind; [apply respects_ask | intros e].
      apply respects_bind.
      { destruct e; [| apply respects_ret].
        unfold is_symlink.
        apply respects_bind; [apply respects_ask | intros s].
        destruct (s || _use_hardlinks self); [| apply Hlog].
        apply respects_unlink; [done | by intros []]. }
      intros _. destruct (_use_hardlinks self); [by apply respects_link |].
      destruct (_ntfs_override self); by apply respects_symlink_to. }
    intros _. unfold touch_link, path_exists.
    apply respects_bind; [apply respects_ask | intros e].
    destruct e; [| apply respects_ret].
    apply respects_bind; [| intros _; apply respects_ret].
    destruct (utime_supports_follow_symlinks checks);
      [by apply respects_tell | apply respects_ret].
  - intros e h. destruct (is_FileExistsError e); [| done].
    intros [= <-]. apply respects_bind; [apply Hlog | intros _].
    apply respects_ret.
Qed.

Lemma link_effects_downloaded (l : list effect) :
  Forall is_link_effect l -> downloaded_calls l = [].
Proof.
  induction 1 as [|e l He _ IH]; [done |]. by destruct e.
Qed.

Lemma downloaded_calls_app (l1 l2 : list effect) :
  downloaded_calls (l1 ++ l2) = downloaded_calls l1 ++ downloaded_calls l2.
Proof. apply omap_app. Qed.

(** What one turn of the loop that returns has done to the loop
    variables and to the store. *)
Lemma link_row_Ok (utils : Utils) (checks : Checks) (self : GoogleAlbumsSync)
    (st : link_state) (r : AlbumFile.t) (w : World) (st' : link_state)
    (w' : World) :
  link_row utils checks self st r w = Ok st' w' ->
  ∃ n l,
    names_of checks utils self (next_album_item st r) r = Some n
    ∧ album_item st' = next_album_item st r
    ∧ current_rid st' = AlbumFile.rid r
    ∧ valid_links st'
      = (if _preserve_album_links self
         then {[str (link_file n)]} ∪ valid_links st else valid_links st)
    ∧ effects w' = effects w ++ l
    ∧ downloaded_calls l
      = if String.eqb (current_rid st) (AlbumFile.rid r) then []
        else [AlbumFile.rid r].
Proof.
  unfold link_row, next_album_item. rewrite bind_run.
  destruct (current_rid st =? AlbumFile.rid r)%string.
  - cbn [mret M_ret].
    destruct (names_of checks utils self (S (album_item st)) r) as [n|];
      [| done].
    rewrite bind_run.
    pose proof (respects_link_album_file_effects utils checks self
                  (full_file_name n) (link_folder n) (link_file n)
                  (relative_filename n) (AlbumFile.created r)
                  (slice_to (AlbumFile.file_name r) (max_filename checks))
                  (count st) w) as [(l & Hl & Hall) _].
    destruct (link_album_file _ _ _ _ _ _ _ _ _ _ _) as [c w1|e w1]; [| done].
    intros [= <- <-]. exists n, l. cbn [world_of] in Hl.
    repeat split; try done. by apply link_effects_downloaded.
  - unfold put_album_downloaded. rewrite bind_tell. cbn [mret M_ret].
    destruct (names_of checks utils self 0 r) as [n|]; [| done].
    rewrite bind_run.
    match goal with
    | |- context [link_album_file _ _ _ _ _ _ _ _ _ _ ?w0] =>
      pose proof (respects_link_album_file_effects utils checks self
                    (full_file_name n) (link_folder n) (link_file n)
                    (relative_filename n) (AlbumFile.created r)
                    (slice_to (AlbumFile.file_name r) (max_filename checks))
                    (count st) w0) as [(l & Hl & Hall) _]
    end.
    destruct (link_album_file _ _ _ _ _ _ _ _ _ _ _) as [c w1|e w1]; [| done].
    intros [= <- <-]. exists n, (PutAlbumDownloaded (AlbumFile.rid r) :: l).
    cbn [world_of effects] in Hl. rewrite Hl, <- app_assoc.
    repeat split; try done.
    change (AlbumFile.rid r :: downloaded_calls l = [AlbumFile.rid r]).
    by rewrite (link_effects_downloaded l Hall).
Qed.

Lemma link_rows_Ok (utils : Utils) (checks : Checks) (self : GoogleAlbumsSync)
    (rows : list AlbumFile.t) (st : link_state) (w : World)
    (st' : link_state) (w' : World) :
  for_each (link_row utils checks self) rows st w = Ok st' w' ->
  valid_links st'
  = (if _preserve_album_links self
     then list_to_set (row_links checks utils self (current_rid st)
                         (album_item st) rows) ∪ valid_links st
     else valid_links st)
  ∧ length (row_links checks utils self (current_rid st) (album_item st) rows)
    = length rows
  ∧ ∃ l, effects w' = effects w ++ l
         ∧ downloaded_calls l = album_starts (current_rid st) rows.
Proof.
  revert st w. induction rows as [|r rows IH]; intros st w; cbn [for_each].
  - intros [= <- <-]. split; [| split; [done |]].
    + destruct (_preserve_album_links self); [| done].
      cbn [row_links]. rewrite list_to_set_nil. by rewrite (left_id_L ∅ (∪)).
    + exists []. by rewrite app_nil_r.
  - intros Hrun. apply bind_Ok in Hrun as (st1 & w1 & Hrow & Hrest).
    apply link_row_Ok in Hrow
      as (n & l1 & Hnames & Hitem & Hrid & Hvalid & Hl1 & Hd1).
    apply IH in Hrest as (Hvalid' & Hlen & l2 & Hl2 & Hd2).
    cbn [row_links album_starts]. unfold next_album_item in *.
    rewrite Hrid, Hitem in *. rewrite Hnames.
    split; [| split].
    + rewrite Hvalid', Hvalid.
      destruct (_preserve_album_links self); [| done].
      rewrite list_to_set_cons.
      rewrite (assoc_L (∪)). f_equal. apply (comm_L (∪)).
    + cbn. by rewrite Hlen.
    + exists (l1 ++ l2). rewrite Hl2, Hl1, <- app_assoc. split; [done |].
      by rewrite downloaded_calls_app, Hd1, Hd2.
Qed.

(** X17: the set of valid links that the loop over the album files hands
    to the pruning pass. When the loop ends in preserve mode, the set
    holds the link path of every album file, each with the number of the
    file within its album, and nothing else is added to it; when links
    are not preserved the set is left as it was, so that it is still
    empty when the loop ends and nothing is pruned. *)
Theorem loop_collects_the_valid_links (utils : Utils) (checks : Checks)
    (self : GoogleAlbumsSync) (rows : list AlbumFile.t) (st : link_state)
    (w : World) (st' : link_state) (w' : World) :
  for_each (link_row utils checks self) rows st w = Ok st' w' ->
  let links := row_links checks utils self (current_rid st) (album_item st)
                 rows in
  length links = length rows
  ∧ valid_links st'
    = (if _preserve_album_links self
       then list_to_set links ∪ valid_links st else valid_links st).
Proof.
  intros Hrun links.
  apply link_rows_Ok in Hrun as (Hvalid & Hlen & _). by split.
Qed.

Lemma loop_collects_the_valid_links_witness :
  valid_links three_links_state
  = list_to_set
      ["/sync/albums/2020/12 Test Album/0000_test_photo.jpg";
       "/sync/albums/2020/12 Test Album/0001_other.jpg";
       "/sync/albums/2020/12 Home/0000_test_photo.jpg"] ∪ ∅.
Proof.
  apply (loop_collects_the_valid_links sample_utils sample_checks
           preserving_self three_album_files first_link_state
           (start media_only) three_links_state (world_of three_links_run)).
  assert (match three_links_run with
          | Ok _ _ => true
          | Raise _ _ => false
          end = true) as Hrun by (vm_compute; reflexivity).
  unfold three_links_state.
  change (for_each (link_row sample_utils sample_checks preserving_self)
            three_album_files first_link_state (start media_only))
    with three_links_run.
  destruct three_links_run as [st w|e w]; [reflexivity | discriminate Hrun].
Defined.

(** X18: [put_album_downloaded] is called once for each album that
    begins in the rows of [get_album_files]: when the loop over the album
    files ends, the calls made are, in order, the identifiers of the rows
    whose album is not that of the row before. A first row with the empty
    identifier begins no album, since the loop starts with the empty
    identifier as current album. *)
Theorem put_album_downloaded_once_per_album (utils : Utils) (checks : Checks)
    (self : GoogleAlbumsSync) (rows : list AlbumFile.t) (st : link_state)
    (w : World) (st' : link_state) (w' : World) :
  for_each (link_row utils checks self) rows st w = Ok st' w' ->
  ∃ l, effects w' = effects w ++ l
       ∧ downloaded_calls l = album_starts (current_rid st) rows.
Proof.
  intros Hrun. by apply link_rows_Ok in Hrun as (_ & _ & Hcalls).
Qed.

Lemma put_album_downloaded_once_per_album_witness :
  ∃ l, effects (world_of three_links_run) = l
       ∧ downloaded_calls l = ["album1"; "album2"].
Proof.
  destruct (put_album_downloaded_once_per_album sample_utils sample_checks
              preserving_self three_album_files first_link_state
              (start media_only) three_links_state
              (world_of three_links_run))
    as (l & Hl & Hcalls).
  { assert (match three_links_run with
            | Ok _ _ => true
            | Raise _ _ => false
            end = true) as Hrun by (vm_compute; reflexivity).
    unfold three_links_state.
    change (for_each (link_row sample_utils sample_checks preserving_self)
              three_album_files first_link_state (start media_only))
      with three_links_run.
    destruct three_links_run as [st w|e w]; [reflexivity | discriminate Hrun]. }
  exists l. split; [exact Hl | exact Hcalls].
Defined.

(** ** The count of the pruning pass *)

Lemma unlink_calls_app (l1 l2 : list effect) :
  unlink_calls (l1 ++ l2) = unlink_calls l1 ++ unlink_calls l2.
Proof. apply omap_app. Qed.

Lemma remove_stale_counted (self : GoogleAlbumsSync) (valid_links : gset string)
    (removed_count : nat) (path : PurePath) (w : World) :
  ∃ l, remove_stale self valid_links removed_count path w
       = Ok (removed_count + length (unlink_calls l))%nat
           {| fs := stale_step self valid_links (fs w) path;
              effects := effects w ++ l |}
       ∧ Forall (fun q => q = path ∧ str q ∉ valid_links) (unlink_calls l).
Proof.
  assert (Ok removed_count w
          = Ok (removed_count + length (unlink_calls []))%nat
              {| fs := fs w; effects := effects w ++ [] |}) as Hsame.
  { cbn. rewrite app_nil_r, Nat.add_0_r. by destruct w. }
  unfold remove_stale, stale_step, is_dir. rewrite bind_ask.
  destruct (fs_is_dir (fs w) (parts path)) eqn:Hdir.
  { exists []. split; [apply Hsame | constructor]. }
  destruct (bool_decide (str path ∉ valid_links)) eqn:Hvalid.
  2: { exists []. split; [apply Hsame | constructor]. }
  apply bool_decide_eq_true_1 in Hvalid.
  unfold try_except, is_symlink, path_exists. rewrite !bind_ask.
  destruct (fs_is_symlink (fs w) (parts path)
            || _use_hardlinks self && fs_exists (fs w) (parts path)) eqn:Hgo.
  2: { exists []. split; [apply Hsame | constructor]. }
  unfold log. rewrite bind_tell, bind_run.
  unfold unlink, change, fs_unlink. cbn [fs effects].
  pose proof (not_dir_entry _ _ Hdir) as Hnd.
  destruct (fs w !! parts path) as [[|i|t]|] eqn:E; try done.
  - exists [Log (RemovingStaleLink path); Unlink path (File i)].
    unfold mret, M_ret. rewrite <- app_assoc, (Nat.add_comm removed_count).
    split; [reflexivity |]. by repeat constructor.
  - exists [Log (RemovingStaleLink path); Unlink path (Symlink t)].
    unfold mret, M_ret. rewrite <- app_assoc, (Nat.add_comm removed_count).
    split; [reflexivity |]. by repeat constructor.
  - exfalso. unfold fs_is_symlink in Hgo. rewrite E in Hgo.
    cbn [orb] in Hgo. apply andb_true_iff in Hgo as [_ Hex].
    assert (is_Some (fs w !! parts path)) as [x Hx].
    { apply fs_exists_lookup. exact Hex. }
    congruence.
Qed.

Lemma remove_stale_loop_counted (self : GoogleAlbumsSync)
    (valid_links : gset string) (paths : list PurePath) (removed_count : nat)
    (w : World) :
  ∃ l, for_each (remove_stale self valid_links) paths removed_count w
       = Ok (removed_count + length (unlink_calls l))%nat
           {| fs := foldl (stale_step self valid_links) (fs w) paths;
              effects := effects w ++ l |}
       ∧ Forall (fun q => q ∈ paths ∧ str q ∉ valid_links) (unlink_calls l).
Proof.
  revert removed_count w.
  induction paths as [|p paths IH]; intros removed_count w.
  - exists []. cbn. unfold mret, M_ret.
    rewrite app_nil_r, Nat.add_0_r. split; [by destruct w | constructor].
  - cbn [for_each foldl]. rewrite bind_run.
    destruct (remove_stale_counted self valid_links removed_count p w)
      as (l1 & -> & Hall1).
    destruct (IH (removed_count + length (unlink_calls l1))%nat
                {| fs := stale_step self valid_links (fs w) p;
                   effects := effects w ++ l1 |})
      as (l2 & -> & Hall2).
    exists (l1 ++ l2). cbn [fs effects].
    rewrite unlink_calls_app, length_app, <- app_assoc, Nat.add_assoc.
    split; [done |]. apply Forall_app. split.
    + eapply Forall_impl; [exact Hall1 |]. intros q [-> Hq].
      split; [apply elem_of_cons; by left | done].
    + eapply Forall_impl; [exact Hall2 |]. intros q [Hin Hq].
      split; [apply elem_of_cons; by right | done].
Qed.

Lemma remove_empty_quiet (u : unit) (path : PurePath) (w : World) :
  ∃ l, remove_empty u path w
       = Ok tt {| fs := empty_step (fs w) path; effects := effects w ++ l |}
       ∧ unlink_calls l = [].
Proof.
  assert (Ok tt w = Ok tt {| fs := fs w; effects := effects w ++ [] |})
    as Hsame.
  { rewrite app_nil_r. by destruct w. }
  unfold remove_empty, empty_step, is_dir. rewrite !bind_ask.
  destruct (fs w !! parts path) as [nd|] eqn:E.
  - destruct nd.
    + unfold fs_is_dir, any_iterdir. rewrite (stat_dir _ _ E).
      destruct (children (fs w) (parts path)) as [|c cs] eqn:Hc; cbn [andb negb].
      * unfold try_except, log. rewrite bind_tell.
        unfold rmdir, change, fs_rmdir. cbn [fs effects]. rewrite E, Hc.
        eexists [_; _]. by rewrite <- app_assoc.
      * exists []. by split.
    + destruct (fs_is_dir (fs w) (parts path)
                && negb (any_iterdir (fs w) (parts path)));
        [| exists []; by split].
      unfold try_except, log. rewrite bind_tell.
      unfold rmdir, change, fs_rmdir. cbn [fs effects]. rewrite E.
      cbn [is_OSError]. unfold tell. cbn [fs effects].
      eexists [_; _]. by rewrite <- app_assoc.
    + destruct (fs_is_dir (fs w) (parts path)
                && negb (any_iterdir (fs w) (parts path)));
        [| exists []; by split].
      unfold try_except, log. rewrite bind_tell.
      unfold rmdir, change, fs_rmdir. cbn [fs effects]. rewrite E.
      cbn [is_OSError]. unfold tell. cbn [fs effects].
      eexists [_; _]. by rewrite <- app_assoc.
  - destruct (fs_is_dir (fs w) (parts path)
              && negb (any_iterdir (fs w) (parts path)));
      [| exists []; by split].
    unfold try_except, log. rewrite bind_tell.
    unfold rmdir, change, fs_rmdir. cbn [fs effects]. rewrite E.
    cbn [is_OSError]. unfold tell. cbn [fs effects].
    eexists [_; _]. by rewrite <- app_assoc.
Qed.

Lemma remove_empty_loop_quiet (paths : list PurePath) (w : World) :
  ∃ fs' l, for_each remove_empty paths tt w
           = Ok tt {| fs := fs'; effects := effects w ++ l |}
           ∧ unlink_calls l = [].
Proof.
  revert w. induction paths as [|p paths IH]; intros w.
  - exists (fs w), []. cbn. unfold mret, M_ret. rewrite app_nil_r.
    split; [by destruct w | done].
  - cbn [for_each]. rewrite bind_run.
    destruct (remove_empty_quiet tt p w) as (l1 & -> & Hq1).
    destruct (IH {| fs := empty_step (fs w) p; effects := effects w ++ l1 |})
      as (fs' & l2 & -> & Hq2).
    exists fs', (l1 ++ l2). cbn [fs effects].
    rewrite unlink_calls_app, Hq1, Hq2, <- app_assoc. by split.
Qed.

(** X19: the count [_clean_up_stale_links] returns is the number of
    entries it has unlinked, and each of them was below the root and not
    in the set of valid links. *)
Theorem removed_count_counts_the_unlinks (self : GoogleAlbumsSync)
    (root_dir : PurePath) (valid_links : gset string) (w : World) :
  ∃ removed_count w' l,
    _clean_up_stale_links self root_dir valid_links w = Ok removed_count w'
    ∧ effects w' = effects w ++ l
    ∧ removed_count = length (unlink_calls l)
    ∧ Forall (fun q => strictly_under (parts root_dir) (parts q)
                       ∧ str q ∉ valid_links) (unlink_calls l).
Proof.
  unfold _clean_up_stale_links, glob. rewrite bind_ask, bind_run.
  destruct (remove_stale_loop_counted self valid_links
              (mk_path (anchored root_dir) <$> fs_glob (fs w) (parts root_dir))
              0%nat w) as (l1 & -> & Hall).
  rewrite bind_ask, bind_run. cbn [fs effects].
  match goal with
  | |- context [for_each remove_empty ?ps tt ?w1] =>
    destruct (remove_empty_loop_quiet ps w1) as (fs' & l2 & -> & Hquiet)
  end.
  eexists _, _, (l1 ++ l2). unfold mret, M_ret. cbn [fs effects].
  split; [reflexivity |]. split; [by rewrite app_assoc |].
  rewrite unlink_calls_app, Hquiet, app_nil_r. split; [done |].
  eapply Forall_impl; [exact Hall |]. intros q [Hin Hq]. split; [| done].
  apply list_elem_of_fmap in Hin as (k & -> & Hk).
  by apply fs_glob_strictly_under in Hk as [Hk _].
Qed.

(** * Statements on whole runs *)

(** ** C10: [re_download] *)

(** The query of the album files: one effect, and the rows of the
    answer. *)
Lemma get_album_files_run {B : Type} (db : AlbumFiles)
    (album_invert download_again : bool) (f : list AlbumFile.t -> M B)
    (w : World) :
  (get_album_files db album_invert download_again ≫= f) w
  = f (album_files db album_invert download_again)
      {| fs := fs w;
         effects := effects w ++ [GetAlbumFiles album_invert download_again] |}.
Proof. reflexivity. Qed.


(** ** C1: the two passes of [index_album_media], each over its listing *)

(** One pass of [index_albums_type] over a listing: the events between
    its opening and closing lines carry one decision for each listed
    album, in the order of the listing, and the albums it fetches are
    [chosen] among the listed ones. *)
Lemma index_albums_type_pass (utils : Utils) (self : GoogleAlbumsSync)
    (api : RestClient) (responses : list album_response)
    (item_key description : string) (allow add : bool) (db : LocalData) :
  ∃ l chosen,
    trace (index_albums_type utils self api responses item_key description
             allow add db)
    = trace db ++ [LogIndexing description] ++ l
      ++ [LogIndexed (length (listed_albums responses)) description]
    ∧ Forall (is_pass_event (if favourites self then false else add)) l
    ∧ Forall2 (decision_for self allow) (listed_albums responses)
        (decisions l)
    ∧ chosen `sublist_of`
        List.filter (wanted self allow) (listed_albums responses)
    ∧ (flush self = true ->
       chosen = List.filter (wanted self allow) (listed_albums responses))
    ∧ fetch_calls l
      = (fun a => (GoogleAlbumMedia.id a,
                   if favourites self then false else add)) <$> chosen
    ∧ put_album_row_calls l = album_row utils self api item_key <$> chosen.
Proof.
  destruct (index_albums_type_trace utils self api responses item_key
              description allow add db) as (l & n & Ht & Hp & Hd).
  destruct (index_albums_type_accounted utils self api responses item_key
              description allow add db)
    as (l' & chosen & Ht' & Hsub & Hflush & Hc & Hr).
  assert (l' = l) as ->.
  { rewrite Ht in Ht'. apply app_inv_head in Ht'.
    apply (app_inv_head [_]) in Ht'.
    by apply app_inj_tail in Ht' as [-> _]. }
  by exists l, chosen.
Qed.

(** C1, as the code has it: with shared albums enabled, a run of
    [index_album_media] is the pass over the listing of the shared albums
    followed by the pass over the listing of the owned albums. Each pass
    decides on every album of its own listing, in the order of that
    listing, with a title required in the shared pass and not in the
    owned pass; the albums a pass fetches are albums of its listing that
    get through the filters, each fetched once, and an album row is
    written for each with the shared flag of the pass. Every call of
    [fetch_album_contents] of the shared pass has [add_media_items] true
    unless the run is favourites-only, whatever [album_index] says, and
    every call of the owned pass has [add_media_items] equal to
    [album_index] unless the run is favourites-only. A favourites-only run
    makes both passes fetch with [add_media_items] false. *)
Theorem index_album_media_passes (utils : Utils) (self : GoogleAlbumsSync)
    (api : RestClient) (db : LocalData) :
  shared_albums self = true ->
  ∃ shared chosen_shared owned chosen_owned,
    trace (index_album_media utils self api db)
    = trace db
      ++ [LogIndexing "Shared (titled) Albums"] ++ shared
      ++ [LogIndexed (length (listed_albums (sharedAlbums_list api)))
            "Shared (titled) Albums"]
      ++ [LogIndexing "Albums"] ++ owned
      ++ [LogIndexed (length (listed_albums (albums_list api))) "Albums"]
    ∧ Forall (is_pass_event (negb (favourites self))) shared
    ∧ Forall (is_pass_event (album_index self && negb (favourites self)))
        owned
    ∧ Forall2 (decision_for self false)
        (listed_albums (sharedAlbums_list api)) (decisions shared)
    ∧ Forall2 (decision_for self true)
        (listed_albums (albums_list api)) (decisions owned)
    ∧ chosen_shared `sublist_of`
        List.filter (wanted self false)
          (listed_albums (sharedAlbums_list api))
    ∧ chosen_owned `sublist_of`
        List.filter (wanted self true) (listed_albums (albums_list api))
    ∧ fetch_calls shared
      = (fun a => (GoogleAlbumMedia.id a, negb (favourites self)))
          <$> chosen_shared
    ∧ fetch_calls owned
      = (fun a => (GoogleAlbumMedia.id a,
                   album_index self && negb (favourites self)))
          <$> chosen_owned
    ∧ put_album_row_calls shared
      = album_row utils self api "sharedAlbums" <$> chosen_shared
    ∧ put_album_row_calls owned
      = album_row utils self api "albums" <$> chosen_owned.
Proof.
  intros Hshared. unfold index_album_media. rewrite Hshared.
  destruct (index_albums_type_pass utils self api (sharedAlbums_list api)
              "sharedAlbums" "Shared (titled) Albums" false true db)
    as (l1 & c1 & Ht1 & Hp1 & Hd1 & Hs1 & _ & Hf1 & Hr1).
  destruct (index_albums_type_pass utils self api (albums_list api)
              "albums" "Albums" true (album_index self)
              (index_albums_type utils self api (sharedAlbums_list api)
                 "sharedAlbums" "Shared (titled) Albums" false true db))
    as (l2 & c2 & Ht2 & Hp2 & Hd2 & Hs2 & _ & Hf2 & Hr2).
  exists l1, c1, l2, c2. rewrite Ht2, Ht1, <- !app_assoc.
  split; [reflexivity |].
  split; [by destruct (favourites self) |].
  split; [by destruct (favourites self), (album_index self) |].
  split; [exact Hd1 |]. split; [exact Hd2 |].
  split; [exact Hs1 |]. split; [exact Hs2 |].
  split; [rewrite Hf1; by destruct (favourites self) |].
  split; [rewrite Hf2; by destruct (favourites self), (album_index self) |].
  split; [exact Hr1 | exact Hr2].
Qed.

Lemma index_album_media_passes_witness :
  ∃ shared chosen_shared owned chosen_owned,
    trace (index_album_media sample_utils
             (sample_self false true false false None)
             one_shared_album empty_store)
    = [LogIndexing "Shared (titled) Albums"] ++ shared
      ++ [LogIndexed 1 "Shared (titled) Albums"]
      ++ [LogIndexing "Albums"] ++ owned ++ [LogIndexed 0 "Albums"]
    ∧ Forall (is_pass_event true) shared
    ∧ Forall (is_pass_event true) owned
    ∧ Forall2 (decision_for (sample_self false true false false None) false)
        [GoogleAlbumMedia.mk "s" "Trip" "Trip" 1 "Trip"] (decisions shared)
    ∧ Forall2 (decision_for (sample_self false true false false None) true)
        [] (decisions owned)
    ∧ chosen_shared `sublist_of` [GoogleAlbumMedia.mk "s" "Trip" "Trip" 1 "Trip"]
    ∧ chosen_owned `sublist_of` []
    ∧ fetch_calls shared
      = (fun a => (GoogleAlbumMedia.id a, true)) <$> chosen_shared
    ∧ fetch_calls owned
      = (fun a => (GoogleAlbumMedia.id a, true)) <$> chosen_owned
    ∧ put_album_row_calls shared
      = album_row sample_utils (sample_self false true false false None)
          one_shared_album "sharedAlbums" <$> chosen_shared
    ∧ put_album_row_calls owned
      = album_row sample_utils (sample_self false true false false None)
          one_shared_album "albums" <$> chosen_owned.
Proof.
  exact (index_album_media_passes sample_utils
           (sample_self false true false false None)
           one_shared_album empty_store eq_refl).
Defined.

(** C1 as stated fails: in a favourites-only run the pass over the
    shared albums calls [fetch_album_contents] with [add_media_items]
    false. The listing has one shared album and no owned album. *)
Lemma favourites_only_shared_pass :
  fetch_calls
    (trace (index_album_media sample_utils
              (sample_self true true false false None)
              one_shared_album empty_store))
  = [("s", false)].
Proof. vm_compute. reflexivity. Qed.

(** ** C5: the skip policy of a pass *)

(** An earlier album of the listing with another identifier leaves the
    row of an album alone. *)
Lemma index_albums_other_rows (utils : Utils) (self : GoogleAlbumsSync)
    (api : RestClient) (item_key description : string) (allow add : bool)
    (listing : list GoogleAlbumMedia.t) (st : nat * LocalData) (k : string) :
  k ∉ GoogleAlbumMedia.id <$> listing ->
  albums (foldl (index_album utils self api item_key description allow add)
            st listing).2 !! k
  = albums st.2 !! k.
Proof.
  revert st. induction listing as [|a listing IH]; intros st Hk; [done |].
  cbn [foldl]. rewrite fmap_cons in Hk. apply not_elem_of_cons in Hk as [Hne Hk].
  rewrite (IH _ Hk). destruct st as [count db].
  by apply (index_album_store utils self api item_key description allow add
              count db a).
Qed.

(** C5: in a pass of [index_albums_type] over a listing, take any listed
    album [a] that passes the name filter, the regex filter and the title
    rule, and for which the store holds a row when the loop reaches it
    (the row the store had before the pass, when no earlier album of the
    listing has the same identifier). The trace of the pass is the
    opening line, the events of the albums listed before [a] with one
    decision for each, the events of [a], the events of the albums listed
    after [a] with one decision for each, and the closing line. When the
    stored size is the listed size and no flush was asked for, the events
    of [a] are the skip line and at most the progress line:
    [fetch_album_contents] is not called and no album row is written for
    it. When the stored size differs from the listed size, by any amount,
    the events of [a] are the call of [fetch_album_contents], the record
    of every listed item of the album and the writing of the album row
    with the listed size. *)
Theorem index_albums_type_skip_policy (utils : Utils)
    (self : GoogleAlbumsSync) (api : RestClient)
    (responses : list album_response) (item_key description : string)
    (allow add : bool) (db : LocalData)
    (pre post : list GoogleAlbumMedia.t) (a : GoogleAlbumMedia.t)
    (row : GoogleAlbumsRow.t) :
  listed_albums responses = pre ++ a :: post ->
  passes_filters self a ->
  allow = true ∨ GoogleAlbumMedia.description a ≠ "none" ->
  get_album
    (foldl (index_album utils self api item_key description allow
              (if favourites self then false else add))
       (0%nat, emit (LogIndexing description) db) pre).2
    (GoogleAlbumMedia.id a) = Some row ->
  (GoogleAlbumMedia.id a ∉ GoogleAlbumMedia.id <$> pre ->
   get_album db (GoogleAlbumMedia.id a) = Some row)
  ∧ ∃ before events after,
      trace (index_albums_type utils self api responses item_key description
               allow add db)
      = trace db ++ [LogIndexing description] ++ before ++ events ++ after
        ++ [LogIndexed (length (listed_albums responses)) description]
      ∧ Forall2 (decision_for self allow) pre (decisions before)
      ∧ Forall2 (decision_for self allow) post (decisions after)
      ∧ (GoogleAlbumsRow.Size row = GoogleAlbumMedia.size a ->
         flush self = false ->
         ∃ l, events = LogSkipping AlreadyIndexed (GoogleAlbumMedia.id a) :: l
              ∧ (l = [] ∨ l = [LogListed (S (length pre)) description]))
      ∧ (GoogleAlbumsRow.Size row ≠ GoogleAlbumMedia.size a ->
         ∃ first last l l',
           events
           = LogIndexingAlbum (GoogleAlbumMedia.id a)
             :: FetchAlbumContents (GoogleAlbumMedia.id a)
                  (if favourites self then false else add)
             :: l
             ++ PutAlbumRow
                  (GoogleAlbumsRow.from_parm (GoogleAlbumMedia.id a)
                     (GoogleAlbumMedia.filename a) (GoogleAlbumMedia.size a)
                     first last (shared_of_key item_key)) true
             :: l'
           ∧ Forall is_fetch_event l
           ∧ put_album_file_calls l
             = calls_for self (GoogleAlbumMedia.id a) 0
                 (listed_media
                    (mediaItems_search api (GoogleAlbumMedia.id a)))
           ∧ (l' = [] ∨ l' = [LogListed (S (length pre)) description])).
Proof.
  intros Hlist Hpass Htitle Hrow.
  set (add' := if favourites self then false else add) in *.
  set (st0 := (0%nat, emit (LogIndexing description) db)) in *.
  split.
  { intros Hnew. unfold get_album in *.
    by rewrite index_albums_other_rows in Hrow. }
  unfold index_albums_type. fold add'. rewrite index_pages_fold.
  fold st0. rewrite Hlist, foldl_app. cbn [foldl].
  destruct (indexed_albums utils self api item_key description allow add'
              pre st0) as (Hn1 & before & Ht1 & _ & Hd1).
  destruct (foldl (index_album utils self api item_key description allow add')
              st0 pre) as [count1 db1] eqn:E1.
  cbn [fst snd] in *. subst count1.
  destruct (index_album_policy utils self api item_key description allow add'
              (length pre) db1 a row Hpass Htitle Hrow) as [Hskip Hfetch].
  destruct (indexed_albums utils self api item_key description allow add'
              post (index_album utils self api item_key description allow
                      add' (length pre, db1) a))
    as (Hn3 & after & Ht3 & _ & Hd3).
  assert ((index_album utils self api item_key description allow add'
             (length pre, db1) a).1 = S (length pre)) as Hn2.
  { unfold index_album. reflexivity. }
  assert (∃ events,
            trace (index_album utils self api item_key description allow
                     add' (length pre, db1) a).2 = trace db1 ++ events)
    as [events Ht2].
  { destruct (indexed_album utils self api item_key description allow add'
                (length pre, db1) a) as (_ & l & Hl & _). by exists l. }
  destruct (foldl _ (index_album _ _ _ _ _ _ _ _ _) post)
    as [count3 db3] eqn:E3.
  cbn [fst snd] in *.
  exists before, events, after.
  split.
  { cbn [emit trace]. rewrite Ht3, Ht2, Ht1. subst st0. cbn [snd emit trace].
    rewrite Hn3, Hn2, length_app. cbn [length].
    rewrite <- !app_assoc. do 5 f_equal.
    f_equal. f_equal. lia. }
  split; [exact Hd1 |]. split; [exact Hd3 |]. split.
  - intros Hsize Hflush.
    destruct (Hskip Hsize Hflush) as (_ & l & Hl & Hcases).
    exists l. split; [| exact Hcases].
    rewrite Ht2 in Hl. by apply app_inv_head in Hl.
  - intros Hsize.
    destruct (Hfetch Hsize)
      as (first & last & l & l' & Hl & Hev & Hcalls & _ & Hcases).
    exists first, last, l, l'. cbv zeta in Hl.
    rewrite Ht2 in Hl. apply app_inv_head in Hl.
    split; [exact Hl |]. split; [exact Hev |]. split; [exact Hcalls |].
    exact Hcases.
Qed.

Lemma index_albums_type_skip_policy_witness :
  (∃ before after,
     trace (index_albums_type sample_utils
              (sample_self false true false false None) two_albums
              (album_page [GoogleAlbumMedia.mk "b" "Home" "Home" 1 "Home";
                           trip_album 3])
              "albums" "Albums" true true store_with_album)
     = [LogIndexing "Albums"] ++ before
       ++ [LogSkipping AlreadyIndexed "a"] ++ after ++ [LogIndexed 2 "Albums"]
     ∧ Forall2 (decision_for (sample_self false true false false None) true)
         [GoogleAlbumMedia.mk "b" "Home" "Home" 1 "Home"] (decisions before)
     ∧ decisions after = [])
  ∧ ∃ before events after,
      trace (index_albums_type sample_utils
               (sample_self false true false false None) two_albums
               (album_page [GoogleAlbumMedia.mk "b" "Home" "Home" 1 "Home";
                            trip_album 4])
               "albums" "Albums" true true store_with_album)
      = [LogIndexing "Albums"] ++ before ++ events ++ after
        ++ [LogIndexed 2 "Albums"]
      ∧ fetch_calls events = [("a", true)]
      ∧ put_album_file_calls events = [("a", "p", 0)].
Proof.
  assert (passes_filters (sample_self false true false false None)
            (trip_album 3)
          ∧ passes_filters (sample_self false true false false None)
              (trip_album 4)) as [Hp3 Hp4].
  { split; (split; [by left | intros re_search H; discriminate H]). }
  split.
  - destruct (index_albums_type_skip_policy sample_utils
                (sample_self false true false false None) two_albums
                (album_page [GoogleAlbumMedia.mk "b" "Home" "Home" 1 "Home";
                             trip_album 3])
                "albums" "Albums" true true store_with_album
                [GoogleAlbumMedia.mk "b" "Home" "Home" 1 "Home"] []
                (trip_album 3)
                (GoogleAlbumsRow.from_parm "a" "Trip" 3
                   (date 2020 1 1) (date 2020 12 31) (Some false))
                eq_refl Hp3 (or_introl eq_refl))
      as (_ & before & events & after & Ht & Hd1 & Hd3 & Hskip & _).
    { vm_compute. reflexivity. }
    destruct (Hskip eq_refl eq_refl) as (l & -> & [->| ->]).
    + exists before, after. split; [exact Ht |]. split; [exact Hd1 |].
      by inversion Hd3.
    + exists before, (LogListed 2 "Albums" :: after).
      split; [exact Ht |]. split; [exact Hd1 |].
      by inversion Hd3.
  - destruct (index_albums_type_skip_policy sample_utils
                (sample_self false true false false None) two_albums
                (album_page [GoogleAlbumMedia.mk "b" "Home" "Home" 1 "Home";
                             trip_album 4])
                "albums" "Albums" true true store_with_album
                [GoogleAlbumMedia.mk "b" "Home" "Home" 1 "Home"] []
                (trip_album 4)
                (GoogleAlbumsRow.from_parm "a" "Trip" 3
                   (date 2020 1 1) (date 2020 12 31) (Some false))
                eq_refl Hp4 (or_introl eq_refl))
      as (_ & before & events & after & Ht & _ & _ & _ & Hfetch).
    { vm_compute. reflexivity. }
    destruct Hfetch as (first & last & l & l' & -> & Hev & Hcalls & Hl');
      [by vm_compute |].
    eexists before, _, after. split; [exact Ht |].
    assert (fetch_calls l = [] ∧ put_media_row_calls l = put_media_row_calls l)
      as [Hfc _].
    { split; [| done]. clear -Hev. induction Hev as [|e l He _ IH]; [done |].
      destruct e; try done. }
    assert (fetch_calls l' = [] ∧ put_album_file_calls l' = []) as [Hf' Hc'].
    { by destruct Hl' as [->| ->]. }
    split.
    + cbn. unfold fetch_calls in *. rewrite omap_app. cbn.
      by rewrite Hfc, Hf'.
    + cbn. unfold put_album_file_calls in *. rewrite omap_app. cbn.
      rewrite Hcalls, Hc'. vm_compute. reflexivity.
Defined.

(** ** C6: the pruning of a run *)

(** A stale entry that survives deletions elsewhere is still stale. *)
Lemma stale_after (self : GoogleAlbumsSync) (valid_links : gset string)
    (root_dir : PurePath) (fs fs' : filesystem) (k : list string) :
  fs' ⊆ fs ->
  stale self valid_links root_dir fs k ->
  fs' !! k = None ∨ stale self valid_links root_dir fs' k.
Proof.
  intros Hsub (Hunder & Hvalid & Hdir & Hlink).
  destruct (fs' !! k) as [nd|] eqn:E; [right | by left].
  pose proof (lookup_weaken _ _ _ _ E Hsub) as E0.
  split; [exact Hunder |]. split; [exact Hvalid |]. split.
  - unfold fs_is_dir in *.
    destruct (stat fs' k) as [[q nd']|] eqn:Hstat; [| reflexivity].
    rewrite (stat_mono fs' fs k (q, nd') Hsub Hstat) in Hdir. exact Hdir.
  - unfold fs_is_symlink in *. rewrite E. rewrite E0 in Hlink.
    destruct Hlink as [Hsym|[Hhard _]]; [by left |].
    right. split; [exact Hhard | by eexists].
Qed.

Lemma pruned_subseteq (self : GoogleAlbumsSync) (valid_links : gset string)
    (root_dir : PurePath) (w w' : World) :
  pruned self valid_links root_dir w w' -> fs w' ⊆ fs w.
Proof.
  unfold pruned. destruct (fs_exists _ _).
  - by intros (_ & H & _).
  - by intros ->.
Qed.

Lemma pruned_root (self : GoogleAlbumsSync) (valid_links : gset string)
    (root_dir : PurePath) (w : World) :
  ∃ n w',
    (e ← path_exists root_dir;
     if e : bool then _clean_up_stale_links self root_dir valid_links
     else mret 0%nat) w = Ok n w'
    ∧ pruned self valid_links root_dir w w'.
Proof.
  unfold path_exists, pruned. rewrite bind_ask.
  destruct (fs_exists (fs w) (parts root_dir)).
  - destruct (clean_up_stale_links_call self root_dir valid_links w)
      as (n & w' & Hrun & Hrest).
    exists n, w'. split; [exact Hrun |]. split; [by exists n | exact Hrest].
  - by exists 0%nat, w.
Qed.

(** The pruning that ends a run that preserves links, when some link is
    valid: the root of the albums, then the root of the shared albums. *)
Lemma prune_roots (self : GoogleAlbumsSync) (valid_links : gset string)
    (w : World) :
  _preserve_album_links self = true ->
  valid_links ≠ ∅ ->
  ∃ n w_a w_b,
    prune self valid_links w = Ok n w_b
    ∧ pruned self valid_links (_albums_root self) w w_a
    ∧ pruned self valid_links (_shared_albums_root self) w_a w_b.
Proof.
  intros Hpreserve Hne. unfold prune. rewrite Hpreserve.
  rewrite bool_decide_eq_false_2 by exact Hne. cbn [andb negb].
  destruct (pruned_root self valid_links (_albums_root self) w)
    as (n1 & w_a & H1 & Hp1).
  destruct (pruned_root self valid_links (_shared_albums_root self) w_a)
    as (n2 & w_b & H2 & Hp2).
  exists (n1 + n2)%nat, w_a, w_b. split; [| by split].
  unfold path_exists in *. rewrite bind_ask in H1, H2.
  rewrite bind_ask, bind_run, H1, bind_ask, bind_run, H2. reflexivity.
Qed.

Lemma prune_nothing (self : GoogleAlbumsSync) (w : World) :
  prune self ∅ w = Ok 0%nat w.
Proof.
  unfold prune. rewrite bool_decide_eq_true_2 by reflexivity.
  by rewrite andb_false_r.
Qed.

(** C6, as the code has it: take a run of [create_album_content_links]
    that preserves links and returns. The preparation of the roots has
    returned, the loop over the listed album files has returned in some
    world [w_p], and the valid-link set is the set of the link paths of
    the listed album files. When no album file is listed the set is empty
    and the run prunes nothing: the tree it ends with is the tree of
    [w_p]. Otherwise the run prunes the root of the albums and then the
    root of the shared albums, each if it exists when its turn comes, and
    ends with the tree the second pruning leaves. The pruning of a root
    is a call of [_clean_up_stale_links] that returns, only removes
    entries, removes every entry below the root that is not in the
    valid-link set and is a symbolic link not leading to a directory (or,
    in hardlink mode, anything that is neither a directory nor a link to
    one), and leaves no empty directory below the root. So at the end of
    the run nothing has been added to the tree of [w_p], and what was
    stale in [w_p] below a root that was pruned is gone. *)
Theorem clean_up_stale_links_prunes (utils : Utils) (checks : Checks)
    (self : GoogleAlbumsSync) (db : AlbumFiles) (w w_end : World) :
  _preserve_album_links self = true ->
  create_album_content_links utils checks self db w = Ok tt w_end ->
  ∃ w1 st w_p,
    prepare_roots self w = Ok false w1
    ∧ for_each (link_row utils checks self)
        (album_files db (_album_invert self) false) first_link_state
        {| fs := fs w1;
           effects := effects w1
                      ++ [GetAlbumFiles (_album_invert self) false] |}
      = Ok st w_p
    ∧ valid_links st
      = list_to_set (row_links checks utils self "" 0
                       (album_files db (_album_invert self) false))
    ∧ (album_files db (_album_invert self) false = [] ->
       fs w_end = fs w_p)
    ∧ (album_files db (_album_invert self) false ≠ [] ->
       ∃ w_a w_b,
         pruned self (valid_links st) (_albums_root self) w_p w_a
         ∧ pruned self (valid_links st) (_shared_albums_root self) w_a w_b
         ∧ fs w_end = fs w_b
         ∧ fs w_end ⊆ fs w_p
         ∧ (∀ k, fs_exists (fs w_p) (parts (_albums_root self)) = true ->
                 stale self (valid_links st) (_albums_root self) (fs w_p) k ->
                 fs w_end !! k = None)
         ∧ (∀ k, fs_exists (fs w_a) (parts (_shared_albums_root self)) = true ->
                 stale self (valid_links st) (_shared_albums_root self)
                   (fs w_p) k ->
                 fs w_end !! k = None)).
Proof.
  intros Hpreserve Hrun. unfold create_album_content_links in Hrun.
  apply bind_Ok in Hrun as (re & w1 & Hprep & Hrun).
  destruct (prepare_roots_Ok _ _ _ _ Hprep) as (-> & _ & _).
  rewrite get_album_files_run in Hrun.
  apply bind_Ok in Hrun as (st & w_p & Hloop & Hrun).
  apply bind_Ok in Hrun as (n & w_q & Hprune & Hlog).
  rewrite Hpreserve in Hlog. unfold log, tell in Hlog.
  injection Hlog as <-.
  destruct (link_rows_Ok _ _ _ _ _ _ _ _ Hloop) as (HV & Hlen & _).
  rewrite Hpreserve in HV. cbn [current_rid album_item valid_links] in HV, Hlen.
  rewrite (right_id_L ∅ (∪)) in HV.
  exists w1, st, w_p. split; [exact Hprep |]. split; [exact Hloop |].
  split; [exact HV |]. split.
  - intros Hnil. rewrite Hnil in HV. cbn in HV. rewrite HV in Hprune.
    rewrite prune_nothing in Hprune. by injection Hprune as _ <-.
  - intros Hne.
    assert (valid_links st ≠ ∅) as HVne.
    { rewrite HV.
      destruct (row_links checks utils self "" 0
                  (album_files db (_album_invert self) false)) as [|x l];
        [| intros Hempty; apply (not_elem_of_empty (C:=gset string) x);
           rewrite <- Hempty, list_to_set_cons;
           apply elem_of_union_l; by apply elem_of_singleton].
      destruct (album_files db (_album_invert self) false); [done |].
      discriminate Hlen. }
    destruct (prune_roots self (valid_links st) w_p Hpreserve HVne)
      as (n' & w_a & w_b & Hp & HA & HB).
    rewrite Hp in Hprune. injection Hprune as -> <-.
    pose proof (pruned_subseteq _ _ _ _ _ HA) as HsubA.
    pose proof (pruned_subseteq _ _ _ _ _ HB) as HsubB.
    exists w_a, w_b. cbn [fs].
    split; [exact HA |]. split; [exact HB |]. split; [reflexivity |].
    split; [by etrans |]. split.
    + intros k Hex Hstale. unfold pruned in HA. rewrite Hex in HA.
      destruct HA as (_ & _ & Hgone & _).
      eapply lookup_weaken_None; [by apply Hgone | exact HsubB].
    + intros k Hex Hstale. unfold pruned in HB. rewrite Hex in HB.
      destruct HB as (_ & _ & Hgone & _).
      destruct (stale_after _ _ _ _ _ k HsubA Hstale) as [Hno|Hstill].
      * eapply lookup_weaken_None; [exact Hno | exact HsubB].
      * by apply Hgone.
Qed.

Lemma clean_up_stale_links_prunes_witness :
  fs (world_of (create_album_content_links sample_utils sample_checks
                  preserving_self test_album_files
                  (start linked_with_stale)))
    !! stale_link = None.
Proof.
  set (run := create_album_content_links sample_utils sample_checks
                preserving_self test_album_files (start linked_with_stale)).
  assert (run = Ok tt (world_of run)) as Hrun.
  { assert (match run with Ok _ _ => true | Raise _ _ => false end = true)
      as H by (vm_compute; reflexivity).
    destruct run as [[] w'|e w']; [reflexivity | discriminate H]. }
  destruct (clean_up_stale_links_prunes sample_utils sample_checks
              preserving_self test_album_files (start linked_with_stale)
              (world_of run) eq_refl Hrun)
    as (w1 & st & w_p & Hprep & Hloop & HV & _ & Hsome).
  destruct Hsome as (w_a & w_b & _ & _ & _ & _ & Hgone & _);
    [discriminate |].
  assert (w1 = world_of (prepare_roots preserving_self
                           (start linked_with_stale))) as ->
    by (rewrite Hprep; reflexivity).
  match type of Hloop with
  | ?loop = _ => assert (w_p = world_of loop) as ->
      by (rewrite Hloop; reflexivity)
  end.
  apply Hgone.
  - vm_compute. reflexivity.
  - rewrite HV. refine (bool_decide_unpack _ _). vm_compute. exact I.
Defined.

(** C6 as stated fails, twice over. A preserve-mode run over an index
    with no album file leaves its valid-link set empty and prunes nothing:
    the link of an earlier run, now stale, is still there. And in a run
    that does prune, a stale symbolic link that leads to a directory is
    passed over as a directory, while the stale link to a file next to it
    goes. *)
Lemma stale_links_left_behind :
  fs (world_of (create_album_content_links sample_utils sample_checks
                  (sample_self false true false true (Some "%m"))
                  no_album_files (start linked)))
    !! test_link = Some (Symlink test_target)
  ∧ let after :=
      fs (world_of (create_album_content_links sample_utils sample_checks
                      (sample_self false true false true (Some "%m"))
                      test_album_files (start linked_with_stale))) in
    after !! stale_link = None
    ∧ after !! stale_dir_link = Some (Symlink "../../../photos/2020")
    ∧ after !! test_link = Some (Symlink test_target).
Proof. vm_compute. repeat split; reflexivity. Qed.

(** ** C4: what reconciliation removes *)

Lemma non_links_kept_refl (fs : filesystem) : non_links_kept fs fs.
Proof. by intros k nd Hk _. Qed.

Lemma non_links_kept_trans (fs1 fs2 fs3 : filesystem) :
  non_links_kept fs1 fs2 -> non_links_kept fs2 fs3 -> non_links_kept fs1 fs3.
Proof. intros H12 H23 k nd Hk Hnd. by apply H23; [apply H12 |]. Qed.

Lemma non_links_kept_subseteq (fs fs' : filesystem) :
  fs ⊆ fs' -> non_links_kept fs fs'.
Proof. intros Hsub k nd Hk _. by eapply lookup_weaken. Qed.

Lemma keeps_non_links_ret {A : Type} (a : A) : keeps_non_links (mret a).
Proof. intros w. apply non_links_kept_refl. Qed.

Lemma keeps_non_links_ask {A : Type} (q : filesystem -> A) :
  keeps_non_links (ask q).
Proof. intros w. apply non_links_kept_refl. Qed.

Lemma keeps_non_links_tell (e : effect) : keeps_non_links (tell e).
Proof. intros w. apply non_links_kept_refl. Qed.

Lemma keeps_non_links_bind {A B : Type} (m : M A) (f : A -> M B) :
  keeps_non_links m -> (∀ a, keeps_non_links (f a)) ->
  keeps_non_links (m ≫= f).
Proof.
  intros Hm Hf w. rewrite bind_run. specialize (Hm w).
  destruct (m w) as [a w'|e w']; cbn [world_of] in *; [| exact Hm].
  eapply non_links_kept_trans; [exact Hm | apply Hf].
Qed.

Lemma keeps_non_links_bind_ask {A B : Type} (q : filesystem -> A)
    (f : A -> M B) :
  (∀ w, non_links_kept (fs w) (fs (world_of (f (q (fs w)) w)))) ->
  keeps_non_links (ask q ≫= f).
Proof. intros Hf w. rewrite bind_ask. apply Hf. Qed.

Lemma keeps_non_links_try {A : Type} (body : M A)
    (handler : exn -> option (M A)) :
  keeps_non_links body ->
  (∀ e h, handler e = Some h -> keeps_non_links h) ->
  keeps_non_links (try_except body handler).
Proof.
  intros Hb Hh w. unfold try_except. specialize (Hb w).
  destruct (body w) as [a w'|e w']; cbn [world_of] in *; [exact Hb |].
  destruct (handler e) as [h|] eqn:E; [| exact Hb].
  eapply non_links_kept_trans; [exact Hb | by eapply Hh].
Qed.

Lemma keeps_non_links_for_each {A St : Type} (body : St -> A -> M St)
    (l : list A) (s : St) :
  (∀ s x, keeps_non_links (body s x)) -> keeps_non_links (for_each body l s).
Proof.
  intros Hbody. revert s. induction l as [|x l IH]; intros s; simpl.
  - apply keeps_non_links_ret.
  - apply keeps_non_links_bind; [apply Hbody | apply IH].
Qed.

Lemma keeps_non_links_change (op : filesystem -> exn + filesystem)
    (e : effect) :
  (∀ fs fs', op fs = inr fs' -> fs ⊆ fs') -> keeps_non_links (change op e).
Proof.
  intros Hop w. unfold change.
  destruct (op (fs w)) as [err|fs'] eqn:E; cbn [world_of fs].
  - apply non_links_kept_refl.
  - apply non_links_kept_subseteq. by apply Hop.
Qed.

(** The [unlink] of a path that holds a symbolic link. *)
Lemma unlink_symlink_keeps_non_links (p : PurePath) (w : World) :
  fs_is_symlink (fs w) (parts p) = true ->
  non_links_kept (fs w) (fs (world_of (unlink p w))).
Proof.
  intros Hsym. unfold unlink, fs_is_symlink in *.
  destruct (fs w !! parts p) as [was|] eqn:E; [| apply non_links_kept_refl].
  unfold change. destruct (fs_unlink (fs w) (parts p)) as [e|fs'] eqn:E';
    cbn [world_of fs]; [apply non_links_kept_refl |].
  apply fs_unlink_inr in E' as ->. intros k nd Hk Hnd.
  rewrite lookup_delete_ne; [done |]. intros <-.
  rewrite E in Hk. injection Hk as ->. destruct nd; try done.
  by eapply Hnd.
Qed.

Lemma keeps_non_links_replace_link (self : GoogleAlbumsSync)
    (full_file_name link_file : PurePath) (relative_filename : string) :
  _use_hardlinks self = false ->
  keeps_non_links
    (replace_link self full_file_name link_file relative_filename).
Proof.
  intros Hhard. unfold replace_link. rewrite Hhard.
  unfold path_exists. apply keeps_non_links_bind; [apply keeps_non_links_ask |].
  intros e. apply keeps_non_links_bind.
  - destruct e; [| apply keeps_non_links_ret].
    unfold is_symlink. apply keeps_non_links_bind_ask. intros w.
    destruct (fs_is_symlink (fs w) (parts link_file)) eqn:Hsym; cbn [orb].
    + by apply unlink_symlink_keeps_non_links.
    + apply non_links_kept_refl.
  - intros _. destruct (_ntfs_override self); unfold os_symlink, symlink_to;
      apply keeps_non_links_change; intros fs fs' E;
      by apply fs_symlink_inr in E as [_ Hsub].
Qed.

Lemma keeps_non_links_link_album_file (utils : Utils) (checks : Checks)
    (self : GoogleAlbumsSync) (full_file_name link_folder link_file : PurePath)
    (relative_filename created file_name : string) (count : nat) :
  _use_hardlinks self = false ->
  keeps_non_links
    (link_album_file utils checks self full_file_name link_folder
       link_file relative_filename created file_name count).
Proof.
  intros Hhard. unfold link_album_file. apply keeps_non_links_try.
  - unfold is_dir. apply keeps_non_links_bind; [apply keeps_non_links_ask |].
    intros d. apply keeps_non_links_bind.
    { destruct (negb d); [| apply keeps_non_links_ret].
      apply keeps_non_links_bind; [apply keeps_non_links_tell |].
      intros _. apply keeps_non_links_change. intros fs fs' E.
      by apply fs_mkdir_inr in E as [Hsub _]. }
    intros _. apply keeps_non_links_bind.
    { unfold make_link, path_exists.
      apply keeps_non_links_bind; [apply keeps_non_links_ask |].
      intros e. destruct e; [| apply keeps_non_links_tell].
      apply keeps_non_links_bind; [apply keeps_non_links_ask |].
      intros c. destruct c; [| apply keeps_non_links_ret].
      by apply keeps_non_links_replace_link. }
    intros _. unfold touch_link, path_exists.
    apply keeps_non_links_bind; [apply keeps_non_links_ask |].
    intros e. destruct e; [| apply keeps_non_links_ret].
    apply keeps_non_links_bind; [| intros _; apply keeps_non_links_ret].
    destruct (utime_supports_follow_symlinks checks);
      [apply keeps_non_links_tell | apply keeps_non_links_ret].
  - intros e h. destruct (is_FileExistsError e); [| done].
    intros [= <-]. apply keeps_non_links_bind; [apply keeps_non_links_tell |].
    intros _. apply keeps_non_links_ret.
Qed.

(** In symlink mode the body of the loop over the album files removes
    nothing but symbolic links. *)
Lemma keeps_non_links_link_row (utils : Utils) (checks : Checks)
    (self : GoogleAlbumsSync) (st : link_state) (r : AlbumFile.t) :
  _use_hardlinks self = false ->
  keeps_non_links (link_row utils checks self st r).
Proof.
  intros Hhard. unfold link_row. apply keeps_non_links_bind.
  { destruct (current_rid st =? AlbumFile.rid r)%string;
      [apply keeps_non_links_ret |].
    apply keeps_non_links_bind; [apply keeps_non_links_tell |].
    intros _. apply keeps_non_links_ret. }
  intros i. destruct (names_of checks utils self i r) as [n|].
  - apply keeps_non_links_bind; [by apply keeps_non_links_link_album_file |].
    intros c. apply keeps_non_links_ret.
  - intros w. apply non_links_kept_refl.
Qed.

(** A run that preserves symbolic links removes no regular file. *)
Lemma keeps_files_run (utils : Utils) (checks : Checks)
    (self : GoogleAlbumsSync) (db : AlbumFiles) :
  _preserve_album_links self = true ->
  _use_hardlinks self = false ->
  keeps_files (create_album_content_links utils checks self db).
Proof.
  intros Hpreserve Hhard.
  unfold create_album_content_links. apply keeps_files_bind.
  { intros w0. apply files_kept_subseteq.
    apply (frames_subseteq (fun _ => True)).
    by apply prepare_roots_preserve_respects. }
  intros re_download. apply keeps_files_bind.
  { unfold get_album_files. apply keeps_files_bind; [apply keeps_files_tell |].
    intros _. apply keeps_files_ret. }
  intros rows. apply keeps_files_bind.
  { apply keeps_files_for_each. intros s x. by apply keeps_files_link_row. }
  intros st. apply keeps_files_bind; [by apply keeps_files_prune |].
  intros n. destruct (_preserve_album_links self); apply keeps_files_tell.
Qed.

(** C4, as the code has it. In a run of [create_album_content_links],
    whether it ends or is cut short by an exception:
    every [unlink] that went through removed an entry that was itself a
    symbolic link, or happened in hardlink mode;
    in symlink mode the step that replaces a link (lines 391 to 405),
    when the entry in the way is not a symbolic link, logs it, leaves the
    tree as it is and raises [FileExistsError] without making the link,
    and the loop over the album files removes nothing but symbolic
    links: every regular file and every directory that is there when the
    loop starts is there when it ends;
    a run that preserves links and makes symbolic links removes no
    regular file, wherever it is;
    and, in any mode, on a tree in which no symbolic link leads to a
    directory and for roots and link paths without [".."], an entry that
    lies under neither album root and at none of the link paths of the
    album files is unchanged by the run.
    Nothing more holds of a directory in the way, nor of media below an
    album root. *)
Theorem reconciliation_removes_links_only (utils : Utils) (checks : Checks)
    (self : GoogleAlbumsSync) (db : AlbumFiles) (w : World) :
  let w' := world_of (create_album_content_links utils checks self db w) in
  (∃ l, effects w' = effects w ++ l ∧ Forall (unlink_in_order self) l)
  ∧ (∀ full_file_name link_file relative_filename w0,
       _use_hardlinks self = false ->
       fs_exists (fs w0) (parts link_file) = true ->
       fs_is_symlink (fs w0) (parts link_file) = false ->
       replace_link self full_file_name link_file relative_filename w0
       = Raise FileExistsError
           {| fs := fs w0;
              effects := effects w0 ++ [Log (NotALink link_file)] |})
  ∧ (∀ rows st w0,
       _use_hardlinks self = false ->
       non_links_kept (fs w0)
         (fs (world_of (for_each (link_row utils checks self) rows st w0))))
  ∧ (_use_hardlinks self = false ->
     _preserve_album_links self = true ->
     files_kept (fs w) (fs w'))
  ∧ (physical (fs w) ->
     ".." ∉ parts (_albums_root self) ->
     ".." ∉ parts (_shared_albums_root self) ->
     ∀ p nd,
       fs w !! p = Some nd ->
       ¬ under (parts (_albums_root self)) p ->
       ¬ under (parts (_shared_albums_root self)) p ->
       (∀ r i n, r ∈ album_files db (_album_invert self) false ->
                 names_of checks utils self i r = Some n ->
                 (".." ∉ parts (link_file n)) ∧ parts (link_file n) ≠ p) ->
       fs w' !! p = Some nd).
Proof.
  intros w'. split; [| split; [| split; [| split]]].
  - apply (respects_run (unlink_in_order self) (fun _ => False) self);
      try done.
    by intros [].
  - intros. by apply replace_link_not_a_link.
  - intros rows st w0 Hhard. revert w0.
    apply keeps_non_links_for_each. intros s x.
    by apply keeps_non_links_link_row.
  - intros Hhard Hpreserve. by apply keeps_files_run.
  - intros _ _ _ p nd Hnd Halbums Hshared Hlinks.
    assert (respects (fun _ => True) (fun q => q = p)
              (create_album_content_links utils checks self db)) as H.
    { apply respects_run; try done.
      - by intros q ->.
      - by intros q ->.
      - intros q r i n -> Hr Hn. by eapply Hlinks. }
    destruct (H w) as [_ Hkeep]. by apply Hkeep.
Qed.

Lemma reconciliation_removes_links_only_witness :
  fs (world_of (create_album_content_links sample_utils sample_checks
                  (without_sorting
                     (sample_self false true true false (Some "%m")))
                  test_album_files (start linked)))
    !! photo_path = Some (File 7)
  ∧ fs (world_of (create_album_content_links sample_utils sample_checks
                    preserving_self test_album_files (start in_the_way)))
      !! photo_path = Some (File 7).
Proof.
  split.
  - apply (reconciliation_removes_links_only sample_utils sample_checks
             (without_sorting (sample_self false true true false (Some "%m")))
             test_album_files (start linked)).
    + refine (bool_decide_unpack _ _). vm_compute. exact I.
    + intros H. vm_compute in H. by repeat (apply elem_of_cons in H as [H|H]; [discriminate H |]); apply elem_of_nil in H.
    + intros H. vm_compute in H. by repeat (apply elem_of_cons in H as [H|H]; [discriminate H |]); apply elem_of_nil in H.
    + vm_compute. reflexivity.
    + intros [k Hk]. vm_compute in Hk. discriminate.
    + intros [k Hk]. vm_compute in Hk. discriminate.
    + intros r i n Hr Hn.
      apply list_elem_of_singleton in Hr as ->.
      vm_compute in Hn. injection Hn as <-. split.
      * intros H. vm_compute in H.
        by repeat (apply elem_of_cons in H as [H|H]; [discriminate H |]);
          apply elem_of_nil in H.
      * vm_compute. discriminate.
  - destruct (reconciliation_removes_links_only sample_utils sample_checks
                preserving_self test_album_files (start in_the_way))
      as (_ & _ & _ & Hfiles & _).
    apply (Hfiles eq_refl eq_refl). vm_compute. reflexivity.
Defined.

(** C4 as stated fails, twice over. A run that rebuilds the album tree
    removes everything below the album roots, media files included when
    a root contains them: with [albums_path] set to ["."] the folder of
    the albums is the root folder, and the downloaded photo is gone after
    the run. And in a run that preserves symbolic links, an empty
    directory in the way at the link path is logged as not being a link
    and left by the loop, and then removed by the pruning pass as an
    empty directory. *)
Lemma reconciliation_removes_more :
  (media_only !! photo_path = Some (File 7)
   ∧ fs (world_of (create_album_content_links sample_utils sample_checks
                     albums_at_root_self test_album_files
                     (start media_only)))
       !! photo_path = None)
  ∧ (in_the_way !! test_link = Some Dir
     ∧ fs (world_of (for_each (link_row sample_utils sample_checks
                                 preserving_self)
                       [test_album_file] first_link_state
                       (start in_the_way)))
         !! test_link = Some Dir
     ∧ fs (world_of (create_album_content_links sample_utils sample_checks
                       preserving_self test_album_files
                       (start in_the_way)))
         !! test_link = None).
Proof. vm_compute. repeat split; reflexivity. Qed.

(** ** C7: a link that is already right, in a whole run *)

Lemma row_links_names (checks : Checks) (utils : Utils)
    (self : GoogleAlbumsSync) (rows : list AlbumFile.t) (rid : string)
    (item : nat) :
  row_links checks utils self rid item rows
  = (fun n => str (link_file n)) <$> row_names checks utils self rid item rows.
Proof.
  revert rid item. induction rows as [|r rows IH]; intros rid item; [done |].
  cbn [row_links row_names].
  destruct (names_of checks utils self _ r) as [n|]; [| done].
  by rewrite fmap_cons, IH.
Qed.

Lemma row_names_spec (checks : Checks) (utils : Utils)
    (self : GoogleAlbumsSync) (rows : list AlbumFile.t) (rid : string)
    (item : nat) (n : link_names) :
  n ∈ row_names checks utils self rid item rows ->
  ∃ r i, r ∈ rows ∧ names_of checks utils self i r = Some n.
Proof.
  revert rid item. induction rows as [|r rows IH]; intros rid item; cbn.
  - intros H. by apply elem_of_nil in H.
  - destruct (names_of checks utils self _ r) as [n'|] eqn:E.
    + intros H. apply elem_of_cons in H as [->|H].
      * eexists r, _. split; [by left | exact E].
      * destruct (IH _ _ H) as (r' & i & Hr' & Hn).
        exists r', i. split; [by right | exact Hn].
    + intros H. by apply elem_of_nil in H.
Qed.

Lemma anchored_joinpath (a b : PurePath) :
  anchored a = true -> anchored (joinpath a b) = true.
Proof. unfold joinpath. by destruct (anchored b) eqn:E. Qed.

(** Below absolute roots the link paths are absolute. *)
Lemma names_of_anchored (checks : Checks) (utils : Utils)
    (self : GoogleAlbumsSync) (i : nat) (r : AlbumFile.t) (n : link_names) :
  anchored (_albums_root self) = true ->
  anchored (_shared_albums_root self) = true ->
  names_of checks utils self i r = Some n ->
  anchored (link_file n) = true.
Proof.
  intros HA HB. unfold names_of.
  destruct (album_folder_name _ _ _ _ _ _) as [folder|] eqn:E; [| done].
  cbn. intros [= <-]. cbn. apply anchored_joinpath.
  unfold album_folder_name in E.
  destruct (if _omit_album_date self then _ else _) as [rel_path|];
    [| done].
  cbn in E. injection E as <-.
  destruct (AlbumFile.sharedAlbum r); by apply anchored_joinpath.
Qed.

Lemma keeps_links_spares (p : PurePath) (e : effect) :
  keeps_links e -> spares p e.
Proof. by destruct e. Qed.

(** The [try] block of the loop body, for a link at another path than
    [p]: what it removes or makes, it removes or makes at its own link
    path. *)
Lemma link_album_file_spares (utils : Utils) (checks : Checks)
    (self : GoogleAlbumsSync) (p full_file_name link_folder link_file : PurePath)
    (relative_filename created file_name : string) (count : nat) :
  parts link_file ≠ parts p ->
  respects (spares p) (fun q => q = parts p)
    (link_album_file utils checks self full_file_name link_folder
       link_file relative_filename created file_name count).
Proof.
  intros Hne.
  assert (∀ m, respects (spares p) (fun q => q = parts p) (log m)) as Hlog.
  { intros m. by apply respects_tell. }
  unfold link_album_file. apply respects_try.
  - apply respects_bind; [apply respects_ask |]. intros d.
    apply respects_bind.
    { destruct (negb d); [| apply respects_ret].
      apply respects_bind; [apply Hlog |]. intros _.
      by apply respects_mkdir. }
    intros _. apply respects_bind.
    { unfold make_link.
      apply respects_bind; [apply respects_ask |]. intros e.
      destruct e; [| apply Hlog].
      apply respects_bind; [apply respects_ask |]. intros c.
      destruct c; [| apply respects_ret].
      unfold replace_link.
      apply respects_bind; [apply respects_ask |]. intros e.
      apply respects_bind.
      - destruct e; [| apply respects_ret].
        apply respects_bind; [apply respects_ask |]. intros s.
        destruct (s || _use_hardlinks self); [| apply Hlog].
        apply respects_unlink; [by intros | done].
      - intros _. destruct (_use_hardlinks self).
        + by apply respects_link.
        + destruct (_ntfs_override self); by apply respects_symlink_to. }
    intros _. unfold touch_link.
    apply respects_bind; [apply respects_ask |]. intros e.
    destruct e; [| apply respects_ret].
    apply respects_bind; [| intros; apply respects_ret].
    destruct (utime_supports_follow_symlinks checks); [| apply respects_ret].
    by apply respects_tell.
  - intros e h Hh. destruct (is_FileExistsError e); [| discriminate].
    injection Hh as <-.
    apply respects_bind; [apply Hlog | intros; apply respects_ret].
Qed.

(** The body of the loop, for an album file whose link is not at [p]. *)
Lemma link_row_spares (utils : Utils) (checks : Checks)
    (self : GoogleAlbumsSync) (p : PurePath) (st : link_state)
    (r : AlbumFile.t) :
  (∀ n', names_of checks utils self (next_album_item st r) r = Some n' ->
         parts (link_file n') ≠ parts p) ->
  respects (spares p) (fun q => q = parts p)
    (link_row utils checks self st r).
Proof.
  intros Hnames. unfold link_row.
  apply (respects_bind_with (spares p) (fun q => q = parts p)
           (fun i => i = next_album_item st r)).
  - destruct (String.eqb _ _); [apply respects_ret |].
    apply respects_bind; [| intros; apply respects_ret].
    by apply respects_tell.
  - intros w i w'. unfold next_album_item.
    destruct (String.eqb _ _).
    + by intros [= <- _].
    + unfold put_album_downloaded. rewrite bind_tell. by intros [= <- _].
  - intros i ->.
    destruct (names_of checks utils self (next_album_item st r) r)
      as [n'|] eqn:E.
    + apply respects_bind; [| intros; apply respects_ret].
      apply link_album_file_spares. by apply Hnames.
    + apply respects_raise.
Qed.

Lemma frames_weaken_links (p : PurePath) (w w' : World) :
  frames keeps_links (fun _ => True) w w' ->
  frames (spares p) (fun q => q = parts p) w w'.
Proof.
  intros [(l & Hl & Hall) Hkeep]. split.
  - exists l. split; [exact Hl |].
    eapply Forall_impl; [exact Hall |]. apply keeps_links_spares.
  - intros q nd _. by apply Hkeep.
Qed.

(** The loop over the album files in symlink mode, when the link at [p]
    has the target [rel] and every album file with its link at [p] asks
    for that target: the link at [p] is neither removed nor made. *)
Lemma link_rows_spare (utils : Utils) (checks : Checks)
    (self : GoogleAlbumsSync) (p : PurePath) (rel : string)
    (rows : list AlbumFile.t) (st : link_state) (w : World) :
  _preserve_album_links self = true ->
  _use_hardlinks self = false ->
  fs w !! parts p = Some (Symlink rel) ->
  Forall (fun n' => parts (link_file n') = parts p ->
                    relative_filename n' = rel)
    (row_names checks utils self (current_rid st) (album_item st) rows) ->
  frames (spares p) (fun q => q = parts p) w
    (world_of (for_each (link_row utils checks self) rows st w)).
Proof.
  intros Hpreserve Hhard. revert st w.
  induction rows as [|r rows IH]; intros st w Hp Hrows.
  - apply frames_refl.
  - cbn [for_each]. rewrite bind_run. cbn [row_names] in Hrows.
    fold (next_album_item st r) in Hrows.
    assert (frames (spares p) (fun q => q = parts p) w
              (world_of (link_row utils checks self st r w))
            ∧ ∀ st1 w1, link_row utils checks self st r w = Ok st1 w1 ->
                Forall (fun n' => parts (link_file n') = parts p ->
                                  relative_filename n' = rel)
                  (row_names checks utils self (current_rid st1)
                     (album_item st1) rows)) as [Hstep Hnext].
    { destruct (names_of checks utils self (next_album_item st r) r)
        as [n'|] eqn:E.
      - apply Forall_cons in Hrows as [Hn' Hrows]. split.
        + destruct (decide (parts (link_file n') = parts p)) as [Heq|Hne].
          * apply frames_weaken_links.
            apply (link_row_kept utils checks self st r n' w Hpreserve E).
            unfold already_correct. rewrite Hhard, Heq, (Hn' Heq). exact Hp.
          * apply link_row_spares. intros n1 Hn1.
            rewrite E in Hn1. by injection Hn1 as <-.
        + intros st1 w1 Hrow.
          apply link_row_Ok in Hrow as (n1 & l1 & _ & Hitem & Hrid & _).
          by rewrite Hrid, Hitem.
      - split.
        + apply link_row_spares. intros n1 Hn1. congruence.
        + intros st1 w1 Hrow.
          apply link_row_Ok in Hrow as (n1 & l1 & Hn1 & _). congruence. }
    destruct (link_row utils checks self st r w) as [st1 w1|e w1];
      cbn [world_of] in *; [| exact Hstep].
    eapply frames_trans; [exact Hstep |].
    apply IH; [| exact (Hnext st1 w1 eq_refl)].
    destruct Hstep as [_ Hkeep]. by apply Hkeep.
Qed.

(** The first loop of the pruning pass removes nothing at a valid path. *)
Lemma remove_stale_spares (self : GoogleAlbumsSync)
    (valid_links : gset string) (p : PurePath) (removed_count : nat)
    (path : PurePath) :
  str p ∈ valid_links ->
  anchored path = anchored p ->
  respects (spares p) (fun _ => False)
    (remove_stale self valid_links removed_count path).
Proof.
  intros Hp Ha. unfold remove_stale.
  apply respects_bind; [apply respects_ask |]. intros d.
  destruct d; [apply respects_ret |].
  destruct (bool_decide (str path ∉ valid_links)) eqn:Hv;
    [| apply respects_ret].
  apply bool_decide_eq_true in Hv.
  assert (parts path ≠ parts p) as Hne.
  { intros Heq. apply Hv. destruct path, p. cbn in *. by subst. }
  apply respects_try.
  - apply respects_bind; [apply respects_ask |]. intros s.
    apply respects_bind; [apply respects_ask |]. intros e.
    destruct (s || _use_hardlinks self && e); [| apply respects_ret].
    apply respects_bind; [by apply respects_tell |]. intros _.
    apply respects_bind; [| intros; apply respects_ret].
    apply respects_unlink; [by intros | by intros []].
  - intros e h Hh. destruct (is_OSError e); [| discriminate].
    injection Hh as <-.
    apply respects_bind; [by apply respects_tell | intros; apply respects_ret].
Qed.

Lemma remove_empty_spares (p : PurePath) (u : unit) (path : PurePath) :
  respects (spares p) (fun _ => False) (remove_empty u path).
Proof.
  unfold remove_empty.
  apply respects_bind; [apply respects_ask |]. intros d.
  apply respects_bind; [apply respects_ask |]. intros a.
  destruct (d && negb a); [| apply respects_ret].
  apply respects_try.
  - apply respects_bind; [by apply respects_tell |]. intros _.
    apply respects_rmdir; [done | by intros []].
  - intros e h Hh. destruct (is_OSError e); [| discriminate].
    injection Hh as <-. by apply respects_tell.
Qed.

Lemma clean_up_spares (self : GoogleAlbumsSync) (valid_links : gset string)
    (p root_dir : PurePath) :
  str p ∈ valid_links ->
  anchored root_dir = anchored p ->
  respects (spares p) (fun _ => False)
    (_clean_up_stale_links self root_dir valid_links).
Proof.
  intros Hp Ha. unfold _clean_up_stale_links.
  apply (respects_bind_with (spares p) (fun _ => False)
           (Forall (fun q => anchored q = anchored p))).
  { apply respects_ask. }
  { intros w paths w' H. apply glob_Ok in H as (_ & -> & _).
    apply Forall_fmap, Forall_forall. by intros k _. }
  intros paths Hpaths. apply respects_bind.
  { eapply respects_for_each; [exact Hpaths |]. intros n q Hq.
    by apply remove_stale_spares. }
  intros removed_count. apply respects_bind; [apply respects_ask |].
  intros paths'. apply respects_bind; [| intros; apply respects_ret].
  apply (respects_for_each (spares p) (fun _ => False) (fun _ => True)).
  - apply Forall_forall. by intros.
  - intros u q _. apply remove_empty_spares.
Qed.

(** The pruning that ends a run leaves a valid link alone. *)
Lemma prune_spares (self : GoogleAlbumsSync) (valid_links : gset string)
    (p : PurePath) (w : World) :
  str p ∈ valid_links ->
  anchored (_albums_root self) = anchored p ->
  anchored (_shared_albums_root self) = anchored p ->
  (∃ l, effects (world_of (prune self valid_links w)) = effects w ++ l
        ∧ Forall (spares p) l)
  ∧ ∀ nd, fs w !! parts p = Some nd -> nd ≠ Dir ->
          fs (world_of (prune self valid_links w)) !! parts p = Some nd.
Proof.
  intros Hp HA HB. split.
  - assert (respects (spares p) (fun _ => False) (prune self valid_links))
      as H; [| apply H].
    unfold prune. destruct (_ && _); [| apply respects_ret].
    apply respects_bind; [apply respects_ask |]. intros e1.
    apply respects_bind.
    { destruct e1; [by apply clean_up_spares | apply respects_ret]. }
    intros n1. apply respects_bind; [apply respects_ask |]. intros e2.
    apply respects_bind; [| intros; apply respects_ret].
    destruct e2; [by apply clean_up_spares | apply respects_ret].
  - assert (∀ root_dir w0 nd,
              anchored root_dir = anchored p ->
              fs w0 !! parts p = Some nd -> nd ≠ Dir ->
              fs (world_of (_clean_up_stale_links self root_dir valid_links
                              w0)) !! parts p = Some nd) as Hclean.
    { intros root_dir w0 nd Ha Hnd Hdir.
      apply (clean_up_stale_links_kept self root_dir valid_links w0);
        [exact Hnd | exact Hdir |].
      left. rewrite Ha. by destruct p. }
    intros nd Hnd Hdir. unfold prune.
    destruct (_ && _); [| exact Hnd].
    unfold path_exists. rewrite bind_ask, bind_run.
    assert (∀ (e : bool) root_dir w0,
              anchored root_dir = anchored p ->
              fs w0 !! parts p = Some nd ->
              ∃ n w1,
                (if e then _clean_up_stale_links self root_dir valid_links
                 else mret 0%nat) w0 = Ok n w1
                ∧ fs w1 !! parts p = Some nd) as Hstep.
    { intros e root_dir w0 Ha Hnd0. destruct e.
      - pose proof (Hclean root_dir w0 nd Ha Hnd0 Hdir) as Hk.
        destruct (clean_up_stale_links_call self root_dir valid_links w0)
          as (n & w1 & Hrun & _).
        rewrite Hrun in Hk. by exists n, w1.
      - by exists 0%nat, w0. }
    destruct (Hstep (fs_exists (fs w) (parts (_albums_root self)))
                (_albums_root self) w HA Hnd) as (n1 & w1 & -> & Hnd1).
    rewrite bind_ask, bind_run.
    destruct (Hstep (fs_exists (fs w1) (parts (_shared_albums_root self)))
                (_shared_albums_root self) w1 HB Hnd1)
      as (n2 & w2 & -> & Hnd2).
    exact Hnd2.
Qed.



